(** * Verification of the product synchronisation engine

    A shallow embedding of [app/shopify.ts] (record validation, the
    rate-limited GraphQL client, the remote catalog index, the batch
    reconciler, the inventory adjuster) and of the [action] of
    [app/routes/app._index.tsx] (progress accumulator, terminal result),
    with the text functions of the feed parser ([csv]), [withRetry] of
    [app/ftp.ts] and the session storage of [app/shopify.server.ts].

    Conventions of the embedding:
    - a JavaScript string is the list of its UTF-16 code units;
    - a JavaScript number is an IEEE-754 binary64 value ([spec_float]):
      the progress counter and its increments are computed with the
      operations of the Standard Library's [SpecFloat], rounded to
      nearest, ties to even;
    - the authentication of [action] is an input of the run: it throws,
      or it gives a session or none;
    - the store the code mutates (the failure array, the progress variable)
      and the remote platform are fields of an explicit state, threaded by
      a state-and-exception monad; every HTTP attempt, every back-off wait
      and every progress update is appended to a trace;
    - GraphQL documents are kept as structured requests: the values the
      code interpolates into their text, not the text. *)

From Stdlib Require Import ZArith NArith QArith Qround Lia.
From Stdlib Require Import Ascii String DecimalString.
From Stdlib Require Import Floats.SpecFloat.
From stdpp Require Import base option list gmap.

Local Open Scope list_scope.

(* ===================================================================== *)
(** * JavaScript strings *)
(* ===================================================================== *)

Module Js.

(** A literal of the source, given as an ASCII literal. *)
Definition lit (s : string) : list N :=
  List.map N_of_ascii (list_ascii_of_string s).

(** [WhiteSpace] and [LineTerminator] of ECMAScript, the code units that
    [String.prototype.trim] strips. *)
Definition isWhiteSpace (c : N) : bool :=
  ((9 <=? c) && (c <=? 13) || (c =? 32) || (c =? 160) || (c =? 5760)
   || (8192 <=? c) && (c <=? 8202) || (c =? 8232) || (c =? 8233)
   || (c =? 8239) || (c =? 8287) || (c =? 12288) || (c =? 65279))%N.

Fixpoint trimStart (s : list N) : list N :=
  match s with
  | c :: s' => if isWhiteSpace c then trimStart s' else s
  | [] => []
  end.

Definition trimEnd (s : list N) : list N := rev (trimStart (rev s)).

Definition trim (s : list N) : list N := trimEnd (trimStart s).

(** [s === ""] / [!s] on a string. *)
Definition isEmpty (s : list N) : bool :=
  match s with [] => true | _ => false end.

Fixpoint startsWith (p s : list N) : bool :=
  match p, s with
  | [], _ => true
  | a :: p', b :: s' => (a =? b)%N && startsWith p' s'
  | _ :: _, [] => false
  end.

(** [s.includes(p)] *)
Fixpoint includes (p s : list N) : bool :=
  startsWith p s ||
  match s with
  | [] => false
  | _ :: s' => includes p s'
  end.

(** [s.split("/").pop()]: what follows the last [sep]. *)
Fixpoint lastSegment (sep : N) (s : list N) : list N :=
  match s with
  | [] => []
  | c :: s' =>
      if existsb (N.eqb sep) s' then lastSegment sep s'
      else if (c =? sep)%N then s' else s
  end.

(** [s.substring(0, n)] *)
Definition substring0 (n : nat) (s : list N) : list N := take n s.

(** [`${n}`] for a non-negative integer. *)
Definition ofNat (n : nat) : list N :=
  lit (NilZero.string_of_uint (Nat.to_uint n)).

(** JavaScript numbers. *)
Definition isNaN (x : spec_float) : bool :=
  match x with S754_nan => true | _ => false end.

Definition zero : spec_float := S754_zero false.

(** [x < 0] *)
Definition ltZero (x : spec_float) : bool := SFltb x zero.

(** [Math.floor(x)] as [JSON.stringify] sends it: the integer, or [null]
    ([None]) for [NaN] and the infinities. *)
Definition floorJson (x : spec_float) : option Z :=
  match x with
  | S754_zero _ => Some 0%Z
  | S754_finite s m e =>
      Some (Z.shiftl (if s then Z.neg m else Z.pos m) e)
  | S754_infinity _ | S754_nan => None
  end.

(** The finite number [z] (used for inputs of examples). *)
Definition ofZ (z : Z) : spec_float :=
  match z with
  | Z0 => S754_zero false
  | Zpos p => S754_finite false p 0
  | Zneg p => S754_finite true p 0
  end.

(** The arithmetic of JavaScript numbers is the one of binary64, as the
    Standard Library specifies it: every result is rounded to nearest,
    ties to even. *)
Definition prec : Z := 53.
Definition emax : Z := 1024.

Definition add : spec_float -> spec_float -> spec_float := SFadd prec emax.
Definition sub : spec_float -> spec_float -> spec_float := SFsub prec emax.
Definition mul : spec_float -> spec_float -> spec_float := SFmul prec emax.
Definition div : spec_float -> spec_float -> spec_float := SFdiv prec emax.

(** The number of an integer literal, or of an array length. *)
Definition num (z : Z) : spec_float := binary_normalize prec emax z 0 false.

(** [x <= y] *)
Definition le (x y : spec_float) : bool := SFleb x y.

(** [Math.min(x, y)] *)
Definition min (x y : spec_float) : spec_float :=
  match SFcompare x y with
  | None => S754_nan
  | Some Lt => x
  | Some Gt => y
  | Some Eq =>
      match x, y with
      | S754_zero false, S754_zero true => y
      | _, _ => x
      end
  end.

(** [Math.ceil(x)] *)
Definition ceil (x : spec_float) : spec_float :=
  match x with
  | S754_finite s m e =>
      if (0 <=? e)%Z then x
      else
        match (if s then - (Z.pos m / 2 ^ (- e)) else - (- Z.pos m / 2 ^ (- e)))%Z with
        | Z0 => S754_zero s
        | q => binary_normalize prec emax q 0 false
        end
  | _ => x
  end.

End Js.

Abbreviation jsstring := (list N) (only parsing).

(* ===================================================================== *)
(** * Data model ([csv] interfaces and [shopify.ts] response shapes) *)
(* ===================================================================== *)

Record ProductData := mkProduct {
  code : jsstring;
  title : jsstring;
  description : jsstring;
  brand : jsstring;
  category : jsstring;
  subcategory : jsstring;
  barcode : jsstring;
  price : spec_float;
  stock : spec_float;
  bec : jsstring;
  image_url : jsstring
}.

(** [EpuisesData.code]; the field is renamed because a record field name is
    global in Rocq. *)
Record EpuisesData := mkEpuises { epuises_code : jsstring }.

(** The value stored in the [existingProducts] map. *)
Record RemoteRef := mkRef { id : jsstring; inventoryItemId : jsstring }.

Record UserError := mkUserError { field : jsstring; message : jsstring }.

(** A variant edge of [ProductQueryResponse]. *)
Record VariantNode := mkVariant {
  variant_barcode : option jsstring;
  variant_inventoryItem : jsstring
}.

Record ProductNode := mkNode {
  node_id : jsstring;
  node_variants : list VariantNode
}.

(** The aliases [update${index}], [create${index}], [delete${index}]. *)
Inductive Alias :=
| update (index : nat)
| create (index : nat)
| delete (index : nat).

#[global] Instance Alias_eq_dec : EqDecision Alias.
Proof. solve_decision. Defined.

(** One entry of [ProductMutationResponse]: [result_product] (the field
    [product]) is [null] when the platform rejected the operation; a product
    carries its id and the inventory-item ids of its variant edges. *)
Record MutationResult := mkMutationResult {
  result_product : option (jsstring * list jsstring);
  userErrors : list UserError
}.

Inductive Data :=
| ProductQueryResponse (edges : list ProductNode) (hasNextPage : bool)
    (endCursor : option jsstring)
| ProductMutationResponse (results : list (Alias * MutationResult))
| InventoryMutationResponse (inventoryUserErrors : list UserError).

(** The [data] property of a reply: an object, absent, or [null]. *)
Inductive DataField :=
| HasData (d : Data)
| NoData
| NullData.

(** [GraphQLResponse<T>]: [errors] is optional. *)
Record GraphQLResponse := mkGraphQL {
  data : DataField;
  errors : option (list jsstring)
}.

(** A JavaScript exception: [name] and [message] of the error object. *)
Record Exn := mkExn { ename : jsstring; emessage : jsstring }.

Definition Error (msg : jsstring) : Exn := mkExn (Js.lit "Error") msg.
Definition TypeError (msg : jsstring) : Exn := mkExn (Js.lit "TypeError") msg.

(** [String(err)] *)
Definition String_of_exn (e : Exn) : jsstring :=
  if Js.isEmpty (emessage e) then ename e
  else if Js.isEmpty (ename e) then emessage e
  else ename e ++ Js.lit ": " ++ emessage e.

(** What [fetch] resolves to: [json] is what [response.json()] gives (or
    the exception it rejects with), [text] is [response.text()]. *)
Record HttpResponse := mkResponse {
  status : N;
  statusText : jsstring;
  json : Exn + GraphQLResponse;
  text : jsstring
}.

(** [response.ok] *)
Definition ok (r : HttpResponse) : bool :=
  ((200 <=? status r) && (status r <=? 299))%N.

Inductive FetchResult :=
| Rejected (e : Exn)
| Resolved (r : HttpResponse).

(* ===================================================================== *)
(** * Requests *)
(* ===================================================================== *)

(** The [input] object built for each product (shopify.ts:200). The
    text of the mutation writes each of its fields between double
    quotes, as it is, without escaping (shopify.ts:217, 239). *)
Record ProductInput := mkInput {
  input_title : jsstring;
  input_descriptionHtml : jsstring;
  input_vendor : jsstring;
  input_productType : jsstring;
  input_tags : list jsstring;
  input_barcode : jsstring;
  input_price : spec_float
}.

(** A sub-operation pushed to [mutations], as the values interpolated
    into its text: the alias index, the id of the product to update, and
    the fields of [input]. *)
Inductive ProductOp :=
| productUpdate (index : nat) (target : jsstring) (input : ProductInput)
| productCreate (index : nat) (input : ProductInput).

(** One element of [changes]; [inventoryItemId] is [None] when the
    JavaScript value is [undefined]. *)
Record Change := mkChange {
  change_inventoryItemId : option jsstring;
  change_delta : option Z;
  change_locationId : jsstring
}.

Inductive GqlRequest :=
| ProductsQuery (keys : list jsstring) (after : option jsstring)
| ProductsMutation (ops : list ProductOp) (variables : gmap nat jsstring)
| InventoryAdjust (changes : list Change)
| DeleteMutation (ops : list (nat * jsstring)).

Inductive HttpRequest :=
| Graphql (q : GqlRequest)
| ImageUpload (productId : jsstring) (src : jsstring).

(** Observable effects, in order of occurrence. *)
Inductive Event :=
| Fetch (retry : nat) (req : HttpRequest)
| Wait (ms : N)
| Progress (increment total : spec_float).

(** The argument kinds [JSON.stringify] is applied to. *)
Inductive JsonArg :=
| JUserErrors (l : list UserError)
| JErrors (l : list jsstring)
| JString (s : jsstring).

(** The environment of a run: the remote platform behind [fetch] and the
    runtime's [JSON.stringify]. *)
Class Env := {
  World : Type;
  fetch : HttpRequest -> World -> FetchResult * World;
  JSON_stringify : JsonArg -> jsstring
}.

(* ===================================================================== *)
(** * The state-and-exception monad *)
(* ===================================================================== *)

(** Outcome of a computation: a value, a thrown exception, or [Diverge]
    when the pagination loop was cut off by its fuel. *)
Inductive Res (A : Type) :=
| Ok (a : A)
| Throw (e : Exn)
| Diverge.
Arguments Ok {A} a.
Arguments Throw {A} e.
Arguments Diverge {A}.

Section Program.
Context `{Env}.

(** [failedProducts] is the array allocated by [syncProductsWithShopify]
    (shopify.ts:465); [progress] is the variable captured by
    [updateProgress] (app._index.tsx:130). *)
Record St := mkSt {
  world : World;
  failedProducts : list jsstring;
  trace : list Event;
  progress : spec_float
}.

Definition M (A : Type) : Type := St -> Res A * St.

Definition ret {A} (a : A) : M A := fun s => (Ok a, s).

Definition bind {A B} (m : M A) (f : A -> M B) : M B :=
  fun s =>
    match m s with
    | (Ok a, s') => f a s'
    | (Throw e, s') => (Throw e, s')
    | (Diverge, s') => (Diverge, s')
    end.

Definition throw {A} (e : Exn) : M A := fun s => (Throw e, s).

Definition diverge {A} : M A := fun s => (Diverge, s).

(** [try { m } catch (err) { handler err }] *)
Definition try_catch {A} (m : M A) (handler : Exn -> M A) : M A :=
  fun s =>
    match m s with
    | (Throw e, s') => handler e s'
    | other => other
    end.

Definition emit (e : Event) : M unit :=
  fun s => (Ok tt, mkSt (world s) (failedProducts s) (trace s ++ [e]) (progress s)).

(** [failedProducts.push(msg)] *)
Definition push_failed (msg : jsstring) : M unit :=
  fun s => (Ok tt, mkSt (world s) (failedProducts s ++ [msg]) (trace s) (progress s)).

(** [const failedProducts: string[] = []] *)
Definition new_failedProducts : M unit :=
  fun s => (Ok tt, mkSt (world s) [] (trace s) (progress s)).

(** [await fetch(...)], the attempt being number [retry] of its call. *)
Definition http_fetch (retry : nat) (req : HttpRequest) : M HttpResponse :=
  fun s =>
    let '(r, w) := fetch req (world s) in
    let s' := mkSt w (failedProducts s) (trace s ++ [Fetch retry req]) (progress s) in
    match r with
    | Rejected e => (Throw e, s')
    | Resolved resp => (Ok resp, s')
    end.

(** [await new Promise((resolve) => setTimeout(resolve, ms))] *)
Definition setTimeout (ms : N) : M unit := emit (Wait ms).

(** [await response.json()] *)
Definition response_json (r : HttpResponse) : M GraphQLResponse :=
  match json r with
  | inl e => throw e
  | inr j => ret j
  end.

End Program.

Declare Scope prog_scope.
Delimit Scope prog_scope with prog.
Notation "x <- m ;; k" := (bind m (fun x => k))
  (at level 62, m at next level, right associativity) : prog_scope.
Notation "m ;;; k" := (bind m (fun _ => k))
  (at level 62, right associativity) : prog_scope.
Local Open Scope prog_scope.

(* ===================================================================== *)
(** * shopify.ts *)
(* ===================================================================== *)

(** [sanitizeString]: drop U+FFFD, drop everything outside [\x20-\x7E],
    trim, keep at most 255 code units. *)
Definition sanitizeString (str : jsstring) : jsstring :=
  Js.substring0 255
    (Js.trim
       (List.filter (fun c => (32 <=? c) && (c <=? 126))%N
          (List.filter (fun c => negb (c =? 65533)%N) str))).

(** [validateProduct] (shopify.ts:68). *)
Definition validateProduct (product : ProductData) : bool :=
  if Js.isEmpty (title product) || Js.isEmpty (Js.trim (title product)) then false
  else if Js.isEmpty (barcode product) || Js.isEmpty (Js.trim (barcode product)) then false
  else if Js.isNaN (price product) || Js.ltZero (price product) then false
  else if Js.isNaN (stock product) || Js.ltZero (stock product) then false
  else true.

Definition maxRetries : nat := 3.

Definition locationId : jsstring := Js.lit "gid://shopify/Location/105222275414".

(** [json.errors?.some((e) => e.message.includes("Throttled"))] *)
Definition throttled_errors (j : GraphQLResponse) : bool :=
  match errors j with
  | Some l => existsb (Js.includes (Js.lit "Throttled")) l
  | None => false
  end.

(** [response.status === 429 || json.errors?.some(...)] *)
Definition throttled (r : HttpResponse) (j : GraphQLResponse) : bool :=
  (status r =? 429)%N || throttled_errors j.

(** [!response.ok || json.errors]: an [errors] array, even empty, is truthy. *)
Definition failed (r : HttpResponse) (j : GraphQLResponse) : bool :=
  negb (ok r) || match errors j with Some _ => true | None => false end.

Section Shopify.
Context `{Env}.

Definition rate_limit_error : Exn :=
  Error (Js.lit "GraphQL request failed after max retries due to rate limiting").

(** [json.errors || response.statusText], stringified into the message. *)
Definition request_failed_error (r : HttpResponse) (j : GraphQLResponse) : Exn :=
  Error (Js.lit "GraphQL request failed: " ++
         JSON_stringify (match errors j with
                         | Some l => JErrors l
                         | None => JString (statusText r)
                         end)).

(** The [for (let retry = 0; retry <= maxRetries; retry++)] loop of
    [shopifyGraphQL] (shopify.ts:96), [n] iterations from [retry] on. *)
Fixpoint shopifyGraphQL_loop (n retry : nat) (query : GqlRequest)
  : M GraphQLResponse :=
  match n with
  | O => throw rate_limit_error
  | S n' =>
      response <- http_fetch retry (Graphql query) ;;
      j <- response_json response ;;
      if throttled response j then
        setTimeout (500 * N.of_nat (retry + 1)) ;;;
        shopifyGraphQL_loop n' (S retry) query
      else if failed response j then
        throw (request_failed_error response j)
      else ret j
  end.

Definition shopifyGraphQL (query : GqlRequest) : M GraphQLResponse :=
  shopifyGraphQL_loop (maxRetries + 1) 0 query.

End Shopify.

(** The slices [l.slice(i, i + batchSize)] for [i = 0, batchSize, ...]
    while [i < l.length]; [k] bounds the number of iterations. *)
Fixpoint slices_from {A : Type} (k batchSize : nat) (l : list A) : list (list A) :=
  match k with
  | O => []
  | S k' =>
      match l with
      | [] => []
      | _ :: _ => take batchSize l :: slices_from k' batchSize (drop batchSize l)
      end
  end.

Definition slices {A : Type} (batchSize : nat) (l : list A) : list (list A) :=
  slices_from (length l) batchSize l.

(** The value a property was read from: [undefined] or [null]. *)
Inductive Missing := Undefined | Null.

(** The exception raised by reading [property] from [undefined] or from
    [null], worded as Node's engine words it. *)
Definition shape_error (value : Missing) (property : jsstring) : Exn :=
  TypeError (Js.lit "Cannot read properties of " ++
             match value with
             | Undefined => Js.lit "undefined"
             | Null => Js.lit "null"
             end ++
             Js.lit " (reading '" ++ property ++ Js.lit "')").

(** [`update${index}`], [`create${index}`], [`delete${index}`] *)
Definition alias_name (key : Alias) : jsstring :=
  match key with
  | update index => Js.lit "update" ++ Js.ofNat index
  | create index => Js.lit "create" ++ Js.ofNat index
  | delete index => Js.lit "delete" ++ Js.ofNat index
  end.

(** Body of the [for (const edge of products)] loop of
    [fetchExistingProducts] (shopify.ts:162). *)
Definition index_edge (existingProducts : gmap jsstring RemoteRef)
    (edge : ProductNode) : gmap jsstring RemoteRef :=
  match node_variants edge with
  | v :: _ =>
      match variant_barcode v with
      | Some b =>
          if Js.isEmpty b then existingProducts
          else <[b := mkRef (node_id edge) (variant_inventoryItem v)]> existingProducts
      | None => existingProducts
      end
  | [] => existingProducts
  end.

(** [x || "Unknown"] *)
Definition or_default (x dflt : jsstring) : jsstring :=
  if Js.isEmpty x then dflt else x.

(** The [input] object of [createOrUpdateProductBatch] (shopify.ts:194). *)
Definition build_input (product : ProductData) : ProductInput :=
  {| input_title := sanitizeString (title product);
     input_descriptionHtml := sanitizeString (description product);
     input_vendor := or_default (brand product) (Js.lit "Unknown");
     input_productType := or_default (category product) (Js.lit "Unknown");
     input_tags := if Js.isEmpty (subcategory product) then []
                   else [subcategory product];
     input_barcode := barcode product;
     input_price := price product |}.

(** One step of [products.forEach((product, index) => ...)]
    (shopify.ts:193): the sub-operation pushed to [mutations]. *)
Definition build_op (existingProducts : gmap jsstring RemoteRef)
    (index : nat) (product : ProductData) : ProductOp :=
  match existingProducts !! barcode product with
  | Some existingProduct => productUpdate index (id existingProduct) (build_input product)
  | None => productCreate index (build_input product)
  end.

(** The same loop's writes to [variables]: [inventoryItemId${index}] of
    every product found in the index. *)
Fixpoint build_variables (existingProducts : gmap jsstring RemoteRef)
    (index : nat) (products : list ProductData)
    (variables : gmap nat jsstring) : gmap nat jsstring :=
  match products with
  | [] => variables
  | product :: rest =>
      build_variables existingProducts (S index) rest
        match existingProducts !! barcode product with
        | Some existingProduct => <[index := inventoryItemId existingProduct]> variables
        | None => variables
        end
  end.

(** An element of [inventoryAdjustments]. *)
Record Adjustment := mkAdjustment {
  adj_inventoryItemId : option jsstring;
  availableDelta : option Z
}.

Definition to_change (adj : Adjustment) : Change :=
  mkChange (adj_inventoryItemId adj) (availableDelta adj) locationId.

(** [existingProducts.has(barcode) ? a : b] *)
Definition update_or_create {A : Type} (existingProducts : gmap jsstring RemoteRef)
    (key : jsstring) (a b : A) : A :=
  match existingProducts !! key with Some _ => a | None => b end.

Section Reconciler.
Context `{Env}.

(** [result.data.products.edges] *)
Definition expect_products (result : GraphQLResponse)
  : M (list ProductNode * bool * option jsstring) :=
  match data result with
  | HasData (ProductQueryResponse edges hasNextPage endCursor) =>
      ret (edges, hasNextPage, endCursor)
  | HasData _ => throw (shape_error Undefined (Js.lit "edges"))
  | NoData => throw (shape_error Undefined (Js.lit "products"))
  | NullData => throw (shape_error Null (Js.lit "products"))
  end.

(** [result.data[key]] followed by [.userErrors]. *)
Definition expect_result (result : GraphQLResponse) (key : Alias)
  : M MutationResult :=
  match data result with
  | HasData (ProductMutationResponse results) =>
      match list_find (fun kv => kv.1 = key) results with
      | Some (_, (_, r)) => ret r
      | None => throw (shape_error Undefined (Js.lit "userErrors"))
      end
  | HasData _ => throw (shape_error Undefined (Js.lit "userErrors"))
  | NoData => throw (shape_error Undefined (alias_name key))
  | NullData => throw (shape_error Null (alias_name key))
  end.

(** [inventoryResult.data.inventoryAdjustQuantities.userErrors] *)
Definition expect_inventory (result : GraphQLResponse) : M (list UserError) :=
  match data result with
  | HasData (InventoryMutationResponse errs) => ret errs
  | HasData _ => throw (shape_error Undefined (Js.lit "userErrors"))
  | NoData => throw (shape_error Undefined (Js.lit "inventoryAdjustQuantities"))
  | NullData => throw (shape_error Null (Js.lit "inventoryAdjustQuantities"))
  end.

(** The [while (hasNextPage)] loop of [fetchExistingProducts]
    (shopify.ts:156) for one batch of codes; [fuel] bounds the number of
    pages followed. *)
Fixpoint fetch_pages (fuel : nat) (batch : list jsstring)
    (endCursor : option jsstring)
    (existingProducts : gmap jsstring RemoteRef)
  : M (gmap jsstring RemoteRef) :=
  match fuel with
  | O => diverge
  | S fuel' =>
      result <- shopifyGraphQL (ProductsQuery batch endCursor) ;;
      page <- expect_products result ;;
      let '(products, hasNextPage, endCursor') := page in
      let existingProducts' := fold_left index_edge products existingProducts in
      if hasNextPage then fetch_pages fuel' batch endCursor' existingProducts'
      else ret existingProducts'
  end.

Fixpoint fetch_batches (fuel : nat) (batches : list (list jsstring))
    (existingProducts : gmap jsstring RemoteRef)
  : M (gmap jsstring RemoteRef) :=
  match batches with
  | [] => ret existingProducts
  | batch :: rest =>
      existingProducts' <- fetch_pages fuel batch None existingProducts ;;
      fetch_batches fuel rest existingProducts'
  end.

(** [fetchExistingProducts] (shopify.ts:121). *)
Definition fetchExistingProducts (fuel : nat) (codes : list jsstring)
  : M (gmap jsstring RemoteRef) :=
  fetch_batches fuel (slices 250 codes) ∅.

(** The best-effort image upload (shopify.ts:283). *)
Definition upload_image (product : ProductData) (productId src : jsstring)
  : M unit :=
  try_catch
    (uploadResponse <- http_fetch 0 (ImageUpload (Js.lastSegment 47 productId) src) ;;
     if negb (ok uploadResponse) then
       throw (Error (Js.lit "Failed to upload image: " ++ text uploadResponse))
     else ret tt)
    (fun err =>
       push_failed (Js.lit "Image upload failed for " ++ title product ++
                    Js.lit ": " ++ String_of_exn err)).

(** Body of the result loop of [createOrUpdateProductBatch]
    (shopify.ts:269) for the product at [index]; returns [variables]. *)
Definition inspect_result (result : GraphQLResponse)
    (existingProducts : gmap jsstring RemoteRef)
    (index : nat) (product : ProductData) (variables : gmap nat jsstring)
  : M (gmap nat jsstring) :=
  let key := update_or_create existingProducts (barcode product)
               (update index) (create index) in
  mutationResult <- expect_result result key ;;
  match userErrors mutationResult with
  | _ :: _ =>
      push_failed
        (Js.lit "Failed to " ++
         update_or_create existingProducts (barcode product)
           (Js.lit "update") (Js.lit "create") ++
         Js.lit " product " ++ title product ++ Js.lit ": " ++
         JSON_stringify (JUserErrors (userErrors mutationResult))) ;;;
      ret variables
  | [] =>
      match result_product mutationResult with
      | Some (productId, inventoryItem :: _) =>
          let variables' := <[index := inventoryItem]> variables in
          let productImageUrl := Js.trim (image_url product) in
          (if negb (Js.isEmpty productImageUrl) &&
              update_or_create existingProducts (barcode product) false true
           then upload_image product productId productImageUrl
           else ret tt) ;;;
          ret variables'
      | Some (_, []) => throw (shape_error Undefined (Js.lit "node"))
      | None => throw (shape_error Null (Js.lit "variants"))
      end
  end.

Fixpoint inspect_results (result : GraphQLResponse)
    (existingProducts : gmap jsstring RemoteRef)
    (index : nat) (products : list ProductData)
    (variables : gmap nat jsstring) : M (gmap nat jsstring) :=
  match products with
  | [] => ret variables
  | product :: rest =>
      variables' <- inspect_result result existingProducts index product variables ;;
      inspect_results result existingProducts (S index) rest variables'
  end.

(** [products.forEach((product) => failedProducts.push(...))] *)
Fixpoint push_all (msgs : list jsstring) : M unit :=
  match msgs with
  | [] => ret tt
  | msg :: rest => push_failed msg ;;; push_all rest
  end.

(** [createOrUpdateProductBatch] (shopify.ts:184). *)
Definition createOrUpdateProductBatch (products : list ProductData)
    (existingProducts : gmap jsstring RemoteRef) : M unit :=
  let mutations := imap (build_op existingProducts) products in
  let variables := build_variables existingProducts 0 products ∅ in
  match mutations with
  | [] => ret tt
  | _ :: _ =>
      result <- shopifyGraphQL (ProductsMutation mutations variables) ;;
      variables' <- inspect_results result existingProducts 0 products variables ;;
      let inventoryAdjustments :=
        imap (fun index product =>
                mkAdjustment (variables' !! index) (Js.floorJson (stock product)))
             products in
      inventoryResult <-
        shopifyGraphQL (InventoryAdjust (List.map to_change inventoryAdjustments)) ;;
      errs <- expect_inventory inventoryResult ;;
      match errs with
      | _ :: _ =>
          push_all
            (List.map (fun product =>
                         Js.lit "Failed to update inventory for " ++ title product ++
                         Js.lit ": " ++ JSON_stringify (JUserErrors errs))
                      products)
      | [] => ret tt
      end
  end.

End Reconciler.

(** The ledger entry of a delisted product missing from the index. *)
Definition not_found_msg (product : EpuisesData) : jsstring :=
  Js.lit "Epuises product not found: " ++ epuises_code product.

(** The ledger entry of a rejected incoming product (shopify.ts:475). *)
Definition validation_msg (product : ProductData) : jsstring :=
  Js.lit "Validation failed for " ++ title product.

Definition batchSize : nat := 50.

(** [ceil (n / batchSize)], the exact ceiling of the quotient. *)
Definition batch_count (n : nat) : Z :=
  Qceiling (inject_Z (Z.of_nat n) / inject_Z (Z.of_nat batchSize))%Q.

(** [(80 / Math.ceil(nouveautes.length / batchSize)) * validBatch.length],
    in the arithmetic of JavaScript numbers. *)
Definition batch_increment (total valid : nat) : spec_float :=
  Js.mul
    (Js.div (Js.num 80)
       (Js.ceil (Js.div (Js.num (Z.of_nat total)) (Js.num (Z.of_nat batchSize)))))
    (Js.num (Z.of_nat valid)).

Section Sync.
Context `{Env}.

(** The [epuises.forEach] of [setEpuisesStock] (shopify.ts:356). *)
Fixpoint prepare_stock (existingProducts : gmap jsstring RemoteRef)
    (epuises : list EpuisesData) (inventoryAdjustments : list Adjustment)
  : M (list Adjustment) :=
  match epuises with
  | [] => ret inventoryAdjustments
  | product :: rest =>
      match existingProducts !! epuises_code product with
      | Some existingProduct =>
          prepare_stock existingProducts rest
            (inventoryAdjustments ++
             [mkAdjustment (Some (inventoryItemId existingProduct)) (Some 0%Z)])
      | None =>
          push_failed (not_found_msg product) ;;;
          prepare_stock existingProducts rest inventoryAdjustments
      end
  end.

(** [setEpuisesStock] (shopify.ts:347). *)
Definition setEpuisesStock (epuises : list EpuisesData)
    (existingProducts : gmap jsstring RemoteRef) : M unit :=
  inventoryAdjustments <- prepare_stock existingProducts epuises [] ;;
  match inventoryAdjustments with
  | [] => ret tt
  | _ :: _ =>
      inventoryResult <-
        shopifyGraphQL (InventoryAdjust (List.map to_change inventoryAdjustments)) ;;
      errs <- expect_inventory inventoryResult ;;
      match errs with
      | _ :: _ =>
          push_all
            (List.map (fun product =>
                         Js.lit "Failed to update Epuises inventory for " ++
                         epuises_code product ++ Js.lit ": " ++
                         JSON_stringify (JUserErrors errs))
                      epuises)
      | [] => ret tt
      end
  end.

(** The first [epuises.forEach] of [deleteEpuisesProducts]
    (shopify.ts:417). *)
Fixpoint prepare_delete (existingProducts : gmap jsstring RemoteRef)
    (index : nat) (epuises : list EpuisesData) (mutations : list (nat * jsstring))
  : M (list (nat * jsstring)) :=
  match epuises with
  | [] => ret mutations
  | product :: rest =>
      match existingProducts !! epuises_code product with
      | Some existingProduct =>
          prepare_delete existingProducts (S index) rest
            (mutations ++ [(index, id existingProduct)])
      | None =>
          push_failed (not_found_msg product) ;;;
          prepare_delete existingProducts (S index) rest mutations
      end
  end.

(** The second [epuises.forEach] of [deleteEpuisesProducts]
    (shopify.ts:443). *)
Fixpoint inspect_deleted (result : GraphQLResponse)
    (existingProducts : gmap jsstring RemoteRef)
    (index : nat) (epuises : list EpuisesData) : M unit :=
  match epuises with
  | [] => ret tt
  | product :: rest =>
      match existingProducts !! epuises_code product with
      | Some _ =>
          mutationResult <- expect_result result (delete index) ;;
          match userErrors mutationResult with
          | _ :: _ =>
              push_failed (Js.lit "Failed to delete product " ++
                           epuises_code product ++ Js.lit ": " ++
                           JSON_stringify (JUserErrors (userErrors mutationResult)))
          | [] => ret tt
          end
      | None => ret tt
      end ;;;
      inspect_deleted result existingProducts (S index) rest
  end.

(** [deleteEpuisesProducts] (shopify.ts:408). *)
Definition deleteEpuisesProducts (epuises : list EpuisesData)
    (existingProducts : gmap jsstring RemoteRef) : M unit :=
  mutations <- prepare_delete existingProducts 0 epuises [] ;;
  match mutations with
  | [] => ret tt
  | _ :: _ =>
      result <- shopifyGraphQL (DeleteMutation mutations) ;;
      inspect_deleted result existingProducts 0 epuises
  end.

(** [batch.filter((product) => ...)] with its pushes (shopify.ts:473). *)
Fixpoint filter_valid (batch : list ProductData) : M (list ProductData) :=
  match batch with
  | [] => ret []
  | product :: rest =>
      keep <- (if negb (validateProduct product) then
                 push_failed (validation_msg product) ;;; ret false
               else ret true) ;;
      rest' <- filter_valid rest ;;
      ret (if keep : bool then product :: rest' else rest')
  end.

(** The [for] loop over the slices of [nouveautes] (shopify.ts:471). *)
Fixpoint sync_batches (total : nat) (batches : list (list ProductData))
    (existingProducts : gmap jsstring RemoteRef)
    (progressCallback : spec_float -> M unit) : M unit :=
  match batches with
  | [] => ret tt
  | batch :: rest =>
      validBatch <- filter_valid batch ;;
      createOrUpdateProductBatch validBatch existingProducts ;;;
      progressCallback (batch_increment total (length validBatch)) ;;;
      sync_batches total rest existingProducts progressCallback
  end.

(** [[...nouveautes, ...epuises].map((p) => p.code)] *)
Definition allCodes (nouveautes : list ProductData) (epuises : list EpuisesData)
  : list jsstring :=
  List.map code nouveautes ++ List.map epuises_code epuises.

(** The name of the variable read at shopify.ts:487:
    [SHOPIFY_DELETE_EPUIS], the letter U+00C9, [S]. *)
Definition delete_variable : jsstring :=
  Js.lit "SHOPIFY_DELETE_EPUIS" ++ [201%N] ++ Js.lit "S".

(** [process.env.SHOPIFY_DELETE_EPUISÉS === "true"] for the environment
    [env] of the process. *)
Definition shouldDeleteEpuises_of (env : gmap jsstring jsstring) : bool :=
  bool_decide (env !! delete_variable = Some (Js.lit "true")).

(** [syncProductsWithShopify] (shopify.ts:457); [shouldDeleteEpuises] is
    the value of [process.env.SHOPIFY_DELETE_EPUISÉS === "true"]. *)
Definition syncProductsWithShopify (fuel : nat) (shouldDeleteEpuises : bool)
    (nouveautes : list ProductData) (epuises : list EpuisesData)
    (progressCallback : spec_float -> M unit) : M unit :=
  new_failedProducts ;;;
  existingProducts <- fetchExistingProducts fuel (allCodes nouveautes epuises) ;;
  progressCallback (Js.num 10) ;;;
  sync_batches (length nouveautes) (slices batchSize nouveautes)
    existingProducts progressCallback ;;;
  (if shouldDeleteEpuises
   then deleteEpuisesProducts epuises existingProducts
   else setEpuisesStock epuises existingProducts) ;;;
  progressCallback (Js.num 10) ;;;
  ret tt.

End Sync.

(* ===================================================================== *)
(** * routes/app._index.tsx *)
(* ===================================================================== *)

(** What [await authenticate.admin(request)] does: it throws, or it
    resolves to an object whose [session] is truthy or not. *)
Inductive Authentication :=
| AuthThrows (thrown : Exn)
| AuthSession (session : bool).

(** The [Response] that [redirect(url)] builds, as a thrown value: its
    name is the class of the object, its message the [Location]. *)
Definition redirect (url : jsstring) : Exn := mkExn (Js.lit "Response") url.

(** What the collaborators of [action] hand to it: the outcome of the
    authentication; [discovery], the exception of the file lookup, if
    any; each feed, as the parsed records or the exception its parser
    throws. *)
Record Feeds := mkFeeds {
  authentication : Authentication;
  discovery : option Exn;
  nouveautesCSV : Exn + list ProductData;
  epuisesCSV : Exn + list EpuisesData
}.

(** The object given to [json(...)] and the HTTP status of the reply. *)
Record ActionResult := mkResult {
  result_progress : spec_float;
  success : bool;
  result_message : jsstring;
  result_failedProducts : list jsstring;
  http_status : N
}.

Section Action.
Context `{Env}.

Definition get_progress : M spec_float := fun s => (Ok (progress s), s).

(** [let progress = 0] *)
Definition new_progress : M unit :=
  fun s => (Ok tt, mkSt (world s) (failedProducts s) (trace s) (Js.num 0)).

(** [updateProgress] (app._index.tsx:131):
    [progress = Math.min(progress + increment, 100)]. *)
Definition updateProgress (increment : spec_float) : M spec_float :=
  fun s =>
    let p := Js.min (Js.add (progress s) increment) (Js.num 100) in
    (Ok p, mkSt (world s) (failedProducts s)
                (trace s ++ [Progress increment p]) p).

(** [updateProgress] as the [progressCallback] argument: its result is
    dropped. *)
Definition progressCallback (increment : spec_float) : M unit :=
  updateProgress increment ;;; ret tt.

Definition of_sum {A} (x : Exn + A) : M A :=
  match x with
  | inl e => throw e
  | inr a => ret a
  end.

(** The [try] block of [action] (app._index.tsx:136). *)
Definition action_try (fuel : nat) (shouldDeleteEpuises : bool) (feeds : Feeds)
  : M ActionResult :=
  match discovery feeds with Some e => throw e | None => ret tt end ;;;
  updateProgress (Js.num 20) ;;;
  nouveautes <- of_sum (nouveautesCSV feeds) ;;
  let validNouveautes :=
    List.filter (fun p => negb (Js.isEmpty (code p)) && negb (Js.isEmpty (title p)))
      nouveautes in
  updateProgress (Js.num 20) ;;;
  epuises <- of_sum (epuisesCSV feeds) ;;
  let validEpuises :=
    List.filter (fun p => negb (Js.isEmpty (epuises_code p))) epuises in
  updateProgress (Js.num 10) ;;;
  let failedProducts : list jsstring := [] in
  syncProductsWithShopify fuel shouldDeleteEpuises validNouveautes validEpuises
    progressCallback ;;;
  p <- get_progress ;;
  updateProgress (Js.sub (Js.num 100) p) ;;;
  let resultMessage :=
    Js.lit "Successfully synced " ++ Js.ofNat (length validNouveautes) ++
    Js.lit " Nouveautes and " ++ Js.ofNat (length validEpuises) ++
    Js.lit " Epuises products" ++
    match failedProducts with
    | _ :: _ => Js.lit " with " ++ Js.ofNat (length failedProducts) ++ Js.lit " failures"
    | [] => []
    end in
  p' <- get_progress ;;
  ret (mkResult p' (Nat.eqb (length failedProducts) 0)
         resultMessage failedProducts 200).

(** [action] (app._index.tsx:123): the authentication and the redirect
    come before the [try] block. *)
Definition action (fuel : nat) (shouldDeleteEpuises : bool) (feeds : Feeds)
  : M ActionResult :=
  match authentication feeds with
  | AuthThrows thrown => throw thrown
  | AuthSession false => throw (redirect (Js.lit "/auth/login"))
  | AuthSession true =>
      new_progress ;;;
      try_catch (action_try fuel shouldDeleteEpuises feeds)
        (fun error =>
           p <- get_progress ;;
           ret (mkResult p false
                  (Js.lit "Failed to sync products: " ++ emessage error) [] 500))
  end.

Definition init (w : World) : St := mkSt w [] [] (Js.num 0).

End Action.

(* ===================================================================== *)
(** * Concrete environments *)
(* ===================================================================== *)

(** A rendering for [JSON.stringify] without escape sequences: exact on
    texts free of quotes, backslashes and control characters. *)
Module Json.

Definition quote (s : jsstring) : jsstring := [34%N] ++ s ++ [34%N].

Fixpoint join (sep : jsstring) (l : list jsstring) : jsstring :=
  match l with
  | [] => []
  | [x] => x
  | x :: rest => x ++ sep ++ join sep rest
  end.

Definition array (l : list jsstring) : jsstring :=
  Js.lit "[" ++ join (Js.lit ",") l ++ Js.lit "]".

Definition userError (e : UserError) : jsstring :=
  Js.lit "{" ++ quote (Js.lit "field") ++ Js.lit ":" ++ quote (field e) ++
  Js.lit "," ++ quote (Js.lit "message") ++ Js.lit ":" ++ quote (message e) ++
  Js.lit "}".

Definition error (m : jsstring) : jsstring :=
  Js.lit "{" ++ quote (Js.lit "message") ++ Js.lit ":" ++ quote m ++ Js.lit "}".

Definition stringify (a : JsonArg) : jsstring :=
  match a with
  | JUserErrors l => array (List.map userError l)
  | JErrors l => array (List.map error l)
  | JString s => quote s
  end.

End Json.

(** A remote that replays a fixed script of replies, one per [fetch], and
    rejects once the script is exhausted. *)
Module Scripted.

Definition respond (req : HttpRequest) (w : list FetchResult)
  : FetchResult * list FetchResult :=
  match w with
  | r :: w' => (r, w')
  | [] => (Rejected (TypeError (Js.lit "fetch failed")), [])
  end.

Definition env : Env :=
  {| World := list FetchResult; fetch := respond; JSON_stringify := Json.stringify |}.

(** A [200] reply carrying [d]. *)
Definition reply (d : Data) : FetchResult :=
  Resolved (mkResponse 200 (Js.lit "OK") (inr (mkGraphQL (HasData d) None)) []).

(** A reply refused for throttling, as a GraphQL error payload. *)
Definition throttledReply : FetchResult :=
  Resolved (mkResponse 200 (Js.lit "OK")
              (inr (mkGraphQL NoData (Some [Js.lit "Throttled"]))) []).



(** A [500] reply. *)
Definition serverError : FetchResult :=
  Resolved (mkResponse 500 (Js.lit "Internal Server Error")
              (inr (mkGraphQL NoData None)) []).

Definition emptyPage : FetchResult := reply (ProductQueryResponse [] false None).

Definition inventoryOk : FetchResult := reply (InventoryMutationResponse []).

End Scripted.

(** A reference remote catalog that stores what it is sent: a query returns
    the products whose barcode is one of the keys, on a single page; a
    create stores a new product under a fresh id; an update overwrites the
    title of the product with that id; an inventory adjustment adds its
    delta to the stock of the inventory item. *)
Module Shop.

Record Product := mkItem {
  pid : jsstring;
  pbarcode : jsstring;
  pitem : jsstring;
  ptitle : jsstring;
  pstock : Z
}.

Record t := mk { catalog : list Product; next : nat }.

Definition empty : t := mk [] 1.

Definition node (p : Product) : ProductNode :=
  mkNode (pid p) [mkVariant (Some (pbarcode p)) (pitem p)].

Definition matches (keys : list jsstring) (p : Product) : bool :=
  bool_decide (pbarcode p ∈ keys).

Definition accepted (p : Product) : MutationResult :=
  mkMutationResult (Some (pid p, [pitem p])) [].

Definition missing : MutationResult :=
  mkMutationResult None [mkUserError (Js.lit "id") (Js.lit "Product does not exist")].

Definition apply_op (acc : t * list (Alias * MutationResult)) (op : ProductOp)
  : t * list (Alias * MutationResult) :=
  let '(shop, results) := acc in
  match op with
  | productCreate index input =>
      let p := mkItem (Js.lit "gid://shopify/Product/" ++ Js.ofNat (next shop))
                 (input_barcode input)
                 (Js.lit "gid://shopify/InventoryItem/" ++ Js.ofNat (next shop))
                 (input_title input) 0 in
      (mk (catalog shop ++ [p]) (S (next shop)), results ++ [(create index, accepted p)])
  | productUpdate index target input =>
      match List.find (fun p => bool_decide (pid p = target)) (catalog shop) with
      | Some p =>
          (mk (List.map (fun q => if bool_decide (pid q = target)
                                  then mkItem (pid q) (pbarcode q) (pitem q)
                                         (input_title input) (pstock q)
                                  else q) (catalog shop))
              (next shop),
           results ++ [(update index, accepted p)])
      | None => (shop, results ++ [(update index, missing)])
      end
  end.

Definition adjust (shop : t) (c : Change) : t :=
  match change_inventoryItemId c, change_delta c with
  | Some item, Some d =>
      mk (List.map (fun q => if bool_decide (pitem q = item)
                             then mkItem (pid q) (pbarcode q) (pitem q)
                                    (ptitle q) (pstock q + d)
                             else q) (catalog shop))
         (next shop)
  | _, _ => shop
  end.

Definition remove (acc : t * list (Alias * MutationResult)) (op : nat * jsstring)
  : t * list (Alias * MutationResult) :=
  let '(shop, results) := acc in
  (mk (List.filter (fun q => negb (bool_decide (pid q = op.2))) (catalog shop)) (next shop),
   results ++ [(delete op.1, mkMutationResult None [])]).

Definition respond (req : HttpRequest) (shop : t) : FetchResult * t :=
  match req with
  | Graphql (ProductsQuery keys _) =>
      (Scripted.reply
         (ProductQueryResponse
            (List.map node (List.filter (matches keys) (catalog shop))) false None),
       shop)
  | Graphql (ProductsMutation ops _) =>
      let '(shop', results) := fold_left apply_op ops (shop, []) in
      (Scripted.reply (ProductMutationResponse results), shop')
  | Graphql (InventoryAdjust changes) =>
      (Scripted.inventoryOk, fold_left adjust changes shop)
  | Graphql (DeleteMutation ops) =>
      let '(shop', results) := fold_left remove ops (shop, []) in
      (Scripted.reply (ProductMutationResponse results), shop')
  | ImageUpload _ _ =>
      (Resolved (mkResponse 200 (Js.lit "OK") (inl (Error [])) []), shop)
  end.

Definition env : Env :=
  {| World := t; fetch := respond; JSON_stringify := Json.stringify |}.

End Shop.

(* ===================================================================== *)
(** * Inputs of the scenarios *)
(* ===================================================================== *)

Module Scenario.

(** The row [001;Widget;desc;BrandX;Cat;Sub;1234567890123;19.99;10;BEC1;]
    with the price rounded to [20] and no image. *)
Definition widget : ProductData :=
  mkProduct (Js.lit "001") (Js.lit "Widget") (Js.lit "desc") (Js.lit "BrandX")
    (Js.lit "Cat") (Js.lit "Sub") (Js.lit "1234567890123")
    (Js.ofZ 20) (Js.ofZ 10) (Js.lit "BEC1") [].

(** A second valid product. *)
Definition gadget : ProductData :=
  mkProduct (Js.lit "002") (Js.lit "Gadget") (Js.lit "desc") (Js.lit "BrandX")
    (Js.lit "Cat") (Js.lit "Sub") (Js.lit "2234567890123")
    (Js.ofZ 5) (Js.ofZ 3) (Js.lit "BEC2") [].

(** [widget] without a barcode: rejected by validation. *)
Definition nobarcode : ProductData :=
  mkProduct (Js.lit "001") (Js.lit "Widget") (Js.lit "desc") (Js.lit "BrandX")
    (Js.lit "Cat") (Js.lit "Sub") [] (Js.ofZ 20) (Js.ofZ 10) (Js.lit "BEC1") [].

(** [widget] priced [Infinity]. *)
Definition priceless : ProductData :=
  mkProduct (Js.lit "001") (Js.lit "Widget") (Js.lit "desc") (Js.lit "BrandX")
    (Js.lit "Cat") (Js.lit "Sub") (Js.lit "1234567890123")
    (S754_infinity false) (Js.ofZ 10) (Js.lit "BEC1") [].

Definition rejection : MutationResult :=
  mkMutationResult None [mkUserError (Js.lit "title") (Js.lit "is invalid")].

Definition created : MutationResult :=
  mkMutationResult (Some (Js.lit "gid://shopify/Product/7",
                          [Js.lit "gid://shopify/InventoryItem/7"])) [].

(** 51 incoming products of which only the first and the last are valid. *)
Definition sparse : list ProductData :=
  widget :: replicate 49 nobarcode ++ [gadget].

Definition feeds (nouveautes : list ProductData) (epuises : list EpuisesData) : Feeds :=
  mkFeeds (AuthSession true) None (inr nouveautes) (inr epuises).

(** A product whose code is its barcode. *)
Definition keyed : ProductData :=
  mkProduct (Js.lit "1234567890123") (Js.lit "Widget") (Js.lit "desc") (Js.lit "BrandX")
    (Js.lit "Cat") (Js.lit "Sub") (Js.lit "1234567890123")
    (Js.ofZ 20) (Js.ofZ 10) (Js.lit "BEC1") [].

(** A remote catalog that already holds [widget]. *)
Definition stocked : Shop.t :=
  Shop.mk [Shop.mkItem (Js.lit "gid://shopify/Product/1") (barcode widget)
             (Js.lit "gid://shopify/InventoryItem/1") (title widget) 10] 2.

(** The remote rejects the only sub-operation of a batch, then accepts
    the inventory adjustment. *)
Definition rejecting : list FetchResult :=
  [Scripted.reply (ProductMutationResponse [(create 0, rejection)]);
   Scripted.inventoryOk].

(** The same, the inventory adjustment being refused too. *)
Definition rejecting_twice : list FetchResult :=
  [Scripted.reply (ProductMutationResponse [(create 0, rejection)]);
   Scripted.reply (InventoryMutationResponse
                     [mkUserError (Js.lit "inventoryItemId") (Js.lit "is required")])].

End Scenario.

(* ===================================================================== *)
(** * Vocabulary of the specifications *)
(* ===================================================================== *)

Section Vocabulary.
Context `{Env}.

(** [s'] is [s] after more events, all of them [allowed], with the same
    progress counter (the remote and the ledger are free to change). *)
Definition extends (allowed : Event -> Prop) (s s' : St) : Prop :=
  progress s' = progress s /\
  exists evs, trace s' = trace s ++ evs /\ Forall allowed evs.

Definition emits (allowed : Event -> Prop) {A} (m : M A) : Prop :=
  forall s, extends allowed s (m s).2.

Definition closed (allowed : Event -> Prop) (I : St -> Prop) : Prop :=
  forall s s', extends allowed s s' -> I s -> I s'.

(** [m] keeps the invariant [I], whatever its outcome. *)
Definition preserves (I : St -> Prop) {A} (m : M A) : Prop :=
  forall s, I s -> I (m s).2.

(** ** Rate-limited client *)

(** How [shopifyGraphQL] reads one reply. *)
Inductive Verdict :=
| Throttled
| Failure (e : Exn)
| Success (j : GraphQLResponse).

Definition verdict (r : FetchResult) : Verdict :=
  match r with
  | Rejected e => Failure e
  | Resolved response =>
      match json response with
      | inl e => Failure e
      | inr j =>
          if throttled response j then Throttled
          else if failed response j then Failure (request_failed_error response j)
          else Success j
      end
  end.






(** The replies of the remote to [k] successive fetches of [req]. *)
Fixpoint replies (k : nat) (req : HttpRequest) (w : World) : list FetchResult :=
  match k with
  | O => []
  | S k' => (fetch req w).1 :: replies k' req (fetch req w).2
  end.

Fixpoint world_after (k : nat) (req : HttpRequest) (w : World) : World :=
  match k with
  | O => w
  | S k' => world_after k' req (fetch req w).2
  end.

(** [base_delay × attempt_number] with [base_delay = 500]. *)
Definition delay (attempt : nat) : N := 500 * N.of_nat attempt.

(** [k] throttled attempts from retry index [retry] on: each fetch is
    followed by its wait. *)
Definition backoff (retry k : nat) (q : GqlRequest) : list Event :=
  flat_map (fun i => [Fetch i (Graphql q); Wait (delay (i + 1))]) (seq retry k).

(** The state after [k] throttled attempts of [q]. *)
Definition throttled_state (k : nat) (q : GqlRequest) (s : St) : St :=
  mkSt (world_after k (Graphql q) (world s)) (failedProducts s)
       (trace s ++ backoff 0 k q) (progress s).

(** The state after one more attempt, answered and not throttled. *)
Definition answered_state (k : nat) (q : GqlRequest) (s : St) : St :=
  mkSt (world_after (S k) (Graphql q) (world s)) (failedProducts s)
       (trace s ++ backoff 0 k q ++ [Fetch k (Graphql q)]) (progress s).

(** The events one call of [shopifyGraphQL q] may add after its first
    fetch: waits, and later attempts of the same request. *)
Definition retry_event (q : GqlRequest) (e : Event) : Prop :=
  (exists ms, e = Wait ms) \/
  (exists retry, retry <> 0 /\ e = Fetch retry (Graphql q)).

(** ** Delisted products *)

Definition zero_stock (existingProducts : gmap jsstring RemoteRef)
    (product : EpuisesData) : option Adjustment :=
  match existingProducts !! epuises_code product with
  | Some existingProduct =>
      Some (mkAdjustment (Some (inventoryItemId existingProduct)) (Some 0%Z))
  | None => None
  end.

Definition missing (existingProducts : gmap jsstring RemoteRef)
    (product : EpuisesData) : bool :=
  match existingProducts !! epuises_code product with
  | Some _ => false
  | None => true
  end.




(** ** Batches *)

(** The first attempt of a combined create-or-update mutation. *)
Definition is_mutation_call (e : Event) : bool :=
  match e with
  | Fetch O (Graphql (ProductsMutation _ _)) => true
  | _ => false
  end.

Definition mutation_calls (tr : list Event) : nat :=
  length (List.filter is_mutation_call tr).

(** The number of items of a combined mutation request, at any attempt. *)
Definition mutation_size (e : Event) : option nat :=
  match e with
  | Fetch _ (Graphql (ProductsMutation ops _)) => Some (length ops)
  | _ => None
  end.

Definition has_valid (batch : list ProductData) : bool :=
  existsb validateProduct batch.

Definition is_create (op : ProductOp) : bool :=
  match op with
  | productCreate _ _ => true
  | productUpdate _ _ _ => false
  end.

(** The [productCreate] sub-operations a trace sent (first attempts). *)
Definition creates (tr : list Event) : nat :=
  length (List.filter is_create
            (flat_map (fun e => match e with
                                | Fetch O (Graphql (ProductsMutation ops _)) => ops
                                | _ => []
                                end) tr)).

(** The changes of the inventory adjustments a trace sent. *)
Definition adjustments_sent (tr : list Event) : list (list Change) :=
  omap (fun e => match e with
                 | Fetch O (Graphql (InventoryAdjust changes)) => Some changes
                 | _ => None
                 end) tr.

(** Events that are neither a progress update nor an attempt of a
    combined create-or-update mutation. *)
Definition other_event (e : Event) : Prop :=
  match e with
  | Progress _ _ => False
  | Fetch _ (Graphql (ProductsMutation _ _)) => False
  | _ => True
  end.

(** The events of the result loop of a batch: image uploads. *)
Definition upload_event (e : Event) : Prop :=
  match e with
  | Fetch _ (ImageUpload _ _) => True
  | _ => False
  end.

(** The events of a batch after its combined mutation was answered: image
    uploads, and the attempts of an inventory request of [n] changes. *)
Definition tail_event (n : nat) (e : Event) : Prop :=
  match e with
  | Wait _ | Fetch _ (ImageUpload _ _) => True
  | Fetch _ (Graphql (InventoryAdjust changes)) => length changes = n
  | _ => False
  end.

(** The events of one call of [createOrUpdateProductBatch] on [n]
    products: its mutation requests carry [n] items, its inventory
    requests [n] changes. *)
Definition batch_event (n : nat) (e : Event) : Prop :=
  match e with
  | Wait _ | Fetch _ (ImageUpload _ _) => True
  | Fetch _ (Graphql (ProductsMutation ops _)) => length ops = n
  | Fetch _ (Graphql (InventoryAdjust changes)) => length changes = n
  | _ => False
  end.

(** The events of the sync engine's own code: no progress update, and
    no mutation request of more than [batchSize] items. *)
Definition sync_event (e : Event) : Prop :=
  match e with
  | Progress _ _ => False
  | Fetch _ (Graphql (ProductsMutation ops _)) => length ops <= batchSize
  | _ => True
  end.

(** No mutation request of more than [batchSize] items. *)
Definition small_event (e : Event) : Prop :=
  match mutation_size e with
  | Some n => n <= batchSize
  | None => True
  end.

(** The events of [tr] that [s] had not yet. *)
Definition since (s : St) (tr : list Event) : list Event :=
  drop (length (trace s)) tr.

(** ** Progress *)

Definition progress_event (e : Event) : option (spec_float * spec_float) :=
  match e with
  | Progress increment total => Some (increment, total)
  | _ => None
  end.

(** The pairs (increment, new total) of the progress updates of a trace. *)
Definition progress_updates (tr : list Event) : list (spec_float * spec_float) :=
  omap progress_event tr.

(** The increments handed to the progress callback. *)
Definition increments (tr : list Event) : list spec_float :=
  List.map fst (progress_updates tr).

(** Each update from [previous] on clamps the sum at 100, does not
    decrease the counter and stays within 100; the sum and the
    comparisons are those of JavaScript numbers. *)
Fixpoint progress_ok (previous : spec_float)
    (updates : list (spec_float * spec_float)) : Prop :=
  match updates with
  | [] => True
  | (increment, total) :: rest =>
      total = Js.min (Js.add previous increment) (Js.num 100) /\
      Js.le previous total = true /\ Js.le total (Js.num 100) = true /\
      progress_ok total rest
  end.

Fixpoint last_total (previous : spec_float)
    (updates : list (spec_float * spec_float)) : spec_float :=
  match updates with
  | [] => previous
  | (_, total) :: rest => last_total total rest
  end.

(** A number of the format that is above zero. *)
Definition positive_number (x : spec_float) : Prop :=
  match x with
  | S754_finite false m e => canonical_mantissa Js.prec Js.emax m e = true
  | _ => False
  end.

(** The values the progress counter takes once it has left zero. *)
Definition counter (p : spec_float) : Prop :=
  positive_number p /\ Js.le p (Js.num 100) = true.

(** The counter from 50 on. *)
Definition second_half (p : spec_float) : Prop :=
  counter p /\ Js.le (Js.num 50) p = true.

(** The values of the progress counter. *)
Definition started (p : spec_float) : Prop :=
  p = Js.num 0 \/ counter p.

(** Invariant of a run started in [s]: the progress updates since then
    are in order from 0, and the counter is the last of them. *)
Definition progress_trace (s : St) (st : St) : Prop :=
  exists evs,
    trace st = trace s ++ evs /\
    progress_ok (Js.num 0) (progress_updates evs) /\
    progress st = last_total (Js.num 0) (progress_updates evs) /\
    started (progress st).

(** The same, once the counter has left zero. *)
Definition progress_counter (s : St) (st : St) : Prop :=
  progress_trace s st /\ counter (progress st).

(** Invariant of a run started in [s]: no large mutation request since. *)
Definition batches_trace (s : St) (st : St) : Prop :=
  exists evs, trace st = trace s ++ evs /\ Forall small_event evs.

End Vocabulary.

(** ** Validation, as specified and as coded *)

(** A finite number [>= 0]. *)
Definition finite_nonneg (x : spec_float) : Prop :=
  match x with
  | S754_zero _ | S754_finite false _ _ => True
  | _ => False
  end.

(** A number that is neither [NaN] nor below zero: finite and [>= 0], or
    [+Infinity]. *)
Definition not_negative (x : spec_float) : Prop :=
  match x with
  | S754_zero _ | S754_finite false _ _ | S754_infinity false => True
  | _ => False
  end.

Definition nonempty_after_trim (s : jsstring) : Prop := Js.trim s <> [].

(** The acceptance rule of the claim. *)
Definition valid_as_specified (product : ProductData) : Prop :=
  nonempty_after_trim (title product) /\
  nonempty_after_trim (barcode product) /\
  finite_nonneg (price product) /\
  finite_nonneg (stock product).

(** The acceptance rule of the code. *)
Definition valid_as_coded (product : ProductData) : Prop :=
  nonempty_after_trim (title product) /\
  nonempty_after_trim (barcode product) /\
  not_negative (price product) /\
  not_negative (stock product).

(* ===================================================================== *)
(** * The feed parser's text functions ([csv]) *)
(* ===================================================================== *)

Module Csv.

(** The first [replace] of [sanitizeString]: drop every occurrence of the
    three code units U+00EF U+00BF U+00BD, scanning from the left. *)
Fixpoint remove_artifact (s : jsstring) : jsstring :=
  match s with
  | [] => []
  | a :: s' =>
      match s' with
      | b :: c :: rest =>
          if ((a =? 239) && (b =? 191) && (c =? 189))%N then remove_artifact rest
          else a :: remove_artifact s'
      | _ => a :: remove_artifact s'
      end
  end.

(** [/[^\x20-\x7E]/] does not match [c]. *)
Definition printable (c : N) : bool := ((32 <=? c) && (c <=? 126))%N.

(** [sanitizeString] of the parser: unlike the one of [shopify.ts] it does
    not truncate. *)
Definition sanitizeString (str : jsstring) : jsstring :=
  Js.trim (List.filter printable (remove_artifact str)).

(** [s.split(sep)] for a separator of one code unit. *)
Fixpoint split (sep : N) (s : jsstring) : list jsstring :=
  match s with
  | [] => [[]]
  | c :: s' =>
      if (c =? sep)%N then [] :: split sep s'
      else
        match split sep s' with
        | field :: fields => (c :: field) :: fields
        | [] => [[c]]
        end
  end.

(** [l.join(sep)] for a separator of one code unit. *)
Fixpoint join (sep : N) (l : list jsstring) : jsstring :=
  match l with
  | [] => []
  | [x] => x
  | x :: rest => x ++ sep :: join sep rest
  end.

(** [c] is neither the apostrophe nor the double quote, the two code
    units the field regex matches. *)
Definition not_quote (c : N) : bool := negb ((c =? 39) || (c =? 34))%N.

(** [preprocessCSV]: lines are cut at [\n], fields at [;], and the quotes
    removed from each field. *)
Definition preprocessCSV (content : jsstring) : jsstring :=
  join 10
    (List.map
       (fun line => join 59 (List.map (List.filter not_quote) (split 59 line)))
       (split 10 content)).

End Csv.

(* ===================================================================== *)
(** * [withRetry] ([ftp.ts]) *)
(* ===================================================================== *)

Section Ftp.
Context `{Env}.

Definition max_retries_error : Exn := Error (Js.lit "Max retries reached").

(** The [for (let attempt = 1; attempt <= maxRetries; attempt++)] loop of
    [withRetry] (ftp.ts:20), [n] iterations from [attempt] on. *)
Fixpoint withRetry_loop {A : Type} (operation : M A) (n attempt maxRetries : nat)
    (delayMs : N) : M A :=
  match n with
  | O => throw max_retries_error
  | S n' =>
      try_catch operation
        (fun error =>
           if Nat.eqb attempt maxRetries then throw error
           else
             setTimeout delayMs ;;;
             withRetry_loop operation n' (S attempt) maxRetries delayMs)
  end.

(** [withRetry] (ftp.ts:19). *)
Definition withRetry {A : Type} (operation : M A) (maxRetries : nat) (delayMs : N)
  : M A :=
  withRetry_loop operation maxRetries 1 maxRetries delayMs.

(** The state after [k] attempts of [operation] that all threw, each
    followed by its wait; [None] if one of them did not throw. *)
Fixpoint after_failures {A : Type} (operation : M A) (delayMs : N) (k : nat) (s : St)
  : option St :=
  match k with
  | O => Some s
  | S k' =>
      match operation s with
      | (Throw _, t) =>
          after_failures operation delayMs k'
            (mkSt (world t) (failedProducts t) (trace t ++ [Wait delayMs]) (progress t))
      | _ => None
      end
  end.

Definition is_throw {A : Type} (r : Res A) : bool :=
  match r with Throw _ => true | _ => false end.

End Ftp.

(* ===================================================================== *)
(** * [CustomMemorySessionStorage] ([shopify.server.ts]) *)
(* ===================================================================== *)

Section SessionStorage.

(** The [Session] of the platform library, of which the class reads [id]
    and [shop]. *)
Variable Session : Type.
Variable session_id : Session -> jsstring.
Variable session_shop : Session -> jsstring.

(** [Map.prototype.set]: the value of a present key is replaced where it
    stands, a new key goes last. *)
Fixpoint map_set (k : jsstring) (v : Session) (store : list (jsstring * Session))
  : list (jsstring * Session) :=
  match store with
  | [] => [(k, v)]
  | (k', v') :: rest =>
      if bool_decide (k' = k) then (k, v) :: rest
      else (k', v') :: map_set k v rest
  end.

(** [Map.prototype.get] *)
Fixpoint map_get (k : jsstring) (store : list (jsstring * Session)) : option Session :=
  match store with
  | [] => None
  | (k', v') :: rest => if bool_decide (k' = k) then Some v' else map_get k rest
  end.

(** [Map.prototype.delete] *)
Fixpoint map_delete (k : jsstring) (store : list (jsstring * Session))
  : list (jsstring * Session) :=
  match store with
  | [] => []
  | (k', v') :: rest =>
      if bool_decide (k' = k) then rest else (k', v') :: map_delete k rest
  end.

(** Each method returns its result and the store it leaves. *)
Definition storeSession (session : Session) (store : list (jsstring * Session))
  : bool * list (jsstring * Session) :=
  (true, map_set (session_id session) session store).

Definition loadSession (id : jsstring) (store : list (jsstring * Session))
  : option Session :=
  map_get id store.

Definition deleteSession (id : jsstring) (store : list (jsstring * Session))
  : bool * list (jsstring * Session) :=
  (true, map_delete id store).

Definition deleteSessions (ids : list jsstring) (store : list (jsstring * Session))
  : bool * list (jsstring * Session) :=
  (true, fold_left (fun st id => map_delete id st) ids store).

Definition findSessionsByShop (shop : jsstring) (store : list (jsstring * Session))
  : list Session :=
  List.filter (fun session => bool_decide (session_shop session = shop))
    (List.map snd store).

(** The stores the class can reach: keys are distinct, and a session is
    kept under its own id. *)
Definition store_ok (store : list (jsstring * Session)) : Prop :=
  NoDup (List.map fst store) /\
  Forall (fun kv => session_id kv.2 = kv.1) store.

End SessionStorage.

Section MoreVocabulary.
Context `{Env}.

(** ** The calls of the client *)

Definition is_fetch (e : Event) : bool :=
  match e with Fetch _ _ => true | _ => false end.

(** ** The delete policy *)

(** The sub-operation [delete${index}] of a delisted product found in
    the index. *)
Definition delete_op (existingProducts : gmap jsstring RemoteRef)
    (index : nat) (product : EpuisesData) : option (nat * jsstring) :=
  match existingProducts !! epuises_code product with
  | Some existingProduct => Some (index, id existingProduct)
  | None => None
  end.

(** The sub-operations for [epuises], numbered from [index] on. *)
Definition delete_ops (existingProducts : gmap jsstring RemoteRef)
    (index : nat) (epuises : list EpuisesData) : list (nat * jsstring) :=
  omap (fun x => x) (imap (fun i => delete_op existingProducts (index + i)) epuises).

(** ** The index query *)

(** The events of [fetchExistingProducts] for one batch of codes. *)
Definition page_event (batch : list jsstring) (e : Event) : Prop :=
  match e with
  | Wait _ => True
  | Fetch _ (Graphql (ProductsQuery keys _)) => keys = batch
  | _ => False
  end.

(** The events of [fetchExistingProducts codes]. *)
Definition query_event (codes : list jsstring) (e : Event) : Prop :=
  match e with
  | Wait _ => True
  | Fetch _ (Graphql (ProductsQuery keys _)) => keys ∈ slices 250 codes
  | _ => False
  end.

(** ** Image uploads *)

(** The image uploads of a batch: a single attempt, for a product of the
    batch that is not in the index, with its trimmed image URL, which is
    not empty. *)
Definition image_event (products : list ProductData)
    (existingProducts : gmap jsstring RemoteRef) (e : Event) : Prop :=
  match e with
  | Fetch retry (ImageUpload _ src) =>
      retry = 0 /\
      exists product,
        product ∈ products /\ existingProducts !! barcode product = None /\
        src = Js.trim (image_url product) /\ src <> []
  | _ => True
  end.

(** ** Reconciliation by barcode *)

(** A text of at most 255 code units, all printable ASCII. *)
Definition clean_text (s : jsstring) : Prop :=
  length s <= 255 /\ Forall (fun c => (32 <= c <= 126)%N) s.

(** The values interpolated for [product]: the title and the description
    as [sanitizeString] returns them, the brand and the category, or
    [Unknown] for an empty one, the subcategory as only tag unless it is
    empty, the barcode and the price as they are. *)
Definition input_for (product : ProductData) (input : ProductInput) : Prop :=
  input_title input = sanitizeString (title product) /\
  input_descriptionHtml input = sanitizeString (description product) /\
  input_vendor input =
    (if Js.isEmpty (brand product) then Js.lit "Unknown" else brand product) /\
  input_productType input =
    (if Js.isEmpty (category product) then Js.lit "Unknown" else category product) /\
  input_tags input =
    (if Js.isEmpty (subcategory product) then [] else [subcategory product]) /\
  input_barcode input = barcode product /\
  input_price input = price product.

(** The sub-operation of a batch for the product at its index: an update
    of the product the index holds under its barcode, or a creation when
    the index has no such key. *)
Definition op_for (existingProducts : gmap jsstring RemoteRef)
    (products : list ProductData) (op : ProductOp) : Prop :=
  match op with
  | productUpdate index target input =>
      exists product existingProduct,
        products !! index = Some product /\
        existingProducts !! barcode product = Some existingProduct /\
        target = id existingProduct /\ input_for product input
  | productCreate index input =>
      exists product,
        products !! index = Some product /\
        existingProducts !! barcode product = None /\
        input_for product input
  end.

Definition reconcile_event (existingProducts : gmap jsstring RemoteRef)
    (products : list ProductData) (e : Event) : Prop :=
  match e with
  | Fetch _ (Graphql (ProductsMutation ops _)) =>
      Forall (op_for existingProducts products) ops
  | _ => True
  end.

(** ** The zero-stock policy *)

Definition no_delete_event (e : Event) : Prop :=
  match e with
  | Fetch _ (Graphql (DeleteMutation _)) => False
  | _ => True
  end.

(** No product was deleted since [s]. *)
Definition no_delete_trace (s : St) (st : St) : Prop :=
  exists evs, trace st = trace s ++ evs /\ Forall no_delete_event evs.

End MoreVocabulary.

(** A store of two sessions of the same shop, keyed by their ids. *)
Definition two_sessions : list (jsstring * (jsstring * jsstring)) :=
  [(Js.lit "offline_a", (Js.lit "offline_a", Js.lit "cgn.myshopify.com"));
   (Js.lit "offline_b", (Js.lit "offline_b", Js.lit "cgn.myshopify.com"))].

(* ===================================================================== *)
(** * Validation *)
(* ===================================================================== *)

Lemma isEmpty_nil (s : list N) : Js.isEmpty s = true <-> s = [].
Proof. destruct s; simpl; split; congruence. Qed.

Lemma trim_nil : Js.trim [] = [].
Proof. reflexivity. Qed.

Lemma trimStart_nil (s : list N) :
  Js.trimStart s = [] <-> forallb Js.isWhiteSpace s = true.
Proof.
  induction s as [|c s IH]; [done|]. cbn.
  destruct (Js.isWhiteSpace c); [exact IH|]. split; discriminate.
Qed.

Lemma trimStart_head (s : list N) (c : N) (rest : list N) :
  Js.trimStart s = c :: rest -> Js.isWhiteSpace c = false.
Proof.
  induction s as [|d s IH]; [discriminate|]. cbn.
  destruct (Js.isWhiteSpace d) eqn:Hd; [exact IH|]. by intros [= <- _].
Qed.

(** A string is empty after trim exactly when all its code units are
    white space. *)
Lemma trim_blank (s : list N) :
  Js.trim s = [] <-> forallb Js.isWhiteSpace s = true.
Proof.
  rewrite <- trimStart_nil. unfold Js.trim, Js.trimEnd. split.
  - intros Hnil. apply (f_equal (@rev N)) in Hnil. rewrite rev_involutive in Hnil.
    cbn in Hnil. apply trimStart_nil in Hnil.
    destruct (Js.trimStart s) as [|c rest] eqn:Hs; [done|].
    apply trimStart_head in Hs.
    rewrite forallb_forall in Hnil. rewrite (Hnil c) in Hs; [discriminate|].
    apply in_rev. rewrite rev_involutive. by left.
  - by intros ->.
Qed.

Lemma empty_or_blank (s : list N) :
  Js.isEmpty s || Js.isEmpty (Js.trim s) = false <-> nonempty_after_trim s.
Proof.
  unfold nonempty_after_trim. destruct s as [|c s].
  - simpl. split; [discriminate | intros Hne; destruct Hne; reflexivity].
  - cbn [Js.isEmpty orb]. destruct (Js.trim (c :: s)); simpl; split; congruence.
Qed.

Lemma nan_or_negative (x : spec_float) :
  Js.isNaN x || Js.ltZero x = false <-> not_negative x.
Proof.
  destruct x as [s|s| |s m e]; try destruct s; cbv; split; (discriminate || tauto || reflexivity || auto).
Qed.

Lemma validateProduct_coded (product : ProductData) :
  validateProduct product = true <-> valid_as_coded product.
Proof.
  unfold validateProduct, valid_as_coded.
  rewrite <- !empty_or_blank, <- !nan_or_negative.
  destruct (Js.isEmpty (title product) || Js.isEmpty (Js.trim (title product)));
  destruct (Js.isEmpty (barcode product) || Js.isEmpty (Js.trim (barcode product)));
  destruct (Js.isNaN (price product) || Js.ltZero (price product));
  destruct (Js.isNaN (stock product) || Js.ltZero (stock product));
  intuition congruence.
Qed.

Section ValidationLedger.
Context `{Env}.

Lemma filter_valid_spec (batch : list ProductData) (s : St) :
  filter_valid batch s =
    (Ok (List.filter validateProduct batch),
     mkSt (world s)
       (failedProducts s ++
        List.map validation_msg (List.filter (fun p => negb (validateProduct p)) batch))
       (trace s) (progress s)).
Proof.
  revert s. induction batch as [|product rest IH]; intros s.
  - simpl. unfold ret. rewrite app_nil_r. by destruct s.
  - cbn [filter_valid List.filter]. unfold bind at 1.
    destruct (validateProduct product) eqn:Hv; cbn [negb].
    + unfold ret at 1. cbn beta iota. unfold bind at 1. rewrite IH. reflexivity.
    + unfold bind at 1. unfold push_failed at 1. cbn beta iota.
      unfold ret at 1. unfold bind at 1. rewrite IH. cbn.
      rewrite <- app_assoc. reflexivity.
Qed.

(** C5 (amended): [validateProduct] accepts a record exactly when its
    title and its barcode are non-empty after trim and its price and its
    stock are neither [NaN] nor below zero ([+Infinity] included); the
    filter of a batch keeps the accepted records and appends, for each
    rejected one, the single entry [Validation failed for <title>]. *)
Theorem validation_rule (product : ProductData) (batch : list ProductData) (s : St) :
  (validateProduct product = true <-> valid_as_coded product) /\
  filter_valid batch s =
    (Ok (List.filter validateProduct batch),
     mkSt (world s)
       (failedProducts s ++
        List.map validation_msg
          (List.filter (fun rejected => negb (validateProduct rejected)) batch))
       (trace s) (progress s)).
Proof. split; [apply validateProduct_coded|apply filter_valid_spec]. Qed.

End ValidationLedger.

(** C5 (counterexample): a record priced [Infinity] is accepted, and the
    entry of a record rejected for its barcode names its title, not the
    field. *)
Lemma validation_accepts_infinite_price :
  ~ (validateProduct Scenario.priceless = true <-> valid_as_specified Scenario.priceless) /\
  validateProduct Scenario.nobarcode = false /\
  validation_msg Scenario.nobarcode = Js.lit "Validation failed for Widget" /\
  Js.includes (Js.lit "barcode") (validation_msg Scenario.nobarcode) = false.
Proof.
  split; [|vm_compute; auto].
  intros [Hfwd _]. destruct (Hfwd eq_refl) as (_ & _ & Hprice & _). exact Hprice.
Qed.

(* ===================================================================== *)
(** * The rate-limited client *)
(* ===================================================================== *)

Section Client.
Context `{Env}.

Lemma verdict_throttled (r : FetchResult) :
  verdict r = Throttled ->
  exists response j,
    r = Resolved response /\ json response = inr j /\ throttled response j = true.
Proof.
  unfold verdict. destruct r as [e|response]; [discriminate|].
  destruct (json response) as [e|j] eqn:Hj; [discriminate|].
  destruct (throttled response j) eqn:Ht.
  - intros _. by exists response, j.
  - destruct (failed response j); discriminate.
Qed.







Lemma loop_throttled (q : GqlRequest) (k : nat) :
  forall (n retry : nat) (s : St),
    Forall (fun r => verdict r = Throttled) (replies k (Graphql q) (world s)) ->
    shopifyGraphQL_loop (k + n) retry q s =
    shopifyGraphQL_loop n (retry + k) q
      (mkSt (world_after k (Graphql q) (world s)) (failedProducts s)
            (trace s ++ backoff retry k q) (progress s)).
Proof.
  induction k as [|k IH]; intros n retry s Hall.
  - destruct s. cbn. by rewrite app_nil_r, Nat.add_0_r.
  - cbn [replies] in Hall. apply Forall_cons in Hall as [Hhd Htl].
    destruct (verdict_throttled _ Hhd) as (response & j & Hr & Hj & Ht).
    cbn [Nat.add shopifyGraphQL_loop].
    unfold bind at 1, http_fetch at 1.
    destruct (fetch (Graphql q) (world s)) as [r w] eqn:Hf.
    cbn [fst snd] in *. subst r.
    unfold bind at 1, response_json at 1. rewrite Hj. unfold ret at 1.
    rewrite Ht. unfold bind at 1, setTimeout, emit. cbn beta iota.
    rewrite IH by exact Htl. cbn [world failedProducts trace progress world_after].
    rewrite Hf. cbn [snd].
    replace (retry + S k) with (S retry + k) by lia.
    unfold backoff. cbn [seq flat_map]. unfold delay.
    by rewrite <- !app_assoc.
Qed.

Lemma loop_answered (q : GqlRequest) (n retry : nat) (s : St) :
  verdict (fetch (Graphql q) (world s)).1 <> Throttled ->
  shopifyGraphQL_loop (S n) retry q s =
    (match verdict (fetch (Graphql q) (world s)).1 with
     | Success j => Ok j
     | Failure e => Throw e
     | Throttled => Diverge
     end,
     mkSt (fetch (Graphql q) (world s)).2 (failedProducts s)
          (trace s ++ [Fetch retry (Graphql q)]) (progress s)).
Proof.
  intros Hv. cbn [shopifyGraphQL_loop].
  unfold bind at 1, http_fetch at 1.
  destruct (fetch (Graphql q) (world s)) as [r w] eqn:Hf. cbn [fst snd] in *.
  unfold verdict in *. destruct r as [e|response]; [reflexivity|].
  unfold bind at 1, response_json at 1.
  destruct (json response) as [e|j]; [reflexivity|]. unfold ret at 1.
  destruct (throttled response j); [congruence|].
  destruct (failed response j); reflexivity.
Qed.


Lemma shopifyGraphQL_loop_effects (q : GqlRequest) (n : nat) :
  forall (retry : nat) (s : St) (r : Res GraphQLResponse) (s' : St),
    shopifyGraphQL_loop n retry q s = (r, s') ->
    failedProducts s' = failedProducts s /\ progress s' = progress s /\
    ((n = 0 /\ trace s' = trace s) \/
     exists evs,
       trace s' = trace s ++ Fetch retry (Graphql q) :: evs /\
       Forall (fun e => (exists ms, e = Wait ms) \/
                        (exists r, retry < r /\ e = Fetch r (Graphql q))) evs).
Proof.
  induction n as [|n IH]; intros retry s r s' Hrun.
  - cbn in Hrun. injection Hrun as <- <-. auto.
  - cbn [shopifyGraphQL_loop] in Hrun.
    unfold bind, http_fetch, response_json, setTimeout, emit, ret, throw in Hrun.
    destruct (fetch (Graphql q) (world s)) as [[e|response] w].
    { injection Hrun as <- <-. cbn. split; [done|]. split; [done|].
      right. exists []. by split. }
    destruct (json response) as [e|j].
    { injection Hrun as <- <-. cbn. split; [done|]. split; [done|].
      right. exists []. by split. }
    destruct (throttled response j).
    + apply IH in Hrun as (Hl & Hp & Ht).
      cbn [failedProducts progress trace] in *.
      split; [done|]. split; [done|]. right.
      destruct Ht as [[_ Ht]|(evs & Ht & Hall)].
      * exists [Wait (500 * N.of_nat (retry + 1))]. rewrite Ht, <- app_assoc.
        split; [done|]. constructor; [left; eauto | constructor].
      * exists (Wait (500 * N.of_nat (retry + 1)) :: Fetch (S retry) (Graphql q) :: evs).
        rewrite Ht, <- !app_assoc. split; [done|].
        constructor; [left; eauto|]. constructor; [right; eauto|].
        eapply Forall_impl; [exact Hall|]. cbn.
        intros e [?|(r' & Hr & ->)]; [by left|right]. exists r'. split; [lia|done].
    + destruct (failed response j); injection Hrun as <- <-; cbn;
        (split; [done|]; split; [done|]; right; exists []; by split).
Qed.

Lemma shopifyGraphQL_effects (q : GqlRequest) (s : St)
    (r : Res GraphQLResponse) (s' : St) :
  shopifyGraphQL q s = (r, s') ->
  failedProducts s' = failedProducts s /\ progress s' = progress s /\
  exists evs,
    trace s' = trace s ++ Fetch 0 (Graphql q) :: evs /\ Forall (retry_event q) evs.
Proof.
  unfold shopifyGraphQL. intros Hrun.
  apply shopifyGraphQL_loop_effects in Hrun as (Hl & Hp & Ht).
  split; [done|]. split; [done|].
  destruct Ht as [[Hn _]|(evs & Ht & Hall)]; [discriminate|].
  exists evs. split; [done|]. eapply Forall_impl; [exact Hall|]. cbn.
  intros e [?|(r' & Hr & ->)]; [by left|right]. exists r'. split; [lia|done].
Qed.

End Client.



(* ===================================================================== *)
(** * Delisted products *)
(* ===================================================================== *)

Section Delisted.
Context `{Env}.

Lemma push_all_spec (msgs : list jsstring) (s : St) :
  push_all msgs s =
    (Ok tt, mkSt (world s) (failedProducts s ++ msgs) (trace s) (progress s)).
Proof.
  revert s. induction msgs as [|msg rest IH]; intros s.
  - destruct s. cbn. by rewrite app_nil_r.
  - cbn [push_all]. unfold bind, push_failed. rewrite IH. cbn.
    by rewrite <- app_assoc.
Qed.

Lemma prepare_stock_spec (existingProducts : gmap jsstring RemoteRef)
    (epuises : list EpuisesData) :
  forall (adjs : list Adjustment) (s : St),
    prepare_stock existingProducts epuises adjs s =
      (Ok (adjs ++ omap (zero_stock existingProducts) epuises),
       mkSt (world s)
         (failedProducts s ++
          List.map not_found_msg (List.filter (missing existingProducts) epuises))
         (trace s) (progress s)).
Proof.
  induction epuises as [|product rest IH]; intros adjs s.
  - destruct s. cbn. by rewrite !app_nil_r.
  - cbn [prepare_stock omap list_omap List.filter].
    destruct (existingProducts !! epuises_code product) as [existingProduct|] eqn:Hlook.
    + rewrite IH. unfold zero_stock at 2, missing at 2. rewrite Hlook.
      cbn. by rewrite <- app_assoc.
    + unfold bind, push_failed. rewrite IH.
      unfold zero_stock at 2, missing at 2. rewrite Hlook.
      cbn. by rewrite <- app_assoc.
Qed.



End Delisted.


(* ===================================================================== *)
(** * Events of a computation *)
(* ===================================================================== *)

Section Events.
Context `{Env}.

Lemma extends_refl (A : Event -> Prop) (s : St) : extends A s s.
Proof. split; [done|]. exists []. by rewrite app_nil_r. Qed.

Lemma extends_trans (A : Event -> Prop) (s1 s2 s3 : St) :
  extends A s1 s2 -> extends A s2 s3 -> extends A s1 s3.
Proof.
  intros [Hp1 (evs1 & Ht1 & Ha1)] [Hp2 (evs2 & Ht2 & Ha2)]. split; [congruence|].
  exists (evs1 ++ evs2). rewrite Ht2, Ht1, <- app_assoc. split; [done|].
  by apply Forall_app.
Qed.

Lemma extends_weaken (A B : Event -> Prop) (s s' : St) :
  (forall e, A e -> B e) -> extends A s s' -> extends B s s'.
Proof.
  intros HAB [Hp (evs & Ht & Ha)]. split; [done|]. exists evs. split; [done|].
  eapply Forall_impl; eauto.
Qed.

(** A state that differs by the remote and the ledger only. *)
Lemma extends_silent (A : Event -> Prop) (s : St) (w : World) (l : list jsstring) :
  extends A s (mkSt w l (trace s) (progress s)).
Proof. split; [done|]. exists []. cbn. by rewrite app_nil_r. Qed.

Lemma extends_event (A : Event -> Prop) (s : St) (w : World) (l : list jsstring)
    (e : Event) :
  A e -> extends A s (mkSt w l (trace s ++ [e]) (progress s)).
Proof. intros He. split; [done|]. exists [e]. split; [done|]. by constructor. Qed.

Lemma emits_run (A : Event -> Prop) {T} (m : M T) (s : St) (r : Res T) (s' : St) :
  emits A m -> m s = (r, s') -> extends A s s'.
Proof. intros Hm Hrun. specialize (Hm s). by rewrite Hrun in Hm. Qed.

Lemma emits_weaken (A B : Event -> Prop) {T} (m : M T) :
  (forall e, A e -> B e) -> emits A m -> emits B m.
Proof. intros HAB Hm s. eapply extends_weaken; eauto. Qed.

Lemma emits_ret (A : Event -> Prop) {T} (a : T) : emits A (ret a).
Proof. intros s. apply extends_refl. Qed.

Lemma emits_throw (A : Event -> Prop) {T} (e : Exn) : emits A (throw (A := T) e).
Proof. intros s. apply extends_refl. Qed.

Lemma emits_diverge (A : Event -> Prop) {T} : emits A (diverge (A := T)).
Proof. intros s. apply extends_refl. Qed.

Lemma emits_bind (A : Event -> Prop) {T U} (m : M T) (f : T -> M U) :
  emits A m -> (forall a, emits A (f a)) -> emits A (bind m f).
Proof.
  intros Hm Hf s. unfold bind. specialize (Hm s).
  destruct (m s) as [[a|e|] s1]; cbn [snd] in *; [|done|done].
  eapply extends_trans; [exact Hm|]. apply Hf.
Qed.

Lemma emits_try_catch (A : Event -> Prop) {T} (m : M T) (handler : Exn -> M T) :
  emits A m -> (forall e, emits A (handler e)) -> emits A (try_catch m handler).
Proof.
  intros Hm Hh s. unfold try_catch. specialize (Hm s).
  destruct (m s) as [[a|e|] s1]; cbn [snd] in *; [done| |done].
  eapply extends_trans; [exact Hm|]. apply Hh.
Qed.

Lemma emits_push_failed (A : Event -> Prop) (msg : jsstring) : emits A (push_failed msg).
Proof. intros s. apply extends_silent. Qed.

Lemma emits_new_failedProducts (A : Event -> Prop) : emits A new_failedProducts.
Proof. intros s. apply extends_silent. Qed.

Lemma emits_push_all (A : Event -> Prop) (msgs : list jsstring) : emits A (push_all msgs).
Proof. intros s. rewrite push_all_spec. apply extends_silent. Qed.

Lemma emits_filter_valid (A : Event -> Prop) (batch : list ProductData) :
  emits A (filter_valid batch).
Proof. intros s. rewrite filter_valid_spec. apply extends_silent. Qed.

Lemma emits_http_fetch (A : Event -> Prop) (retry : nat) (req : HttpRequest) :
  A (Fetch retry req) -> emits A (http_fetch retry req).
Proof.
  intros HA s. unfold http_fetch.
  destruct (fetch req (world s)) as [[e|response] w]; by apply extends_event.
Qed.

Lemma emits_shopifyGraphQL (A : Event -> Prop) (q : GqlRequest) :
  (forall retry, A (Fetch retry (Graphql q))) -> (forall ms, A (Wait ms)) ->
  emits A (shopifyGraphQL q).
Proof.
  intros Hfetch Hwait s.
  destruct (shopifyGraphQL q s) as [r s'] eqn:Hrun.
  apply shopifyGraphQL_effects in Hrun as (_ & Hp & evs & Ht & Hall).
  split; [done|]. eexists. split; [exact Ht|].
  constructor; [apply Hfetch|]. eapply Forall_impl; [exact Hall|].
  intros e [[ms ->]|(retry & _ & ->)]; auto.
Qed.

Lemma emits_expect_products (A : Event -> Prop) (result : GraphQLResponse) :
  emits A (expect_products result).
Proof.
  unfold expect_products. destruct (data result) as [[| |]| |];
    (apply emits_ret || apply emits_throw).
Qed.

Lemma emits_expect_result (A : Event -> Prop) (result : GraphQLResponse) (key : Alias) :
  emits A (expect_result result key).
Proof.
  unfold expect_result. destruct (data result) as [[|results|]| |];
    try apply emits_throw.
  destruct (list_find _ results) as [[? [? ?]]|]; (apply emits_ret || apply emits_throw).
Qed.

Lemma emits_expect_inventory (A : Event -> Prop) (result : GraphQLResponse) :
  emits A (expect_inventory result).
Proof.
  unfold expect_inventory. destruct (data result) as [[| |]| |];
    (apply emits_ret || apply emits_throw).
Qed.

End Events.

Create HintDb emits.

#[export] Hint Resolve emits_ret emits_throw emits_diverge emits_push_failed
  emits_new_failedProducts emits_push_all emits_filter_valid emits_expect_products
  emits_expect_result emits_expect_inventory : emits.

(** Syntax-directed proof that a program only adds allowed events. *)
Ltac emits_step :=
  match goal with
  | |- emits _ (bind _ _) => apply emits_bind; [|intros ?]
  | |- emits _ (try_catch _ _) => apply emits_try_catch; [|intros ?]
  | |- emits _ (shopifyGraphQL _) => apply emits_shopifyGraphQL; [intros ?; exact I|intros ?; exact I]
  | |- emits _ (http_fetch _ _) => apply emits_http_fetch; exact I
  | |- emits _ (match ?x with _ => _ end) => destruct x
  | |- emits _ (if ?x then _ else _) => destruct x
  | |- emits _ (let '(_, _) := ?x in _) => destruct x
  | |- emits _ _ => solve [auto with emits]
  end.

Ltac emits_tac := repeat emits_step.

Section EventsOfFunctions.
Context `{Env}.

Lemma emits_fetch_pages (fuel : nat) (batch : list jsstring) :
  forall endCursor existingProducts,
    emits other_event (fetch_pages fuel batch endCursor existingProducts).
Proof.
  induction fuel as [|fuel IH]; intros endCursor existingProducts;
    cbn [fetch_pages]; [apply emits_diverge|].
  emits_tac.
Qed.

Lemma emits_fetchExistingProducts (fuel : nat) (codes : list jsstring) :
  emits other_event (fetchExistingProducts fuel codes).
Proof.
  unfold fetchExistingProducts. generalize (∅ : gmap jsstring RemoteRef).
  induction (slices 250 codes) as [|batch rest IH]; intros existingProducts;
    cbn [fetch_batches]; [apply emits_ret|].
  apply emits_bind; [apply emits_fetch_pages|]. intros ?. apply IH.
Qed.

Lemma emits_upload_image (product : ProductData) (productId src : jsstring) :
  emits upload_event (upload_image product productId src).
Proof. unfold upload_image. emits_tac. Qed.

Lemma emits_inspect_results (result : GraphQLResponse)
    (existingProducts : gmap jsstring RemoteRef) (products : list ProductData) :
  forall index variables,
    emits upload_event (inspect_results result existingProducts index products variables).
Proof.
  induction products as [|product rest IH]; intros index variables;
    cbn [inspect_results]; [apply emits_ret|].
  apply emits_bind; [|intros ?; apply IH].
  unfold inspect_result. emits_tac. apply emits_upload_image.
Qed.

Lemma emits_setEpuisesStock (epuises : list EpuisesData)
    (existingProducts : gmap jsstring RemoteRef) :
  emits other_event (setEpuisesStock epuises existingProducts).
Proof.
  intros s. destruct (setEpuisesStock epuises existingProducts s) as [r s'] eqn:Hrun.
  cbn [snd]. revert Hrun. unfold setEpuisesStock. intros Hrun.
  eapply (emits_run other_event); [|exact Hrun].
  apply emits_bind.
  { intros s0. rewrite prepare_stock_spec. apply extends_silent. }
  intros ?. emits_tac.
Qed.

Lemma emits_prepare_delete (existingProducts : gmap jsstring RemoteRef)
    (epuises : list EpuisesData) :
  forall index mutations,
    emits other_event (prepare_delete existingProducts index epuises mutations).
Proof.
  induction epuises as [|product rest IH]; intros index mutations;
    cbn [prepare_delete]; [apply emits_ret|].
  emits_tac; apply IH.
Qed.

Lemma emits_inspect_deleted (result : GraphQLResponse)
    (existingProducts : gmap jsstring RemoteRef) (epuises : list EpuisesData) :
  forall index, emits other_event (inspect_deleted result existingProducts index epuises).
Proof.
  induction epuises as [|product rest IH]; intros index;
    cbn [inspect_deleted]; [apply emits_ret|].
  apply emits_bind; [|intros ?; apply IH]. emits_tac.
Qed.

Lemma emits_deleteEpuisesProducts (epuises : list EpuisesData)
    (existingProducts : gmap jsstring RemoteRef) :
  emits other_event (deleteEpuisesProducts epuises existingProducts).
Proof.
  unfold deleteEpuisesProducts.
  apply emits_bind; [apply emits_prepare_delete|]. intros ?.
  emits_tac. apply emits_inspect_deleted.
Qed.

End EventsOfFunctions.

(* ===================================================================== *)
(** * One batch *)
(* ===================================================================== *)

Section Batches.
Context `{Env}.

Lemma mutation_calls_app (l1 l2 : list Event) :
  mutation_calls (l1 ++ l2) = mutation_calls l1 + mutation_calls l2.
Proof. unfold mutation_calls. by rewrite List.filter_app, length_app. Qed.

Lemma mutation_calls_none (P : Event -> Prop) (evs : list Event) :
  (forall e, P e -> is_mutation_call e = false) -> Forall P evs ->
  mutation_calls evs = 0.
Proof.
  intros HP Hall. unfold mutation_calls.
  induction Hall as [|e evs He _ IH]; [done|]. cbn. by rewrite (HP e He).
Qed.

Lemma retry_event_no_call (q : GqlRequest) (e : Event) :
  retry_event q e -> is_mutation_call e = false.
Proof. intros [[ms ->]|(retry & Hr & ->)]; [done|]. by destruct retry. Qed.

Lemma other_event_no_call (e : Event) : other_event e -> is_mutation_call e = false.
Proof. destruct e as [[|retry] [[]|]| |]; cbn; done. Qed.

Lemma extends_other_calls (s s' : St) :
  extends other_event s s' -> mutation_calls (trace s') = mutation_calls (trace s).
Proof.
  intros [_ (evs & -> & Hall)]. rewrite mutation_calls_app.
  rewrite (mutation_calls_none other_event evs); [lia|apply other_event_no_call|done].
Qed.

Lemma upload_event_tail (n : nat) (e : Event) : upload_event e -> tail_event n e.
Proof. destruct e as [retry [[]|]| |]; cbn; done. Qed.

Lemma tail_event_other (n : nat) (e : Event) : tail_event n e -> other_event e.
Proof. destruct e as [retry [[]|]| |]; cbn; done. Qed.

Lemma tail_event_batch (n : nat) (e : Event) : tail_event n e -> batch_event n e.
Proof. destruct e as [retry [[]|]| |]; cbn; done. Qed.

Lemma batch_event_sync (n : nat) (e : Event) :
  n <= batchSize -> batch_event n e -> sync_event e.
Proof. intros Hn. destruct e as [retry [[]|]| |]; cbn; try done. intros ->. done. Qed.

Lemma other_event_sync (e : Event) : other_event e -> sync_event e.
Proof. destruct e as [retry [[]|]| |]; cbn; done. Qed.

Lemma sync_event_small (e : Event) : sync_event e -> small_event e.
Proof. destruct e as [retry [[]|]| |]; cbn; done. Qed.

Lemma createOrUpdateProductBatch_effects (products : list ProductData)
    (existingProducts : gmap jsstring RemoteRef) (s : St) (r : Res unit) (s' : St) :
  createOrUpdateProductBatch products existingProducts s = (r, s') ->
  extends (batch_event (length products)) s s' /\
  mutation_calls (trace s') =
    mutation_calls (trace s) + match products with [] => 0 | _ :: _ => 1 end.
Proof.
  unfold createOrUpdateProductBatch. intros Hrun.
  destruct products as [|product rest].
  { cbn in Hrun. injection Hrun as <- <-. split; [apply extends_refl|lia]. }
  rewrite imap_cons in Hrun.
  set (n := length (product :: rest)).
  set (mutations := build_op existingProducts 0 product ::
                    imap (build_op existingProducts ∘ S) rest) in Hrun.
  assert (Hlen : length mutations = n).
  { unfold mutations, n. cbn. by rewrite length_imap. }
  cbv beta iota in Hrun.
  match type of Hrun with bind (shopifyGraphQL ?q) ?k s = _ =>
    set (query := q) in *; set (rest_of_call := k) in *;
    assert (Hrest : forall result, emits (tail_event n) (rest_of_call result))
  end.
  { intros result. unfold rest_of_call. apply emits_bind.
    - eapply emits_weaken; [apply upload_event_tail|apply emits_inspect_results].
    - intros variables'. apply emits_bind; [|intros ?; emits_tac].
      apply emits_shopifyGraphQL; [|done]. intros retry. cbn.
      rewrite length_map, length_imap. done. }
  unfold bind in Hrun.
  destruct (shopifyGraphQL query s) as [r1 s1] eqn:Hcall.
  apply shopifyGraphQL_effects in Hcall as (_ & Hp & evs & Ht & Hall).
  assert (Hfirst : extends (batch_event n) s s1 /\
                   mutation_calls (trace s1) = mutation_calls (trace s) + 1).
  { split.
    - split; [done|]. eexists. split; [exact Ht|]. constructor; [exact Hlen|].
      eapply Forall_impl; [exact Hall|].
      intros e [[ms ->]|(retry & _ & ->)]; [done|exact Hlen].
    - rewrite Ht, mutation_calls_app. change (Fetch 0 (Graphql query) :: evs)
        with ([Fetch 0 (Graphql query)] ++ evs). rewrite mutation_calls_app.
      rewrite (mutation_calls_none (retry_event query) evs);
        [cbn; lia|apply retry_event_no_call|done]. }
  destruct Hfirst as [Hext Hcount].
  destruct r1 as [result|e|]; [|by injection Hrun as <- <-|by injection Hrun as <- <-].
  apply (emits_run (tail_event n) _ _ _ _ (Hrest result)) in Hrun.
  split.
  - eapply extends_trans; [exact Hext|].
    eapply extends_weaken; [|exact Hrun]. apply tail_event_batch.
  - rewrite (extends_other_calls s1 s'); [done|].
    eapply extends_weaken; [|exact Hrun]. apply tail_event_other.
Qed.

Lemma filter_valid_nonempty (batch : list ProductData) :
  match List.filter validateProduct batch with [] => 0 | _ :: _ => 1 end =
  if has_valid batch then 1 else 0.
Proof.
  unfold has_valid. induction batch as [|product rest IH]; [done|].
  cbn. destruct (validateProduct product); [done|exact IH].
Qed.

(** The slices of a list. *)
Lemma slices_from_length {A : Type} (k b : nat) (l : list A) :
  Forall (fun batch => length batch <= b) (slices_from k b l).
Proof.
  revert l. induction k as [|k IH]; intros l; cbn; [constructor|].
  destruct l as [|x l]; [constructor|]. constructor; [|apply IH].
  rewrite length_take. lia.
Qed.

Lemma slices_length {A : Type} (b : nat) (l : list A) :
  Forall (fun batch => length batch <= b) (slices b l).
Proof. apply slices_from_length. Qed.

End Batches.

(* ===================================================================== *)
(** * Rounding of JavaScript numbers *)
(* ===================================================================== *)

(** What the progress counter needs of binary64: a sum is not below a
    representable operand when the other is not negative, and the
    increments of the batches are numbers that are not negative. *)

Section Rounding.
Local Open Scope Z_scope.

Lemma pow2_pos (k : Z) : 0 <= k -> 0 < 2 ^ k.
Proof. intros Hk. by apply Z.pow_pos_nonneg. Qed.

Lemma pow2_le (a b : Z) : 0 <= a <= b -> 2 ^ a <= 2 ^ b.
Proof. intros H. apply Z.pow_le_mono_r; lia. Qed.

Lemma pow2_lt (a b : Z) : 0 <= a < b -> 2 ^ a < 2 ^ b.
Proof. intros H. apply Z.pow_lt_mono_r; lia. Qed.

Lemma pow2_lt_inv (a b : Z) : 0 <= a -> 0 <= b -> 2 ^ a < 2 ^ b -> a < b.
Proof. intros Ha Hb H. apply (Z.pow_lt_mono_r_iff 2); lia. Qed.

(** The number of binary digits of a mantissa. *)
Lemma digits2_pos_bounds (m : positive) :
  2 ^ (Z.pos (digits2_pos m) - 1) <= Z.pos m < 2 ^ Z.pos (digits2_pos m).
Proof.
  induction m as [m IH|m IH|]; cbn [digits2_pos].
  - rewrite Pos2Z.inj_succ. replace (Z.succ (Z.pos (digits2_pos m)) - 1)
      with (Z.succ (Z.pos (digits2_pos m) - 1)) by lia.
    rewrite !Z.pow_succ_r by lia. lia.
  - rewrite Pos2Z.inj_succ. replace (Z.succ (Z.pos (digits2_pos m)) - 1)
      with (Z.succ (Z.pos (digits2_pos m) - 1)) by lia.
    rewrite !Z.pow_succ_r by lia. lia.
  - cbn. lia.
Qed.

Lemma Zdigits2_bounds (m : Z) :
  0 < m -> 0 < Zdigits2 m /\ 2 ^ (Zdigits2 m - 1) <= m < 2 ^ Zdigits2 m.
Proof.
  destruct m as [|m|m]; [lia| |lia]. intros _. cbn [Zdigits2].
  split; [lia|apply digits2_pos_bounds].
Qed.

Lemma Zdigits2_unique (m d : Z) :
  0 < d -> 2 ^ (d - 1) <= m < 2 ^ d -> Zdigits2 m = d.
Proof.
  intros Hd [Hlo Hhi].
  assert (Hm : 0 < m) by (pose proof (pow2_pos (d - 1)); lia).
  destruct (Zdigits2_bounds m Hm) as (Hpos & Hlo' & Hhi').
  assert (Zdigits2 m - 1 < d) by (apply pow2_lt_inv; lia).
  assert (d - 1 < Zdigits2 m) by (apply pow2_lt_inv; lia).
  lia.
Qed.

Lemma Zdigits2_nonneg (m : Z) : 0 <= Zdigits2 m.
Proof. destruct m; cbn; lia. Qed.

Lemma Zdigits2_le (m m' : Z) : 0 < m <= m' -> Zdigits2 m <= Zdigits2 m'.
Proof.
  intros [Hm Hle].
  destruct (Zdigits2_bounds m Hm) as (Hpos & Hlo & Hhi).
  destruct (Zdigits2_bounds m' ltac:(lia)) as (Hpos' & Hlo' & Hhi').
  assert (Zdigits2 m - 1 < Zdigits2 m') by (apply pow2_lt_inv; lia).
  lia.
Qed.

Lemma Zdigits2_shift (m k : Z) :
  0 < m -> 0 <= k -> Zdigits2 (m * 2 ^ k) = Zdigits2 m + k.
Proof.
  intros Hm Hk. destruct (Zdigits2_bounds m Hm) as (Hpos & Hlo & Hhi).
  pose proof (pow2_pos k Hk) as Hp.
  apply Zdigits2_unique; [lia|].
  replace (Zdigits2 m + k - 1) with (Zdigits2 m - 1 + k) by lia.
  rewrite !Z.pow_add_r by lia. nia.
Qed.

Lemma Zdigits2_div (m k : Z) :
  0 < m -> 0 <= k < Zdigits2 m -> Zdigits2 (m / 2 ^ k) = Zdigits2 m - k.
Proof.
  intros Hm Hk. destruct (Zdigits2_bounds m Hm) as (Hpos & Hlo & Hhi).
  pose proof (pow2_pos k ltac:(lia)) as Hp.
  apply Zdigits2_unique; [lia|]. split.
  - apply Z.div_le_lower_bound; [lia|].
    rewrite <- Z.pow_add_r by lia. by replace (k + (Zdigits2 m - k - 1)) with (Zdigits2 m - 1) by lia.
  - apply Z.div_lt_upper_bound; [lia|].
    rewrite <- Z.pow_add_r by lia. by replace (k + (Zdigits2 m - k)) with (Zdigits2 m) by lia.
Qed.

Lemma Zdigits2_div_zero (m k : Z) :
  0 <= m -> Zdigits2 m <= k -> m / 2 ^ k = 0.
Proof.
  intros Hm Hk. destruct (Z.eq_dec m 0) as [->|Hne].
  { cbn in Hk. pose proof (pow2_pos k Hk). apply Z.div_0_l. lia. }
  destruct (Zdigits2_bounds m ltac:(lia)) as (Hpos & Hlo & Hhi).
  apply Z.div_small. split; [lia|].
  pose proof (pow2_le (Zdigits2 m) k ltac:(lia)). lia.
Qed.

(** ** Shifting a mantissa to the right *)

Lemma shr_1_m (mrs : shr_record) :
  0 <= shr_m mrs -> shr_m (shr_1 mrs) = shr_m mrs / 2.
Proof.
  destruct mrs as [m r s]. cbn [shr_m]. intros Hm.
  destruct m as [|[p|p|]|p]; cbn [shr_1 shr_m]; [done| | |done|lia].
  - apply Z.div_unique with (r := 1); lia.
  - apply Z.div_unique with (r := 0); lia.
Qed.

Lemma iter_shr_1 (p : positive) :
  forall mrs : shr_record,
    0 <= shr_m mrs ->
    shr_m (SpecFloat.iter_pos shr_1 p mrs) = shr_m mrs / 2 ^ Z.pos p.
Proof.
  assert (Hhalf : forall m, 0 <= m -> 0 <= m / 2) by (intros; apply Z.div_pos; lia).
  induction p as [p IH|p IH|]; intros mrs Hm; cbn [SpecFloat.iter_pos].
  - pose proof (pow2_pos (Z.pos p) ltac:(lia)) as Hp.
    assert (H1 : 0 <= shr_m (shr_1 mrs)) by (rewrite shr_1_m; auto).
    assert (H2 : 0 <= shr_m (SpecFloat.iter_pos shr_1 p (shr_1 mrs))).
    { rewrite IH by done. apply Z.div_pos; lia. }
    rewrite IH, IH, shr_1_m by done.
    rewrite !Z.div_div by lia. f_equal.
    replace (Z.pos p~1) with (1 + Z.pos p + Z.pos p) by lia.
    rewrite !Z.pow_add_r by lia. lia.
  - pose proof (pow2_pos (Z.pos p) ltac:(lia)) as Hp.
    assert (H2 : 0 <= shr_m (SpecFloat.iter_pos shr_1 p mrs)).
    { rewrite IH by done. apply Z.div_pos; lia. }
    rewrite IH, IH by done. rewrite Z.div_div by lia. f_equal.
    replace (Z.pos p~0) with (Z.pos p + Z.pos p) by lia.
    by rewrite Z.pow_add_r by lia.
  - by rewrite shr_1_m.
Qed.

Lemma shr_m_of_loc (m : Z) (l : location) : shr_m (shr_record_of_loc m l) = m.
Proof. by destruct l as [|[]]. Qed.

Lemma fexp64 (e : Z) : fexp 53 1024 e = Z.max (e - 53) (-1074).
Proof. reflexivity. Qed.

(** [shr_fexp] brings the exponent up to the one of the format, dropping
    the low digits of the mantissa. *)
Lemma shr_fexp_spec (m e : Z) (l : location) :
  0 <= m ->
  let e1 := Z.max e (fexp 53 1024 (Zdigits2 m + e)) in
  exists mrs,
    shr_fexp 53 1024 m e l = (mrs, e1) /\ shr_m mrs = m / 2 ^ (e1 - e).
Proof.
  intros Hm e1. unfold shr_fexp, shr.
  destruct (fexp 53 1024 (Zdigits2 m + e) - e) as [|k|k] eqn:Hk.
  - exists (shr_record_of_loc m l). replace e1 with e by lia.
    rewrite shr_m_of_loc, Z.sub_diag, Z.div_1_r. done.
  - eexists. split.
    + f_equal. lia.
    + rewrite iter_shr_1 by (by rewrite shr_m_of_loc).
      rewrite shr_m_of_loc. f_equal. f_equal. lia.
  - exists (shr_record_of_loc m l). replace e1 with e by lia.
    rewrite shr_m_of_loc, Z.sub_diag, Z.div_1_r. done.
Qed.

Lemma round_nearest_even_bounds (m : Z) (l : location) :
  m <= round_nearest_even m l <= m + 1.
Proof.
  destruct l as [|[]]; cbn; try lia. destruct (Z.even m); lia.
Qed.

(** What [binary_round_aux] computes, on the mantissas. *)
Lemma binary_round_aux_spec (s : bool) (m e : Z) (l : location) :
  0 <= m ->
  let e1 := Z.max e (fexp 53 1024 (Zdigits2 m + e)) in
  let m1 := m / 2 ^ (e1 - e) in
  exists m2,
    m1 <= m2 <= m1 + 1 /\
    let e3 := Z.max e1 (fexp 53 1024 (Zdigits2 m2 + e1)) in
    binary_round_aux 53 1024 s m e l =
      match m2 / 2 ^ (e3 - e1) with
      | Z0 => S754_zero s
      | Z.pos p => if e3 <=? 971 then S754_finite s p e3 else S754_infinity s
      | Z.neg _ => S754_nan
      end.
Proof.
  intros Hm e1 m1. unfold binary_round_aux.
  destruct (shr_fexp_spec m e l Hm) as (mrs & -> & Hmrs). fold e1 in Hmrs.
  set (m2 := round_nearest_even (shr_m mrs) (loc_of_shr_record mrs)).
  pose proof (round_nearest_even_bounds (shr_m mrs) (loc_of_shr_record mrs)) as Hb.
  fold m2 in Hb. rewrite Hmrs in Hb. fold m1 in Hb.
  assert (Hm1 : 0 <= m1).
  { apply Z.div_pos; [done|]. apply pow2_pos. lia. }
  exists m2. split; [done|]. cbv beta iota zeta. fold e1.
  destruct (shr_fexp_spec m2 e1 loc_Exact ltac:(lia)) as (mrs' & -> & Hmrs').
  by rewrite Hmrs'.
Qed.

Lemma Zdigits2_pow2 (d : Z) : 0 <= d -> Zdigits2 (2 ^ d) = d + 1.
Proof.
  intros Hd. apply Zdigits2_unique; [lia|]. replace (d + 1 - 1) with d by lia.
  split; [lia|]. apply pow2_lt. lia.
Qed.

Lemma Zdigits2_succ (m : Z) :
  0 < m ->
  Zdigits2 (m + 1) = Zdigits2 m \/
  (m + 1 = 2 ^ Zdigits2 m /\ Zdigits2 (m + 1) = Zdigits2 m + 1).
Proof.
  intros Hm. destruct (Zdigits2_bounds m Hm) as (Hpos & Hlo & Hhi).
  destruct (Z.eq_dec (m + 1) (2 ^ Zdigits2 m)) as [Heq|Hne].
  - right. split; [done|]. rewrite Heq. apply Zdigits2_pow2. lia.
  - left. apply Zdigits2_unique; [lia|]. lia.
Qed.

Lemma pow2_half (d : Z) : 0 < d -> 2 ^ d / 2 ^ 1 = 2 ^ (d - 1).
Proof.
  intros Hd. replace d with (d - 1 + 1) at 1 by lia.
  rewrite Z.pow_add_r by lia. apply Z.div_mul. lia.
Qed.

Lemma canonical_mantissa_spec (p : positive) (e : Z) :
  canonical_mantissa 53 1024 p e = true <->
  fexp 53 1024 (Zdigits2 (Z.pos p) + e) = e.
Proof. unfold canonical_mantissa. cbn [Zdigits2]. apply Z.eqb_eq. Qed.

(** The sign of a rounded value is the one asked for, and it is a number. *)
Lemma binary_round_aux_sign (s : bool) (m e : Z) (l : location) :
  0 <= m ->
  match binary_round_aux 53 1024 s m e l with
  | S754_zero s' | S754_infinity s' | S754_finite s' _ _ => s' = s
  | S754_nan => False
  end.
Proof.
  intros Hm. destruct (binary_round_aux_spec s m e l Hm) as (m2 & Hm2 & ->).
  cbv zeta.
  set (e1 := Z.max e (fexp 53 1024 (Zdigits2 m + e))) in *.
  set (e3 := Z.max e1 (fexp 53 1024 (Zdigits2 m2 + e1))).
  assert (H1 : 0 <= m / 2 ^ (e1 - e)).
  { apply Z.div_pos; [done|]. apply pow2_pos. lia. }
  assert (H3 : 0 <= m2 / 2 ^ (e3 - e1)).
  { apply Z.div_pos; [lia|]. apply pow2_pos. lia. }
  destruct (m2 / 2 ^ (e3 - e1)); [done| |lia]. by destruct (e3 <=? 971).
Qed.

(** Rounding a mantissa that has at least the digits of the format: the
    result is canonical; it is zero only below the format, infinite only
    above it. *)
Lemma binary_round_aux_aligned (s : bool) (m e : Z) (l : location) :
  0 < m ->
  let g := Zdigits2 m + e in
  e <= fexp 53 1024 g ->
  match binary_round_aux 53 1024 s m e l with
  | S754_zero s' => s' = s /\ g <= -1074
  | S754_infinity s' => s' = s /\ 1024 <= g
  | S754_finite s' p e3 =>
      s' = s /\ canonical_mantissa 53 1024 p e3 = true /\ e3 <= 971 /\
      fexp 53 1024 g <= e3 /\
      (e3 = fexp 53 1024 g -> m / 2 ^ (fexp 53 1024 g - e) <= Z.pos p) /\
      (-1074 < g -> g <= Zdigits2 (Z.pos p) + e3) /\
      Zdigits2 (Z.pos p) + e3 <= Z.max g (-1074) + 1
  | S754_nan => False
  end.
Proof.
  intros Hm g Hal. destruct (binary_round_aux_spec s m e l ltac:(lia)) as (m2 & Hm2 & ->).
  cbv zeta. rewrite !fexp64 in *.
  destruct (Zdigits2_bounds m Hm) as (Hd & _ & _).
  replace (Z.max e (Z.max (Zdigits2 m + e - 53) (-1074)))
    with (Z.max (g - 53) (-1074)) in * by (unfold g in *; lia).
  set (e1 := Z.max (g - 53) (-1074)) in *.
  set (m1 := m / 2 ^ (e1 - e)) in *.
  destruct (Z_lt_le_dec (e1 - e) (Zdigits2 m)) as [Hk|Hk].
  - (* the mantissa keeps some digits *)
    assert (Hd1 : Zdigits2 m1 = g - e1).
    { unfold m1. rewrite Zdigits2_div by lia. unfold g. lia. }
    assert (Hm1 : 0 < m1).
    { destruct (Z_lt_le_dec 0 m1) as [|Hle]; [done|].
      assert (0 <= m1) by (apply Z.div_pos; [lia|apply pow2_pos; lia]).
      replace m1 with 0 in Hd1 by lia. cbn in Hd1. lia. }
    assert (Hcase : (m2 = m1 \/ m2 = m1 + 1)) by lia.
    assert (Hd2 : Zdigits2 m2 = Zdigits2 m1 \/
                  (m2 = 2 ^ Zdigits2 m1 /\ Zdigits2 m2 = Zdigits2 m1 + 1)).
    { destruct Hcase as [->| ->]; [by left|].
      destruct (Zdigits2_succ m1 Hm1) as [?|[? ?]]; [by left|by right]. }
    destruct Hd2 as [Hd2|[Hpow Hd2]].
    + replace (Z.max e1 (Z.max (Zdigits2 m2 + e1 - 53) (-1074))) with e1 by lia.
      rewrite Z.sub_diag, Z.div_1_r.
      destruct m2 as [|p|p]; [lia| |lia].
      destruct (e1 <=? 971) eqn:Hov; [apply Z.leb_le in Hov|apply Z.leb_gt in Hov].
      * split; [done|]. split; [apply canonical_mantissa_spec; rewrite fexp64; lia|].
        repeat split; try lia.
      * split; [done|]. lia.
    + destruct (Z_le_gt_dec (-1074) (g - 53)) as [Hnormal|Hsub].
      * replace (Z.max e1 (Z.max (Zdigits2 m2 + e1 - 53) (-1074))) with (e1 + 1) by lia.
        replace (e1 + 1 - e1) with 1 by lia.
        rewrite Hpow, pow2_half by lia.
        pose proof (pow2_pos (Zdigits2 m1 - 1) ltac:(lia)) as Hp.
        pose proof (Zdigits2_pow2 (Zdigits2 m1 - 1) ltac:(lia)) as Hdp.
        destruct (2 ^ (Zdigits2 m1 - 1)) as [|p|p] eqn:Hp3; [lia| |lia].
        destruct (e1 + 1 <=? 971) eqn:Hov; [apply Z.leb_le in Hov|apply Z.leb_gt in Hov].
        -- split; [done|]. split; [apply canonical_mantissa_spec; rewrite fexp64; lia|].
           repeat split; try lia.
        -- split; [done|]. lia.
      * replace (Z.max e1 (Z.max (Zdigits2 m2 + e1 - 53) (-1074))) with e1 by lia.
        rewrite Z.sub_diag, Z.div_1_r.
        destruct m2 as [|p|p]; [lia| |lia].
        destruct (e1 <=? 971) eqn:Hov; [apply Z.leb_le in Hov|apply Z.leb_gt in Hov].
        -- split; [done|]. split; [apply canonical_mantissa_spec; rewrite fexp64; lia|].
           repeat split; try lia.
        -- split; [done|]. lia.
  - (* every digit is dropped *)
    assert (Hm1 : m1 = 0) by (apply Zdigits2_div_zero; lia).
    assert (Hcase : (m2 = 0 \/ m2 = 1)) by lia.
    destruct Hcase as [-> | ->].
    + rewrite Z.div_0_l by (pose proof (pow2_pos (Z.max e1 (Z.max (Zdigits2 0 + e1 - 53) (-1074)) - e1) ltac:(lia)); lia).
      split; [done|]. unfold g in *. lia.
    + cbn [Zdigits2 digits2_pos].
      replace (Z.max e1 (Z.max (1 + e1 - 53) (-1074))) with e1 by (unfold g in *; lia).
      rewrite Z.sub_diag. cbn.
      destruct (e1 <=? 971) eqn:Hov; [apply Z.leb_le in Hov|apply Z.leb_gt in Hov].
      * split; [done|]. split; [apply canonical_mantissa_spec; rewrite fexp64; cbn [Zdigits2 digits2_pos]; unfold g in *; lia|].
        cbn [Zdigits2 digits2_pos]. unfold g in *. repeat split; try lia.
      * unfold g in *. lia.
Qed.

(** Rounding any positive mantissa: zero only below the format, infinite
    only above it. *)
Lemma binary_round_aux_bounds (s : bool) (m e : Z) (l : location) :
  0 < m ->
  let g := Zdigits2 m + e in
  match binary_round_aux 53 1024 s m e l with
  | S754_zero _ => g <= -1074
  | S754_infinity _ => 1024 <= g \/ 971 < e
  | _ => True
  end.
Proof.
  intros Hm g.
  destruct (Z_le_gt_dec e (fexp 53 1024 g)) as [Hal|Hal].
  { pose proof (binary_round_aux_aligned s m e l Hm Hal) as Hres.
    destruct (binary_round_aux 53 1024 s m e l); try done; [lia|].
    left. lia. }
  destruct (binary_round_aux_spec s m e l ltac:(lia)) as (m2 & Hm2 & ->).
  cbv zeta. rewrite !fexp64 in *. unfold g in *.
  destruct (Zdigits2_bounds m Hm) as (Hd & _ & _).
  replace (Z.max e (Z.max (Zdigits2 m + e - 53) (-1074))) with e in * by lia.
  rewrite Z.sub_diag, Z.div_1_r in Hm2.
  assert (Hd2 : Zdigits2 m2 <= Zdigits2 m + 1).
  { assert (Hcase : m2 = m \/ m2 = m + 1) by lia.
    destruct Hcase as [->| ->]; [lia|].
    destruct (Zdigits2_succ m Hm) as [?|[? ?]]; lia. }
  replace (Z.max e (Z.max (Zdigits2 m2 + e - 53) (-1074))) with e by lia.
  rewrite Z.sub_diag, Z.div_1_r.
  destruct m2 as [|p|p]; [lia| |lia].
  destruct (e <=? 971) eqn:Hov; [done|apply Z.leb_gt in Hov]. by right.
Qed.

(** ** Rounding after alignment *)

Lemma iter_xO (d m : positive) : Z.pos (Pos.iter xO m d) = Z.pos m * 2 ^ Z.pos d.
Proof.
  induction d as [|d IH] using Pos.peano_ind.
  - cbn. lia.
  - rewrite Pos.iter_succ, Pos2Z.inj_xO, IH, Pos2Z.inj_succ, Z.pow_succ_r by lia. lia.
Qed.

Lemma shl_align_spec (m : positive) (e e' : Z) :
  shl_align m e e' =
    (Z.to_pos (Z.pos m * 2 ^ (e - Z.min e e')), Z.min e e').
Proof.
  unfold shl_align. destruct (e' - e) as [|d|d] eqn:Hd.
  - replace (Z.min e e') with e by lia. rewrite Z.sub_diag, Z.mul_1_r. done.
  - replace (Z.min e e') with e by lia. rewrite Z.sub_diag, Z.mul_1_r. done.
  - replace (Z.min e e') with e' by lia. replace (e - e') with (Z.pos d) by lia.
    by rewrite <- iter_xO, Pos2Z.id.
Qed.

Lemma shl_align_value (m : positive) (e e' : Z) :
  Z.pos (shl_align m e e').1 = Z.pos m * 2 ^ (e - Z.min e e').
Proof.
  rewrite shl_align_spec. cbn [fst].
  pose proof (pow2_pos (e - Z.min e e') ltac:(lia)).
  rewrite Z2Pos.id; lia.
Qed.

(** [binary_round] rounds to a canonical number; [g] is the position of
    the leading digit of the value. *)
Lemma binary_round_spec (s : bool) (m : positive) (e : Z) :
  let g := Zdigits2 (Z.pos m) + e in
  let e0 := Z.min e (fexp 53 1024 g) in
  match binary_round 53 1024 s m e with
  | S754_zero s' => s' = s /\ g <= -1074
  | S754_infinity s' => s' = s /\ 1024 <= g
  | S754_finite s' p e3 =>
      s' = s /\ canonical_mantissa 53 1024 p e3 = true /\ e3 <= 971 /\
      fexp 53 1024 g <= e3 /\
      (e3 = fexp 53 1024 g ->
       Z.pos m * 2 ^ (e - e0) / 2 ^ (fexp 53 1024 g - e0) <= Z.pos p) /\
      (-1074 < g -> g <= Zdigits2 (Z.pos p) + e3) /\
      Zdigits2 (Z.pos p) + e3 <= Z.max g (-1074) + 1
  | S754_nan => False
  end.
Proof.
  intros g e0. unfold binary_round.
  change (Z.pos (digits2_pos m)) with (Zdigits2 (Z.pos m)). fold g.
  rewrite shl_align_spec. fold e0.
  pose proof (pow2_pos (e - e0) ltac:(lia)) as Hp.
  rewrite Z2Pos.id by lia.
  assert (Hg : Zdigits2 (Z.pos m * 2 ^ (e - e0)) + e0 = g).
  { rewrite Zdigits2_shift by lia. unfold g. lia. }
  pose proof (binary_round_aux_aligned s (Z.pos m * 2 ^ (e - e0)) e0 loc_Exact
                ltac:(lia)) as Hres.
  cbv zeta in Hres. rewrite Hg in Hres. specialize (Hres ltac:(lia)).
  exact Hres.
Qed.

(** ** Addition *)

Lemma SFcompare_refl_finite (m : positive) (e : Z) :
  SFcompare (S754_finite false m e) (S754_finite false m e) = Some Eq.
Proof.
  cbn. by rewrite Z.compare_refl, Pos.compare_cont_refl.
Qed.

Lemma SFleb_finite (m m' : positive) (e e' : Z) :
  e < e' \/ (e' = e /\ Z.pos m <= Z.pos m') ->
  SFleb (S754_finite false m e) (S754_finite false m' e') = true.
Proof.
  intros Hle. unfold SFleb, SFcompare.
  destruct (Z.compare_spec e e') as [Heq|Hlt|Hgt]; [|done|lia].
  rewrite Pos.compare_cont_spec. cbn [Pos.switch_Eq].
  destruct (Pos.compare_spec m m') as [?|?|?]; [done|done|lia].
Qed.

Lemma SFleb_finite_inv (m m' : positive) (e e' : Z) :
  SFleb (S754_finite false m e) (S754_finite false m' e') = true ->
  e < e' \/ (e' = e /\ Z.pos m <= Z.pos m').
Proof.
  unfold SFleb, SFcompare.
  destruct (Z.compare_spec e e') as [Heq|Hlt|Hgt]; [|lia|done].
  rewrite Pos.compare_cont_spec. cbn [Pos.switch_Eq].
  destruct (Pos.compare_spec m m') as [?|?|?]; [lia|lia|done].
Qed.

Lemma canonical_digits (m : positive) (e : Z) :
  canonical_mantissa 53 1024 m e = true ->
  Zdigits2 (Z.pos m) <= 53 /\ -1074 <= e /\
  fexp 53 1024 (Zdigits2 (Z.pos m) + e) = e.
Proof.
  intros Hc. apply canonical_mantissa_spec in Hc. split; [|split; [|done]].
  - rewrite fexp64 in Hc. lia.
  - rewrite fexp64 in Hc. lia.
Qed.

(** Adding a number that is not negative to a positive number of the
    format gives a number of the format that is not below it: rounding
    to nearest is monotone, and the first operand is in the format. *)
Lemma add_not_below (p inc : spec_float) :
  positive_number p -> not_negative inc ->
  Js.le p (Js.add p inc) = true /\
  (positive_number (Js.add p inc) \/ Js.add p inc = S754_infinity false).
Proof.
  destruct p as [| | |[] mp ep]; try done. intros Hp Hinc. cbn in Hp.
  destruct (canonical_digits mp ep Hp) as (Hdp & Hep & Hfp).
  destruct (Zdigits2_bounds (Z.pos mp) ltac:(lia)) as (Hdpos & _ & _).
  destruct inc as [si|[]| |[] mi ei]; try done.
  - (* zero *)
    change (Js.add (S754_finite false mp ep) (S754_zero si))
      with (S754_finite false mp ep).
    split; [|by left].
    unfold Js.le, SFleb. by rewrite SFcompare_refl_finite.
  - (* infinity *)
    change (Js.add (S754_finite false mp ep) (S754_infinity false))
      with (S754_infinity false).
    split; [done|by right].
  - (* a positive number *)
    unfold Js.add, SFadd. cbn [cond_Zopp].
    set (ez := Z.min ep ei).
    pose proof (shl_align_value mp ep ez) as Hvp.
    pose proof (shl_align_value mi ei ez) as Hvi.
    replace (Z.min ep ez) with ez in Hvp by lia.
    replace (Z.min ei ez) with ez in Hvi by lia.
    set (ap := (shl_align mp ep ez).1) in *. set (ai := (shl_align mi ei ez).1) in *.
    change (Z.pos ap + Z.pos ai) with (Z.pos (ap + ai)). cbn [binary_normalize].
    pose proof (binary_round_spec false (ap + ai) ez) as Hres. cbv zeta in Hres.
    set (g := Zdigits2 (Z.pos (ap + ai)) + ez) in *.
    pose proof (pow2_pos (ep - ez) ltac:(lia)) as Hpow.
    assert (Hg : Zdigits2 (Z.pos mp) + ep <= g).
    { unfold g. replace (Zdigits2 (Z.pos mp) + ep)
        with (Zdigits2 (Z.pos mp * 2 ^ (ep - ez)) + ez)
        by (rewrite Zdigits2_shift by lia; lia).
      apply Z.add_le_mono_r. apply Zdigits2_le. lia. }
    rewrite !fexp64 in *.
    destruct (binary_round Js.prec Js.emax false (ap + ai) ez) as [s'|s'| |s' p' e3] eqn:Hr;
      unfold Js.prec, Js.emax in Hr; rewrite Hr in Hres.
    + lia.
    + destruct Hres as [-> _]. split; [done|by right].
    + done.
    + destruct Hres as (-> & Hcan & He3 & Hlow & Hm & _).
      split; [|by left].
      apply SFleb_finite.
      destruct (Z_lt_le_dec ep e3) as [|Hle]; [by left|right].
      assert (Heq : e3 = ep) by lia. split; [done|].
      assert (Hf : e3 = Z.max (g - 53) (-1074)) by lia.
      specialize (Hm Hf).
      replace (Z.min ez (Z.max (g - 53) (-1074))) with ez in Hm by lia.
      rewrite Z.sub_diag, Z.mul_1_r in Hm.
      replace (Z.max (g - 53) (-1074) - ez) with (ep - ez) in Hm by lia.
      etransitivity; [|exact Hm].
      apply Z.div_le_lower_bound; [lia|]. lia.
Qed.

(** ** The clamp *)

Lemma counter_100 : counter (Js.num 100).
Proof. by vm_compute. Qed.

(** [Math.min(x, 100)] of a number of the format that is not below
    [p <= 100]. *)
Lemma min_100 (p x : spec_float) :
  Js.le p (Js.num 100) = true -> Js.le p x = true ->
  positive_number x \/ x = S754_infinity false ->
  let t := Js.min x (Js.num 100) in
  counter t /\ Js.le p t = true.
Proof.
  intros Hp Hx Hform. cbv zeta. unfold Js.min.
  destruct Hform as [Hpos| ->].
  - destruct x as [| | |[] m e]; try done.
    change (Js.num 100) with (S754_finite false 7036874417766400 (-46)) in *.
    destruct (SFcompare (S754_finite false m e)
                (S754_finite false 7036874417766400 (-46))) as [[]|] eqn:Hc.
    + split; [|done]. split; [done|]. unfold Js.le, SFleb.
      change (Js.num 100) with (S754_finite false 7036874417766400 (-46)).
      by rewrite Hc.
    + split; [|done]. split; [done|]. unfold Js.le, SFleb.
      change (Js.num 100) with (S754_finite false 7036874417766400 (-46)).
      by rewrite Hc.
    + split; [|done]. apply counter_100.
    + done.
  - change (SFcompare (S754_infinity false) (Js.num 100)) with (Some Gt).
    split; [apply counter_100|done].
Qed.

(** [100 - p] is not negative when [p <= 100]. *)
Lemma sub_100_not_negative (p : spec_float) :
  counter p -> not_negative (Js.sub (Js.num 100) p).
Proof.
  intros [Hpos Hle]. destruct p as [| | |[] mp ep]; try done. cbn in Hpos.
  destruct (canonical_digits mp ep Hpos) as (Hdp & Hep & Hfp).
  destruct (Zdigits2_bounds (Z.pos mp) ltac:(lia)) as (Hdpos & _ & Hhi).
  change (Js.num 100) with (S754_finite false 7036874417766400 (-46)) in *.
  apply SFleb_finite_inv in Hle.
  unfold Js.sub, SFsub. cbn [cond_Zopp].
  set (ez := Z.min (-46) ep).
  pose proof (shl_align_value 7036874417766400 (-46) ez) as Hv100.
  pose proof (shl_align_value mp ep ez) as Hvp.
  replace (Z.min (-46) ez) with ez in Hv100 by lia.
  replace (Z.min ep ez) with ez in Hvp by lia.
  set (a100 := (shl_align 7036874417766400 (-46) ez).1) in *.
  set (ap := (shl_align mp ep ez).1) in *.
  assert (Hdiff : 0 <= Z.pos a100 - Z.pos ap).
  { rewrite Hv100, Hvp. destruct Hle as [Hlt|[Heq Hm]].
    - replace ez with ep by lia. rewrite Z.sub_diag, Z.mul_1_r.
      pose proof (pow2_le 1 (-46 - ep) ltac:(lia)) as Hpw.
      pose proof (pow2_le (Zdigits2 (Z.pos mp)) 53 ltac:(lia)) as Hpw'.
      change (2 ^ 1) with 2 in Hpw. change (2 ^ 53) with 9007199254740992 in Hpw'.
      nia.
    - replace ez with ep by lia. rewrite <- Heq, !Z.sub_diag, !Z.mul_1_r. lia. }
  destruct (Z.pos a100 - Z.pos ap) as [|d|d] eqn:Hd; [done| |lia].
  cbn [binary_normalize].
  pose proof (binary_round_spec false d ez) as Hres. cbv zeta in Hres.
  destruct (binary_round Js.prec Js.emax false d ez) as [s'|s'| |s' p' e3] eqn:Hr;
    unfold Js.prec, Js.emax in Hr; rewrite Hr in Hres; cbn; try done.
  - by destruct Hres as [-> _].
  - by destruct Hres as [-> _].
Qed.

(** ** Integers *)

Lemma num_positive (z : Z) :
  0 < z ->
  match Js.num z with
  | S754_finite false p e =>
      canonical_mantissa 53 1024 p e = true /\ 1 <= Zdigits2 (Z.pos p) + e
  | S754_infinity false => 1024 <= Zdigits2 z
  | _ => False
  end.
Proof.
  intros Hz. destruct z as [|m|m]; [lia| |lia].
  unfold Js.num. cbn [binary_normalize].
  pose proof (binary_round_spec false m 0) as Hres. cbv zeta in Hres.
  destruct (Zdigits2_bounds (Z.pos m) ltac:(lia)) as (Hd & _ & _).
  rewrite Z.add_0_r in Hres.
  destruct (binary_round Js.prec Js.emax false m 0) as [s'|s'| |s' p' e3] eqn:Hr;
    unfold Js.prec, Js.emax in Hr; rewrite Hr in Hres.
  - lia.
  - by destruct Hres as [-> ?].
  - done.
  - destruct Hres as (-> & Hcan & _ & _ & _ & Hg & _). split; [done|lia].
Qed.

Lemma num_small (n : nat) :
  (n <= 50)%nat ->
  match Js.num (Z.of_nat n) with
  | S754_zero false | S754_finite false _ _ => True
  | _ => False
  end.
Proof.
  intros Hn. destruct (Z.eq_dec (Z.of_nat n) 0) as [->|Hne]; [done|].
  pose proof (num_positive (Z.of_nat n) ltac:(lia)) as Hres.
  destruct (Js.num (Z.of_nat n)) as [| [] | |[] p e]; try done.
  destruct (Zdigits2_bounds (Z.of_nat n) ltac:(lia)) as (Hd & Hlo & _).
  pose proof (pow2_le 1023 (Zdigits2 (Z.of_nat n) - 1) ltac:(lia)) as Hpw.
  assert (2 ^ 6 <= 2 ^ 1023) by (apply pow2_le; lia).
  change (2 ^ 6) with 64 in *. lia.
Qed.

(** ** Division *)

Lemma quotient_digits_lower (a b : Z) :
  0 < a -> 0 < b -> Zdigits2 b < Zdigits2 a ->
  Zdigits2 a - Zdigits2 b <= Zdigits2 (a / b).
Proof.
  intros Ha Hb Hd.
  destruct (Zdigits2_bounds b Hb) as (Hdb & _ & Hhib).
  destruct (Zdigits2_bounds a Ha) as (Hda & Hloa & _).
  set (k := Zdigits2 a - 1 - Zdigits2 b).
  pose proof (pow2_pos k ltac:(lia)) as Hk.
  assert (Hq : 2 ^ k <= a / b).
  { apply Z.div_le_lower_bound; [lia|].
    replace (Zdigits2 a - 1) with (Zdigits2 b + k) in Hloa by lia.
    rewrite Z.pow_add_r in Hloa by lia. nia. }
  pose proof (Zdigits2_le (2 ^ k) (a / b) ltac:(lia)) as Hle.
  rewrite Zdigits2_pow2 in Hle by lia. lia.
Qed.

Lemma quotient_digits_upper (a b : Z) :
  0 < b -> 0 < a / b -> Zdigits2 (a / b) <= Zdigits2 a - Zdigits2 b + 1.
Proof.
  intros Hb Hq.
  destruct (Zdigits2_bounds b Hb) as (Hdb & Hlob & _).
  assert (Ha : 0 < a).
  { destruct (Z_lt_le_dec 0 a) as [|Hle]; [done|].
    assert (a / b <= 0) by (apply Z.div_le_upper_bound; lia). lia. }
  destruct (Zdigits2_bounds a Ha) as (Hda & _ & Hhia).
  destruct (Zdigits2_bounds (a / b) Hq) as (Hdq & Hloq & _).
  pose proof (Z.mul_div_le a b Hb) as Hmul.
  pose proof (Zdigits2_le b a ltac:(nia)) as Hba.
  destruct (Z_le_gt_dec (Zdigits2 (a / b)) (Zdigits2 a - Zdigits2 b + 1)) as [|Hgt];
    [done|exfalso].
  pose proof (pow2_le (Zdigits2 a - Zdigits2 b + 1) (Zdigits2 (a / b) - 1)
                ltac:(lia)) as Hpw.
  assert (Hprod : 2 ^ Zdigits2 a <= 2 ^ (Zdigits2 b - 1) * 2 ^ (Zdigits2 a - Zdigits2 b + 1)).
  { rewrite <- Z.pow_add_r by lia.
    by replace (Zdigits2 b - 1 + (Zdigits2 a - Zdigits2 b + 1)) with (Zdigits2 a) by lia. }
  pose proof (pow2_pos (Zdigits2 b - 1) ltac:(lia)).
  nia.
Qed.

(** The quotient of two positive numbers: it is a number and not
    negative; it is not zero unless the quotient is below the format,
    and not infinite unless it is above; [gx] and [gy] are the positions
    of the leading digits of the operands. *)
Lemma div_positive (mx my : positive) (ex ey : Z) :
  let gx := Zdigits2 (Z.pos mx) + ex in
  let gy := Zdigits2 (Z.pos my) + ey in
  match Js.div (S754_finite false mx ex) (S754_finite false my ey) with
  | S754_zero false => gx - gy <= -1074
  | S754_infinity false => 1023 <= gx - gy
  | S754_finite false _ _ => True
  | _ => False
  end.
Proof.
  intros gx gy. unfold Js.div, SFdiv, SFdiv_core_binary. cbn [xorb].
  change (Zdigits2 (Z.pos mx) + ex - (Zdigits2 (Z.pos my) + ey)) with (gx - gy).
  unfold Js.prec, Js.emax. rewrite fexp64.
  set (e' := Z.min (Z.max (gx - gy - 53) (-1074)) (ex - ey)).
  set (sh := ex - ey - e').
  assert (Hsh : 0 <= sh) by (unfold sh, e'; lia).
  destruct (Zdigits2_bounds (Z.pos mx) ltac:(lia)) as (Hdx & _ & _).
  destruct (Zdigits2_bounds (Z.pos my) ltac:(lia)) as (Hdy & _ & _).
  pose proof (pow2_pos sh Hsh) as Hpow.
  set (m' := match sh with
             | 0 => Z.pos mx
             | Z.pos _ => Z.shiftl (Z.pos mx) sh
             | Z.neg _ => 0
             end).
  assert (Hm' : m' = Z.pos mx * 2 ^ sh).
  { unfold m'. destruct sh as [|k|k] eqn:Hk; [lia| |lia].
    by rewrite Z.shiftl_mul_pow2. }
  assert (Hdm' : Zdigits2 m' = Zdigits2 (Z.pos mx) + sh).
  { rewrite Hm'. by apply Zdigits2_shift. }
  assert (Hm'pos : 0 < m') by nia.
  clearbody m'.
  assert (Hdd : -1074 < gx - gy -> Zdigits2 (Z.pos my) < Zdigits2 m')
    by (unfold sh, e', gx, gy in *; lia).
  assert (Hsum : Zdigits2 m' - Zdigits2 (Z.pos my) + e' = gx - gy)
    by (unfold sh, e', gx, gy in *; lia).
  assert (He' : e' <= 970 \/ 1024 <= gx - gy) by (unfold e'; lia).
  clearbody sh e'.
  unfold Z.div_eucl at 1.
  pose proof (Z.div_eucl_eq m' (Z.pos my) ltac:(lia)) as Heucl.
  pose proof (Z.mod_pos_bound m' (Z.pos my) ltac:(lia)) as Hmod.
  fold (Z.div_eucl m' (Z.pos my)).
  destruct (Z.div_eucl m' (Z.pos my)) as [q r] eqn:Hqr.
  assert (Hq : q = m' / Z.pos my) by (unfold Z.div; by rewrite Hqr).
  assert (Hq0 : 0 <= q) by (rewrite Hq; apply Z.div_pos; lia).
  pose proof (binary_round_aux_sign false q e' (new_location (Z.pos my) r) Hq0) as Hsign.
  destruct (Z.eq_dec q 0) as [Hz|Hnz].
  - (* the quotient has no digit at the exponent chosen *)
    assert (Hlow : gx - gy <= -1074).
    { destruct (Z_le_gt_dec (gx - gy) (-1074)) as [|Hgt]; [done|exfalso].
      pose proof (quotient_digits_lower m' (Z.pos my) ltac:(lia) ltac:(lia)
                    (Hdd ltac:(lia))) as Hlo.
      rewrite <- Hq, Hz in Hlo. change (Zdigits2 0) with 0 in Hlo.
      specialize (Hdd ltac:(lia)). lia. }
    destruct (binary_round_aux 53 1024 false q e' (new_location (Z.pos my) r))
      as [[]|[]| |[] p e3] eqn:Hr; try done.
    rewrite Hz in Hr.
    destruct (binary_round_aux_spec false 0 e' (new_location (Z.pos my) r) ltac:(lia))
      as (m2 & Hm2 & Hres).
    cbv zeta in Hres. rewrite Hr in Hres. rewrite !fexp64 in Hres.
    cbn [Zdigits2] in Hres, Hm2.
    rewrite Z.div_0_l in Hm2 by (pose proof (pow2_pos (Z.max e' (Z.max (0 + e' - 53) (-1074)) - e') ltac:(lia)); lia).
    assert (Hcase : m2 = 0 \/ m2 = 1) by lia.
    destruct Hcase as [-> | ->].
    + rewrite Z.div_0_l in Hres
        by (match goal with |- 2 ^ ?k <> 0 => pose proof (pow2_pos k ltac:(lia)); lia end).
      done.
    + cbn [Zdigits2 digits2_pos] in Hres.
      assert (He'' : e' <= 970) by lia.
      set (e3' := Z.max (Z.max e' (Z.max (0 + e' - 53) (-1074)))
                    (Z.max (1 + Z.max e' (Z.max (0 + e' - 53) (-1074)) - 53) (-1074))) in *.
      assert (He3 : e3' <= 971) by (unfold e3'; lia).
      destruct (1 / 2 ^ (e3' - Z.max e' (Z.max (0 + e' - 53) (-1074)))); try done.
      apply Z.leb_le in He3. by rewrite He3 in Hres.
  - pose proof (binary_round_aux_bounds false q e' (new_location (Z.pos my) r)
                  ltac:(lia)) as Hb.
    cbv zeta in Hb.
    pose proof (quotient_digits_upper m' (Z.pos my) ltac:(lia) ltac:(lia)) as Hup.
    rewrite <- Hq in Hup.
    destruct (binary_round_aux 53 1024 false q e' (new_location (Z.pos my) r))
      as [[]|[]| |[] p e3] eqn:Hr; try done.
    + destruct (Z_le_gt_dec (gx - gy) (-1074)) as [|Hgt]; [done|exfalso].
      pose proof (quotient_digits_lower m' (Z.pos my) ltac:(lia) ltac:(lia)
                    (Hdd ltac:(lia))) as Hlo.
      rewrite <- Hq in Hlo. lia.
    + lia.
Qed.

(** ** The share of a batch *)

(** [Math.ceil] of a positive number is a number with its leading digit
    at position 1 or above, that is, at least 1. *)
Lemma ceil_positive (m : positive) (e : Z) :
  match Js.ceil (S754_finite false m e) with
  | S754_finite false p e' => 1 <= Zdigits2 (Z.pos p) + e'
  | S754_infinity false => True
  | _ => False
  end.
Proof.
  unfold Js.ceil. destruct (Z.leb_spec 0 e) as [He|He].
  - destruct (Zdigits2_bounds (Z.pos m) ltac:(lia)) as (Hd & _ & _). lia.
  - pose proof (pow2_pos (- e) ltac:(lia)) as Hp.
    assert (Hq : 0 < - (- Z.pos m / 2 ^ (- e))).
    { assert (- Z.pos m / 2 ^ (- e) < 0); [|lia].
      apply Z.div_lt_upper_bound; lia. }
    destruct (- (- Z.pos m / 2 ^ (- e))) as [|q|q] eqn:Hq'; [lia| |lia].
    pose proof (num_positive (Z.pos q) ltac:(lia)) as Hnum.
    unfold Js.num in Hnum.
    destruct (binary_normalize Js.prec Js.emax (Z.pos q) 0 false) as [| [] | |[] p e'];
      try done.
    by destruct Hnum.
Qed.

Lemma mul_not_negative (x y : spec_float) :
  match x with S754_zero false | S754_finite false _ _ => True | _ => False end ->
  match y with S754_zero false | S754_finite false _ _ => True | _ => False end ->
  not_negative (Js.mul x y).
Proof.
  destruct x as [[]| | |[] mx ex]; try done; destruct y as [[]| | |[] my ey]; try done.
  intros _ _. unfold Js.mul, SFmul. cbn [xorb].
  pose proof (binary_round_aux_sign false (Z.pos (mx * my)) (ex + ey) loc_Exact
                ltac:(lia)) as Hs.
  unfold Js.prec, Js.emax.
  destruct (binary_round_aux 53 1024 false (Z.pos (mx * my)) (ex + ey) loc_Exact)
    as [| | |]; cbn; try done; by subst.
Qed.

(** The increment reported for a batch is a number, and it is not
    negative: the divisor [Math.ceil(n / 50)] is at least 1 when there is
    an item, so that the quotient is finite, also when no item of the
    batch is valid. *)
Lemma batch_increment_not_negative (total valid : nat) :
  (0 < total)%nat -> (valid <= 50)%nat ->
  not_negative (batch_increment total valid).
Proof.
  intros Htotal Hvalid. unfold batch_increment.
  apply mul_not_negative; [|by apply num_small].
  pose proof (num_positive (Z.of_nat total) ltac:(lia)) as Hn.
  change (Js.num (Z.of_nat batchSize)) with (S754_finite false 7036874417766400 (-47)).
  change (Js.num 80) with (S754_finite false 5629499534213120 (-46)).
  assert (Hk : match Js.ceil (Js.div (Js.num (Z.of_nat total))
                                (S754_finite false 7036874417766400 (-47))) with
               | S754_finite false p e => 1 <= Zdigits2 (Z.pos p) + e
               | S754_infinity false => True
               | _ => False
               end).
  { destruct (Js.num (Z.of_nat total)) as [| [] | |[] mn en]; try done.
    destruct Hn as [_ Hmag].
    pose proof (div_positive mn 7036874417766400 en (-47)) as Hdiv. cbv zeta in Hdiv.
    change (Zdigits2 7036874417766400) with 53 in Hdiv.
    destruct (Js.div (S754_finite false mn en)
                (S754_finite false 7036874417766400 (-47))) as [[]| [] | |[] my ey];
      try done; [lia|].
    apply ceil_positive. }
  destruct (Js.ceil _) as [| [] | |[] mk ek]; try done.
  pose proof (div_positive 5629499534213120 mk (-46) ek) as Hdiv. cbv zeta in Hdiv.
  change (Zdigits2 5629499534213120) with 53 in Hdiv.
  destruct (Js.div (S754_finite false 5629499534213120 (-46)) (S754_finite false mk ek))
    as [[]| [] | |[] mw ew]; try done.
  lia.
Qed.

(** ** The last update *)

Lemma le_trans_positive (a b c : spec_float) :
  positive_number a -> positive_number b -> positive_number c ->
  Js.le a b = true -> Js.le b c = true -> Js.le a c = true.
Proof.
  destruct a as [| | |[] ma ea]; try done.
  destruct b as [| | |[] mb eb]; try done.
  destruct c as [| | |[] mc ec]; try done.
  intros _ _ _ Hab Hbc. apply SFleb_finite_inv in Hab, Hbc.
  apply SFleb_finite. lia.
Qed.

(** From 50 on, [100 - p] is in the format, and the sum of [p] and of it
    rounds to 100 or above: the counter ends at 100. *)
Lemma clamp_full (p : spec_float) :
  positive_number p -> Js.le (Js.num 50) p = true -> Js.le p (Js.num 100) = true ->
  Js.min (Js.add p (Js.sub (Js.num 100) p)) (Js.num 100) = Js.num 100.
Proof.
  destruct p as [| | |[] m e]; try done. intros Hpos H50 H100. cbn in Hpos.
  destruct (canonical_digits m e Hpos) as (Hdm & He & Hfm).
  destruct (Zdigits2_bounds (Z.pos m) ltac:(lia)) as (Hdpos & Hlo & Hhi).
  change (Js.num 100) with (S754_finite false 7036874417766400 (-46)) in *.
  change (Js.num 50) with (S754_finite false 7036874417766400 (-47)) in *.
  apply SFleb_finite_inv in H50, H100.
  rewrite fexp64 in Hfm.
  assert (Hd53 : Zdigits2 (Z.pos m) = 53) by lia.
  rewrite Hd53 in Hlo, Hhi.
  change (2 ^ (53 - 1)) with 4503599627370496 in Hlo.
  change (2 ^ 53) with 9007199254740992 in Hhi.
  assert (Hcase : (e = -47 /\ 7036874417766400 <= Z.pos m) \/
                  (e = -46 /\ Z.pos m <= 7036874417766400)) by lia.
  clear H50 H100.
  unfold Js.sub, SFsub. cbn [cond_Zopp].
  replace (Z.min (-46) e) with e by lia.
  pose proof (shl_align_value 7036874417766400 (-46) e) as Hv100.
  pose proof (shl_align_value m e e) as Hvp.
  replace (Z.min (-46) e) with e in Hv100 by lia.
  rewrite Z.min_id, Z.sub_diag, Z.mul_1_r in Hvp.
  set (a100 := (shl_align 7036874417766400 (-46) e).1) in *.
  set (ap := (shl_align m e e).1) in *.
  assert (Ha100 : Z.pos a100 = 7036874417766400 * 2 ^ (-46 - e)) by exact Hv100.
  assert (Hdiff : 0 <= Z.pos a100 - Z.pos ap < 9007199254740992).
  { rewrite Ha100, Hvp. destruct Hcase as [[-> Hm]|[-> Hm]].
    - change (2 ^ (-46 - -47)) with 2. lia.
    - change (2 ^ (-46 - -46)) with 1. lia. }
  assert (Hebound : -47 <= e <= -46) by lia.
  destruct (Z.pos a100 - Z.pos ap) as [|d|d] eqn:Hd; [|clear Hcase|lia].
  { (* p = 100 *)
    cbn [binary_normalize].
    change (Js.add (S754_finite false m e) (S754_zero false))
      with (S754_finite false m e).
    assert (e = -46 /\ Z.pos m = 7036874417766400) as [-> Hm].
    { rewrite Ha100, Hvp in Hd. destruct Hcase as [[-> Hm]|[-> Hm]].
      - change (2 ^ (-46 - -47)) with 2 in Hd. lia.
      - change (2 ^ (-46 - -46)) with 1 in Hd. lia. }
    injection Hm as ->. reflexivity. }
  cbn [binary_normalize].
  pose proof (binary_round_spec false d e) as Hres. cbv zeta in Hres.
  destruct (Zdigits2_bounds (Z.pos d) ltac:(lia)) as (Hddpos & Hdlo & Hdhi).
  assert (Hdd : Zdigits2 (Z.pos d) <= 53).
  { destruct (Z_le_gt_dec (Zdigits2 (Z.pos d)) 53) as [|Hgt]; [done|].
    pose proof (pow2_le 53 (Zdigits2 (Z.pos d) - 1) ltac:(lia)) as Hpw.
    change (2 ^ 53) with 9007199254740992 in Hpw. lia. }
  set (g := Zdigits2 (Z.pos d) + e) in *.
  assert (Hgb : 1 + e <= g <= 53 + e) by (unfold g; lia).
  rewrite !fexp64 in Hres.
  replace (Z.max (g - 53) (-1074)) with (g - 53) in Hres by lia.
  replace (Z.min e (g - 53)) with (g - 53) in Hres by lia.
  rewrite Z.sub_diag in Hres. change (2 ^ 0) with 1 in Hres. rewrite Z.div_1_r in Hres.
  destruct (binary_round Js.prec Js.emax false d e) as [s'|s'| |s' P e3] eqn:Hr;
    unfold Js.prec, Js.emax in Hr; rewrite Hr in Hres; [lia|lia|done|].
  destruct Hres as (-> & Hcan & He3 & Hlow & Hm & Hg1 & Hg2).
  destruct (canonical_digits P e3 Hcan) as (HdP & He3' & HfP).
  destruct (Zdigits2_bounds (Z.pos P) ltac:(lia)) as (HdPpos & HPlo & HPhi).
  rewrite fexp64 in HfP.
  assert (HdP53 : Zdigits2 (Z.pos P) = 53) by lia.
  rewrite HdP53 in HPlo, HPhi, Hg1, Hg2.
  change (2 ^ (53 - 1)) with 4503599627370496 in HPlo.
  assert (He3e : e3 = g - 53 \/ e3 = g - 52) by lia.
  assert (HPd : e3 <= e -> Z.pos d * 2 ^ (e - e3) <= Z.pos P).
  { intros Hle. destruct He3e as [Heq|Heq].
    - specialize (Hm Heq). replace (e - (g - 53)) with (e - e3) in Hm by lia. exact Hm.
    - pose proof (pow2_pos (e - e3) ltac:(lia)) as Hpw.
      assert (Hlt : Z.pos d * 2 ^ (e - e3) < 2 ^ Zdigits2 (Z.pos d) * 2 ^ (e - e3)) by nia.
      rewrite <- Z.pow_add_r in Hlt by lia.
      replace (Zdigits2 (Z.pos d) + (e - e3)) with 52 in Hlt by (unfold g in Heq; lia).
      change (2 ^ 52) with 4503599627370496 in Hlt. lia. }
  unfold Js.add, SFadd. cbn [cond_Zopp].
  set (ez := Z.min e e3).
  pose proof (shl_align_value m e ez) as Hvm.
  pose proof (shl_align_value P e3 ez) as HvP.
  replace (Z.min e ez) with ez in Hvm by lia.
  replace (Z.min e3 ez) with ez in HvP by lia.
  set (am := (shl_align m e ez).1) in *. set (aP := (shl_align P e3 ez).1) in *.
  change (Z.pos am + Z.pos aP) with (Z.pos (am + aP)). cbn [binary_normalize].
  assert (Hez : ez <= e /\ ez <= e3 /\ (ez = e \/ ez = e3)) by (unfold ez; lia).
  assert (Hsum : 7036874417766400 * 2 ^ (-46 - ez) <= Z.pos (am + aP)).
  { rewrite Pos2Z.inj_add, Hvm, HvP.
    destruct (Z_le_gt_dec e3 e) as [Hle|Hgt].
    - replace ez with e3 by lia. rewrite Z.sub_diag, Z.mul_1_r.
      specialize (HPd Hle).
      replace (-46 - e3) with ((-46 - e) + (e - e3)) by lia.
      rewrite Z.pow_add_r by lia.
      pose proof (pow2_pos (e - e3) ltac:(lia)) as Hpw.
      assert (Hmd : Z.pos m + Z.pos d = 7036874417766400 * 2 ^ (-46 - e)) by lia.
      nia.
    - replace ez with e by lia. rewrite Z.sub_diag, Z.mul_1_r.
      replace (e3 - e) with 1 by lia. change (2 ^ 1) with 2. lia. }
  clearbody ez am aP.
  pose proof (binary_round_spec false (am + aP) ez) as Hres. cbv zeta in Hres.
  assert (Hg' : 7 <= Zdigits2 (Z.pos (am + aP)) + ez).
  { pose proof (pow2_pos (-46 - ez) ltac:(lia)) as Hpw.
    assert (Hge : 2 ^ (6 - ez) <= Z.pos (am + aP)).
    { replace (6 - ez) with (52 + (-46 - ez)) by lia. rewrite Z.pow_add_r by lia.
      change (2 ^ 52) with 4503599627370496. nia. }
    pose proof (pow2_pos (6 - ez) ltac:(lia)) as Hpw'.
    pose proof (Zdigits2_le (2 ^ (6 - ez)) (Z.pos (am + aP)) ltac:(lia)) as Hdg.
    rewrite Zdigits2_pow2 in Hdg by lia. lia. }
  set (g' := Zdigits2 (Z.pos (am + aP)) + ez) in *.
  rewrite !fexp64 in Hres.
  destruct (binary_round Js.prec Js.emax false (am + aP) ez) as [s'|s'| |s' Q e4] eqn:Hr';
    unfold Js.prec, Js.emax in Hr'; rewrite Hr' in Hres.
  - lia.
  - destruct Hres as [-> _]. reflexivity.
  - done.
  - destruct Hres as (-> & _ & _ & Hlow' & Hm' & _).
    unfold Js.min, SFcompare.
    destruct (Z.compare_spec e4 (-46)) as [Heq|Hlt|Hgt]; [|lia|done].
    assert (Hf : e4 = Z.max (g' - 53) (-1074)) by lia.
    specialize (Hm' Hf).
    replace (Z.min ez (Z.max (g' - 53) (-1074))) with ez in Hm' by lia.
    rewrite Z.sub_diag, Z.mul_1_r in Hm'.
    replace (Z.max (g' - 53) (-1074) - ez) with (-46 - ez) in Hm' by lia.
    assert (HQ : 7036874417766400 <= Z.pos Q).
    { etransitivity; [|exact Hm'].
      pose proof (pow2_pos (-46 - ez) ltac:(lia)) as Hpw.
      apply Z.div_le_lower_bound; [lia|]. lia. }
    rewrite Pos.compare_cont_spec. cbn [Pos.switch_Eq].
    destruct (Pos.compare_spec Q 7036874417766400) as [HeqQ|Hlt|Hgt].
    + rewrite HeqQ, Heq. reflexivity.
    + exfalso. clear -Hlt HQ. apply Pos2Z.pos_lt_pos in Hlt. lia.
    + reflexivity.
Qed.

End Rounding.

(* ===================================================================== *)
(** * Invariants of a run *)
(* ===================================================================== *)

Lemma batch_count_div (n : nat) : batch_count n = ((Z.of_nat n + 49) / 50)%Z.
Proof.
  unfold batch_count, Qceiling, Qfloor, batchSize. cbn.
  change (Qnum (/ inject_Z (Z.of_nat 50))) with 1%Z.
  change (Z.pos (1 * Qden (/ inject_Z (Z.of_nat 50)))) with 50%Z.
  rewrite Z.mul_1_r.
  pose proof (Z.div_mod (- Z.of_nat n) 50 ltac:(lia)) as H1.
  pose proof (Z.mod_pos_bound (- Z.of_nat n) 50 ltac:(lia)) as H2.
  pose proof (Z.div_mod (Z.of_nat n + 49) 50 ltac:(lia)) as H3.
  pose proof (Z.mod_pos_bound (Z.of_nat n + 49) 50 ltac:(lia)) as H4.
  lia.
Qed.

Section Invariants.
Context `{Env}.

Lemma preserves_run (I : St -> Prop) {T} (m : M T) (s : St) (r : Res T) (s' : St) :
  preserves I m -> m s = (r, s') -> I s -> I s'.
Proof. intros Hm Hrun Hs. specialize (Hm s Hs). by rewrite Hrun in Hm. Qed.

Lemma preserves_emits (A : Event -> Prop) (I : St -> Prop) {T} (m : M T) :
  closed A I -> emits A m -> preserves I m.
Proof. intros Hc Hm s Hs. eapply Hc; [apply Hm|done]. Qed.

Lemma preserves_ret (I : St -> Prop) {T} (a : T) : preserves I (ret a).
Proof. by intros s Hs. Qed.

Lemma preserves_bind (I : St -> Prop) {T U} (m : M T) (f : T -> M U) :
  preserves I m -> (forall a, preserves I (f a)) -> preserves I (bind m f).
Proof.
  intros Hm Hf s Hs. unfold bind. specialize (Hm s Hs).
  destruct (m s) as [[a|e|] s1]; cbn [snd] in *; [|done|done]. by apply Hf.
Qed.

Variable I : St -> Prop.
Variable callback : spec_float -> M unit.
Hypothesis I_closed : closed sync_event I.
Hypothesis callback_preserves :
  forall increment, not_negative increment -> preserves I (callback increment).

Lemma sync_batches_preserves (total : nat)
    (existingProducts : gmap jsstring RemoteRef) (batches : list (list ProductData)) :
  batches = [] \/ 0 < total ->
  Forall (fun batch => length batch <= batchSize) batches ->
  preserves I (sync_batches total batches existingProducts callback).
Proof.
  intros Htotal Hall. revert Htotal.
  induction Hall as [|batch rest Hlen _ IH]; intros Htotal;
    cbn [sync_batches]; [apply preserves_ret|].
  destruct Htotal as [?|Htotal]; [done|].
  specialize (IH (or_intror Htotal)).
  intros s Hs. unfold bind at 1. rewrite filter_valid_spec.
  set (validBatch := List.filter validateProduct batch).
  match goal with |- I (?k ?s1).2 => set (s1' := s1); change (I (k s1').2) end.
  assert (Hs1 : I s1') by (eapply I_closed; [apply extends_silent|exact Hs]).
  revert Hs1. generalize s1'. clear s Hs s1'.
  change (preserves I
    (createOrUpdateProductBatch validBatch existingProducts ;;;
     callback (batch_increment total (length validBatch)) ;;;
     sync_batches total rest existingProducts callback)).
  apply preserves_bind.
  - intros s Hs.
    destruct (createOrUpdateProductBatch validBatch existingProducts s) as [r s'] eqn:Hrun.
    apply createOrUpdateProductBatch_effects in Hrun as [Hext _].
    eapply I_closed; [|exact Hs]. eapply extends_weaken; [|exact Hext].
    intros e. apply batch_event_sync. unfold validBatch.
    etransitivity; [apply List.filter_length_le|exact Hlen].
  - intros _. apply preserves_bind; [|intros _; exact IH].
    apply callback_preserves, batch_increment_not_negative; [exact Htotal|].
    unfold validBatch. etransitivity; [apply List.filter_length_le|exact Hlen].
Qed.

Lemma syncProductsWithShopify_preserves (fuel : nat) (shouldDeleteEpuises : bool)
    (nouveautes : list ProductData) (epuises : list EpuisesData) :
  preserves I
    (syncProductsWithShopify fuel shouldDeleteEpuises nouveautes epuises callback).
Proof.
  unfold syncProductsWithShopify.
  apply preserves_bind; [|intros _].
  { eapply preserves_emits; [exact I_closed|apply emits_new_failedProducts]. }
  apply preserves_bind; [|intros existingProducts].
  { eapply preserves_emits; [exact I_closed|].
    eapply emits_weaken; [apply other_event_sync|apply emits_fetchExistingProducts]. }
  apply preserves_bind; [|intros _].
  { by apply callback_preserves. }
  apply preserves_bind; [|intros _].
  { apply sync_batches_preserves; [|apply slices_length].
    destruct nouveautes; [by left|right; cbn; lia]. }
  apply preserves_bind; [|intros _].
  { eapply preserves_emits; [exact I_closed|].
    eapply emits_weaken; [apply other_event_sync|].
    destruct shouldDeleteEpuises;
      [apply emits_deleteEpuisesProducts|apply emits_setEpuisesStock]. }
  apply preserves_bind; [|intros _; apply preserves_ret].
  by apply callback_preserves.
Qed.

End Invariants.

(* ===================================================================== *)
(** * Counting the combined mutation calls *)
(* ===================================================================== *)

Section Counting.
Context `{Env}.

Lemma bind_Ok {T U} (m : M T) (f : T -> M U) (s : St) (b : U) (s' : St) :
  bind m f s = (Ok b, s') ->
  exists a s1, m s = (Ok a, s1) /\ f a s1 = (Ok b, s').
Proof.
  unfold bind. destruct (m s) as [[a|e|] s1]; [eauto|discriminate|discriminate].
Qed.

Lemma progressCallback_spec (increment : spec_float) (s : St) :
  progressCallback increment s =
    (Ok tt,
     mkSt (world s) (failedProducts s)
       (trace s ++
        [Progress increment (Js.min (Js.add (progress s) increment) (Js.num 100))])
       (Js.min (Js.add (progress s) increment) (Js.num 100))).
Proof. reflexivity. Qed.

Lemma mutation_calls_progress (tr : list Event) (increment total : spec_float) :
  mutation_calls (tr ++ [Progress increment total]) = mutation_calls tr.
Proof. rewrite mutation_calls_app. cbn. lia. Qed.

Lemma sync_batches_calls (total : nat) (existingProducts : gmap jsstring RemoteRef)
    (batches : list (list ProductData)) :
  forall (s s' : St),
    sync_batches total batches existingProducts progressCallback s = (Ok tt, s') ->
    mutation_calls (trace s') =
      mutation_calls (trace s) + length (List.filter has_valid batches).
Proof.
  induction batches as [|batch rest IH]; intros s s' Hrun.
  - cbn in Hrun. injection Hrun as <-. cbn. lia.
  - cbn [sync_batches] in Hrun.
    apply bind_Ok in Hrun as (validBatch & s1 & Hfilter & Hrun).
    rewrite filter_valid_spec in Hfilter. injection Hfilter as <- <-.
    apply bind_Ok in Hrun as ([] & s2 & Hbatch & Hrun).
    apply createOrUpdateProductBatch_effects in Hbatch as [_ Hcount].
    apply bind_Ok in Hrun as ([] & s3 & Hcb & Hrun).
    rewrite progressCallback_spec in Hcb. injection Hcb as <-.
    apply IH in Hrun. rewrite Hrun. cbn [trace] in *.
    rewrite mutation_calls_progress, Hcount, filter_valid_nonempty.
    cbn [List.filter]. destruct (has_valid batch); cbn [length]; lia.
Qed.

Lemma syncProductsWithShopify_calls (fuel : nat) (shouldDeleteEpuises : bool)
    (nouveautes : list ProductData) (epuises : list EpuisesData) (s s' : St) :
  syncProductsWithShopify fuel shouldDeleteEpuises nouveautes epuises progressCallback s
    = (Ok tt, s') ->
  mutation_calls (trace s') =
    mutation_calls (trace s) +
    length (List.filter has_valid (slices batchSize nouveautes)).
Proof.
  unfold syncProductsWithShopify. intros Hrun.
  apply bind_Ok in Hrun as ([] & s1 & Hnew & Hrun). injection Hnew as <-.
  apply bind_Ok in Hrun as (existingProducts & s2 & Hindex & Hrun).
  apply (emits_run other_event _ _ _ _ (emits_fetchExistingProducts _ _)) in Hindex.
  apply extends_other_calls in Hindex. cbn [trace] in Hindex.
  apply bind_Ok in Hrun as ([] & s3 & Hcb & Hrun).
  rewrite progressCallback_spec in Hcb. injection Hcb as <-.
  apply bind_Ok in Hrun as ([] & s4 & Hbatches & Hrun).
  apply sync_batches_calls in Hbatches. cbn [trace] in Hbatches.
  rewrite mutation_calls_progress in Hbatches.
  apply bind_Ok in Hrun as ([] & s5 & Hdelisted & Hrun).
  assert (Hquiet : extends other_event s4 s5).
  { destruct shouldDeleteEpuises;
      [eapply emits_run; [apply emits_deleteEpuisesProducts|exact Hdelisted]
      |eapply emits_run; [apply emits_setEpuisesStock|exact Hdelisted]]. }
  apply extends_other_calls in Hquiet.
  apply bind_Ok in Hrun as ([] & s6 & Hcb & Hrun).
  rewrite progressCallback_spec in Hcb. injection Hcb as <-.
  injection Hrun as <-. cbn [trace].
  rewrite mutation_calls_progress. lia.
Qed.

Lemma ceil_step (n : nat) : S ((S n - 50 + 49) / 50) = (S n + 49) / 50.
Proof.
  destruct (le_lt_dec (S n) 50) as [Hle|Hgt].
  - replace (S n - 50 + 49) with 49 by lia.
    change (49 / 50) with 0.
    apply (Nat.div_unique (S n + 49) 50 1 n); lia.
  - replace (S n + 49) with ((S n - 50 + 49) + 1 * 50) by lia.
    rewrite Nat.div_add by lia. lia.
Qed.

Lemma since_extends (A : Event -> Prop) (s s' : St) :
  extends A s s' -> Forall A (since s (trace s')).
Proof.
  intros [_ (evs & Ht & Hall)]. unfold since. by rewrite Ht, drop_app_length.
Qed.

(** X2: whatever the remote answers, the mutation requests of a batch
    carry one sub-operation, and its inventory requests one change, for
    each product of the batch, rejected or not. *)
Lemma batch_requests_cover_all (products : list ProductData)
    (existingProducts : gmap jsstring RemoteRef) (s : St) :
  Forall (batch_event (length products))
    (since s (trace (createOrUpdateProductBatch products existingProducts s).2)).
Proof.
  destruct (createOrUpdateProductBatch products existingProducts s) as [r s'] eqn:Hrun.
  apply createOrUpdateProductBatch_effects in Hrun as [Hext _].
  by apply since_extends.
Qed.

Lemma increments_app (l1 l2 : list Event) :
  increments (l1 ++ l2) = increments l1 ++ increments l2.
Proof. unfold increments, progress_updates. by rewrite omap_app, map_app. Qed.

Lemma increments_quiet (A : Event -> Prop) (s s' : St) :
  (forall e, A e -> progress_event e = None) -> extends A s s' ->
  increments (trace s') = increments (trace s).
Proof.
  intros HA [_ (evs & -> & Hall)]. rewrite increments_app.
  assert (Hnone : increments evs = []).
  { unfold increments, progress_updates.
    induction Hall as [|e evs He _ IH]; [done|]. cbn. by rewrite (HA e He). }
  by rewrite Hnone, app_nil_r.
Qed.

Lemma other_event_no_progress (e : Event) : other_event e -> progress_event e = None.
Proof. by destruct e. Qed.

Lemma batch_event_no_progress (n : nat) (e : Event) :
  batch_event n e -> progress_event e = None.
Proof. by destruct e. Qed.

Lemma sync_batches_increments (total : nat)
    (existingProducts : gmap jsstring RemoteRef) (batches : list (list ProductData)) :
  forall (s s' : St),
    sync_batches total batches existingProducts progressCallback s = (Ok tt, s') ->
    increments (trace s') =
      increments (trace s) ++
      List.map (fun batch =>
                  batch_increment total (length (List.filter validateProduct batch)))
               batches.
Proof.
  induction batches as [|batch rest IH]; intros s s' Hrun.
  - cbn in Hrun. injection Hrun as <-. cbn. by rewrite app_nil_r.
  - cbn [sync_batches] in Hrun.
    apply bind_Ok in Hrun as (validBatch & s1 & Hfilter & Hrun).
    rewrite filter_valid_spec in Hfilter. injection Hfilter as <- <-.
    apply bind_Ok in Hrun as ([] & s2 & Hbatch & Hrun).
    apply createOrUpdateProductBatch_effects in Hbatch as [Hext _].
    apply (increments_quiet _ _ _ (batch_event_no_progress _)) in Hext.
    apply bind_Ok in Hrun as ([] & s3 & Hcb & Hrun).
    rewrite progressCallback_spec in Hcb. injection Hcb as <-.
    apply IH in Hrun. rewrite Hrun. cbn [trace] in *.
    rewrite increments_app, Hext. cbn. by rewrite <- app_assoc.
Qed.

(** The increments a completed run of the sync engine reports: 10 once the
    index is built, [(80 / ceil (n / 50)) * valid] after each slice of the
    [n] incoming items, [valid] being the number of valid items of the
    slice, and 10 after the delisted products. *)
Lemma syncProductsWithShopify_increments (fuel : nat) (shouldDeleteEpuises : bool)
    (nouveautes : list ProductData) (epuises : list EpuisesData) (s s' : St) :
  syncProductsWithShopify fuel shouldDeleteEpuises nouveautes epuises progressCallback s
    = (Ok tt, s') ->
  increments (trace s') =
    increments (trace s) ++
    [Js.num 10] ++
    List.map (fun batch =>
                batch_increment (length nouveautes)
                  (length (List.filter validateProduct batch)))
             (slices batchSize nouveautes) ++
    [Js.num 10].
Proof.
  unfold syncProductsWithShopify. intros Hrun.
  apply bind_Ok in Hrun as ([] & s1 & Hnew & Hrun). injection Hnew as <-.
  apply bind_Ok in Hrun as (existingProducts & s2 & Hindex & Hrun).
  apply (emits_run other_event _ _ _ _ (emits_fetchExistingProducts _ _)) in Hindex.
  apply (increments_quiet _ _ _ other_event_no_progress) in Hindex. cbn [trace] in Hindex.
  apply bind_Ok in Hrun as ([] & s3 & Hcb & Hrun).
  rewrite progressCallback_spec in Hcb. injection Hcb as <-.
  apply bind_Ok in Hrun as ([] & s4 & Hbatches & Hrun).
  apply sync_batches_increments in Hbatches. cbn [trace] in Hbatches.
  rewrite increments_app in Hbatches.
  apply bind_Ok in Hrun as ([] & s5 & Hdelisted & Hrun).
  assert (Hquiet : extends other_event s4 s5).
  { destruct shouldDeleteEpuises;
      [eapply emits_run; [apply emits_deleteEpuisesProducts|exact Hdelisted]
      |eapply emits_run; [apply emits_setEpuisesStock|exact Hdelisted]]. }
  apply (increments_quiet _ _ _ other_event_no_progress) in Hquiet.
  apply bind_Ok in Hrun as ([] & s6 & Hcb & Hrun).
  rewrite progressCallback_spec in Hcb. injection Hcb as <-.
  injection Hrun as <-. cbn [trace].
  rewrite increments_app, Hquiet, Hbatches, Hindex. cbn. by rewrite <- !app_assoc.
Qed.

(** The number of slices. *)
Lemma slices_from_count {A : Type} (k : nat) :
  forall (l : list A),
    length l <= k ->
    length (slices_from k batchSize l) = (length l + 49) / 50.
Proof.
  induction k as [|k IH]; intros l Hk.
  - destruct l; [done|cbn in Hk; lia].
  - destruct l as [|x l]; [done|].
    cbn [slices_from length]. rewrite IH by (rewrite length_drop; cbn in *; unfold batchSize; lia).
    rewrite length_drop. cbn [length]. unfold batchSize. apply ceil_step.
Qed.

Lemma slices_from_has_valid (k : nat) :
  forall (l : list ProductData),
    forallb validateProduct l = true ->
    List.filter has_valid (slices_from k batchSize l) = slices_from k batchSize l.
Proof.
  induction k as [|k IH]; intros l Hall; [done|].
  destruct l as [|x l]; [done|]. cbn [slices_from List.filter].
  cbn in Hall. apply andb_prop in Hall as [Hx Hl].
  cbn. rewrite Hx. cbn. f_equal. apply IH.
  apply forallb_forall. intros y Hy.
  rewrite forallb_forall in Hl. 
  assert (Hin : In y (x :: l)).
  { apply list_elem_of_In. apply list_elem_of_In in Hy.
    eapply (subseteq_drop 50 (x :: l)). exact Hy. }
  destruct Hin as [<-|Hin]; [done|by apply Hl].
Qed.

Lemma all_valid_calls (nouveautes : list ProductData) :
  forallb validateProduct nouveautes = true ->
  Z.of_nat (length (List.filter has_valid (slices batchSize nouveautes))) =
  batch_count (length nouveautes).
Proof.
  intros Hall. unfold slices.
  rewrite slices_from_has_valid, slices_from_count, batch_count_div by done.
  rewrite Nat2Z.inj_div. repeat f_equal. lia.
Qed.

Lemma batches_trace_closed (s : St) : closed sync_event (batches_trace s).
Proof.
  intros s1 s2 [_ (evs2 & Ht2 & Hall2)] (evs1 & Ht1 & Hall1).
  exists (evs1 ++ evs2). rewrite Ht2, Ht1, <- app_assoc. split; [done|].
  apply Forall_app. split; [done|].
  eapply Forall_impl; [exact Hall2|apply sync_event_small].
Qed.

Lemma batches_trace_progressCallback (s : St) (increment : spec_float) :
  preserves (batches_trace s) (progressCallback increment).
Proof.
  intros s1 (evs1 & Ht1 & Hall1). rewrite progressCallback_spec. cbn.
  exists (evs1 ++ [Progress increment
                     (Js.min (Js.add (progress s1) increment) (Js.num 100))]).
  rewrite Ht1, <- app_assoc. split; [done|].
  apply Forall_app. split; [done|]. by repeat constructor.
Qed.

(** C4 (amended): whatever the remote answers, no combined
    create-or-update mutation request of a run carries more than 50 items;
    when the run returns, it has issued one combined mutation call for
    each of the slices of 50 consecutive incoming items that holds a valid
    item, which is [ceil (N / 50)] calls when all [N] incoming items pass
    validation. *)
Theorem batch_partitioning (fuel : nat) (shouldDeleteEpuises : bool)
    (nouveautes : list ProductData) (epuises : list EpuisesData) (s : St) :
  let run := syncProductsWithShopify fuel shouldDeleteEpuises nouveautes epuises
               progressCallback s in
  let added := since s (trace run.2) in
  Forall small_event added /\
  match run.1 with
  | Ok _ =>
      mutation_calls added =
        length (List.filter has_valid (slices batchSize nouveautes)) /\
      if forallb validateProduct nouveautes
      then Z.of_nat (mutation_calls added) = batch_count (length nouveautes)
      else True
  | _ => True
  end.
Proof.
  cbn zeta.
  destruct (syncProductsWithShopify fuel shouldDeleteEpuises nouveautes epuises
              progressCallback s) as [r s'] eqn:Hrun. cbn [fst snd].
  assert (Htrace : batches_trace s s').
  { eapply preserves_run; [|exact Hrun|].
    - apply syncProductsWithShopify_preserves.
      + apply batches_trace_closed.
      + intros increment _. apply batches_trace_progressCallback.
    - exists []. by rewrite app_nil_r. }
  destruct Htrace as (evs & Ht & Hsmall).
  assert (Hsince : since s (trace s') = evs).
  { unfold since. by rewrite Ht, drop_app_length. }
  rewrite Hsince. split; [done|].
  destruct r as [[]| |]; [|done|done].
  apply syncProductsWithShopify_calls in Hrun.
  rewrite Ht, mutation_calls_app in Hrun.
  assert (Hcalls : mutation_calls evs =
            length (List.filter has_valid (slices batchSize nouveautes))) by lia.
  split; [done|].
  destruct (forallb validateProduct nouveautes) eqn:Hall; [|done].
  rewrite Hcalls. by apply all_valid_calls.
Qed.

(** X3: the increments a completed run reports to the callback of
    [action], as JavaScript numbers: 10, then for each slice of 50 of the
    [n] incoming items the binary64 product of the binary64 quotient of
    80 by [Math.ceil] of the binary64 quotient of [n] by 50, and of the
    number of valid items of the slice, then 10. *)
Theorem reported_increments (fuel : nat) (shouldDeleteEpuises : bool)
    (nouveautes : list ProductData) (epuises : list EpuisesData) (s : St) :
  let run := syncProductsWithShopify fuel shouldDeleteEpuises nouveautes epuises
               progressCallback s in
  let n := Js.num (Z.of_nat (length nouveautes)) in
  match run.1 with
  | Ok _ =>
      increments (since s (trace run.2)) =
        [Js.num 10] ++
        List.map (fun batch =>
                    let valid := List.filter validateProduct batch in
                    Js.mul (Js.div (Js.num 80) (Js.ceil (Js.div n (Js.num 50))))
                      (Js.num (Z.of_nat (length valid))))
                 (slices 50 nouveautes) ++
        [Js.num 10]
  | _ => True
  end.
Proof.
  cbn zeta.
  destruct (syncProductsWithShopify fuel shouldDeleteEpuises nouveautes epuises
              progressCallback s) as [r s'] eqn:Hrun. cbn [fst snd].
  destruct r as [[]| |]; [|done|done].
  assert (Htrace : batches_trace s s').
  { eapply preserves_run; [|exact Hrun|].
    - apply syncProductsWithShopify_preserves.
      + apply batches_trace_closed.
      + intros increment _. apply batches_trace_progressCallback.
    - exists []. by rewrite app_nil_r. }
  destruct Htrace as (evs & Ht & _).
  apply syncProductsWithShopify_increments in Hrun.
  unfold since. rewrite Ht, drop_app_length.
  rewrite Ht, increments_app in Hrun. by apply app_inv_head in Hrun.
Qed.

End Counting.

(** C4 (counterexample): of 51 incoming items only the first and the last
    are valid: 2 items pass validation, [ceil (2 / 50) = 1], and the run
    issues 2 combined mutation calls. *)
Lemma batch_count_counterexample :
  let run := syncProductsWithShopify (H := Shop.env) 1 false Scenario.sparse []
               progressCallback (init (H := Shop.env) Shop.empty) in
  let valid := length (List.filter validateProduct Scenario.sparse) in
  run.1 = Ok tt /\
  valid = 2 /\
  batch_count valid = 1%Z /\
  mutation_calls (trace run.2) = 2 /\
  Z.of_nat (mutation_calls (trace run.2)) <> batch_count valid.
Proof. vm_compute. repeat split. discriminate. Qed.

(* ===================================================================== *)
(** * The progress counter *)
(* ===================================================================== *)

Lemma progress_ok_app (previous : spec_float)
    (l1 l2 : list (spec_float * spec_float)) :
  progress_ok previous l1 -> progress_ok (last_total previous l1) l2 ->
  progress_ok previous (l1 ++ l2).
Proof.
  revert previous. induction l1 as [|[increment total] l1 IH]; intros previous H1 H2;
    [done|].
  cbn in *. destruct H1 as (? & ? & ? & ?). repeat split; auto.
Qed.

Lemma last_total_app (previous : spec_float)
    (l1 l2 : list (spec_float * spec_float)) :
  last_total previous (l1 ++ l2) = last_total (last_total previous l1) l2.
Proof.
  revert previous. induction l1 as [|[increment total] l1 IH]; intros previous; [done|].
  cbn. apply IH.
Qed.

Lemma progress_updates_sync (evs : list Event) :
  Forall sync_event evs -> progress_updates evs = [].
Proof.
  unfold progress_updates. induction 1 as [|e evs He _ IH]; [done|].
  cbn. destruct e as [retry req|ms|increment total]; cbn in *; [done|done|done].
Qed.

Lemma positive_not_negative (x : spec_float) : positive_number x -> not_negative x.
Proof. by destruct x as [| | |[]]. Qed.

(** One update of the counter: from zero by a number above zero, or from
    a value it has taken since by a number that is not negative. *)
Lemma clamp_bounds (p increment : spec_float) :
  (p = Js.num 0 /\ positive_number increment) \/
  (counter p /\ not_negative increment) ->
  let total := Js.min (Js.add p increment) (Js.num 100) in
  counter total /\ Js.le p total = true.
Proof.
  intros [[-> Hi]|[[Hp Hle] Hi]].
  - destruct increment as [| | |[] m e]; try done.
    change (Js.add (Js.num 0) (S754_finite false m e)) with (S754_finite false m e).
    apply min_100; [done|done|by left].
  - destruct (add_not_below p increment Hp Hi) as [Hup Hsum].
    by apply min_100.
Qed.

Section ProgressInvariant.
Context `{Env}.

Lemma progress_trace_closed (s : St) : closed sync_event (progress_trace s).
Proof.
  intros s1 s2 [Hp (evs2 & Ht2 & Hall2)] (evs1 & Ht1 & Hok & Hlast & Hle).
  exists (evs1 ++ evs2). rewrite Ht2, Ht1, <- app_assoc. split; [done|].
  unfold progress_updates in *. rewrite omap_app.
  fold (progress_updates evs2). rewrite (progress_updates_sync evs2 Hall2), app_nil_r.
  rewrite Hp. done.
Qed.

Lemma progress_counter_closed (s : St) : closed sync_event (progress_counter s).
Proof.
  intros s1 s2 Hext [Htrace Hc]. split.
  - by apply (progress_trace_closed s s1 s2).
  - destruct Hext as [-> _]. done.
Qed.

Lemma progress_trace_update (s : St) (increment : spec_float) (st : St) :
  (progress st = Js.num 0 /\ positive_number increment) \/
  (counter (progress st) /\ not_negative increment) ->
  progress_trace s st ->
  progress_counter s (updateProgress increment st).2.
Proof.
  intros Hi (evs & Ht & Hok & Hlast & _). cbn.
  destruct (clamp_bounds (progress st) increment Hi) as [Hc Hup].
  split; [|exact Hc].
  exists (evs ++ [Progress increment
                    (Js.min (Js.add (progress st) increment) (Js.num 100))]).
  rewrite Ht, <- app_assoc. split; [done|].
  unfold progress_updates in *. rewrite omap_app. cbn [omap list_omap progress_event].
  split; [|split; [|by right]].
  - apply progress_ok_app; [done|]. rewrite <- Hlast. cbn.
    destruct Hc as [_ Hle]. auto.
  - by rewrite last_total_app.
Qed.

Lemma progress_counter_updateProgress (s : St) (increment : spec_float) :
  not_negative increment ->
  preserves (progress_counter s) (updateProgress increment).
Proof. intros Hi st [Hst Hc]. apply progress_trace_update; [by right|done]. Qed.

Lemma progress_counter_progressCallback (s : St) (increment : spec_float) :
  not_negative increment ->
  preserves (progress_counter s) (progressCallback increment).
Proof.
  intros Hi st [Hst Hc].
  apply (progress_trace_update s increment st); [by right|done].
Qed.

Lemma progress_trace_first_update (s : St) (increment : spec_float) (st : St) :
  positive_number increment -> progress_trace s st ->
  progress_counter s (updateProgress increment st).2.
Proof.
  intros Hi Hst. apply progress_trace_update; [|done].
  destruct Hst as (_ & _ & _ & _ & [H0|Hc]); [by left|right].
  split; [done|by apply positive_not_negative].
Qed.

Lemma preserves_throw (I : St -> Prop) {T} (e : Exn) : preserves I (throw (A := T) e).
Proof. by intros s Hs. Qed.

Lemma preserves_try_catch (I : St -> Prop) {T} (m : M T) (handler : Exn -> M T) :
  preserves I m -> (forall e, preserves I (handler e)) ->
  preserves I (try_catch m handler).
Proof.
  intros Hm Hh s Hs. unfold try_catch. specialize (Hm s Hs).
  destruct (m s) as [[a|e|] s1]; cbn [snd] in *; [done| |done]. by apply Hh.
Qed.

Lemma preserves_of_sum (I : St -> Prop) {T} (x : Exn + T) : preserves I (of_sum x).
Proof. destruct x; [apply preserves_throw|apply preserves_ret]. Qed.

(** A step that strengthens the invariant for what follows it. *)
Lemma preserves_step (I J : St -> Prop) {T U} (m : M T) (f : T -> M U) :
  (forall s, I s -> J (m s).2) -> (forall s, J s -> I s) ->
  (forall a, preserves J (f a)) -> preserves I (bind m f).
Proof.
  intros Hm HJ Hf s Hs. unfold bind. specialize (Hm s Hs).
  destruct (m s) as [[a|e|] s1]; cbn [snd] in *; [|by apply HJ|by apply HJ].
  by apply HJ, Hf.
Qed.

Lemma action_try_preserves (s : St) (fuel : nat) (shouldDeleteEpuises : bool)
    (feeds : Feeds) :
  preserves (progress_trace s) (action_try fuel shouldDeleteEpuises feeds).
Proof.
  unfold action_try.
  apply preserves_bind; [|intros _].
  { destruct (discovery feeds); [apply preserves_throw|apply preserves_ret]. }
  apply (preserves_step _ (progress_counter s)); [| |intros _].
  { intros st Hst. by apply progress_trace_first_update. }
  { by intros st [Hst _]. }
  apply preserves_bind; [apply preserves_of_sum|intros nouveautes].
  apply preserves_bind; [|intros _].
  { by apply progress_counter_updateProgress. }
  apply preserves_bind; [apply preserves_of_sum|intros epuises].
  apply preserves_bind; [|intros _].
  { by apply progress_counter_updateProgress. }
  apply preserves_bind; [|intros _].
  { apply syncProductsWithShopify_preserves.
    - apply progress_counter_closed.
    - apply progress_counter_progressCallback. }
  intros st Hst. unfold bind at 1, get_progress at 1. cbn beta iota.
  assert (Hinc : not_negative (Js.sub (Js.num 100) (progress st))).
  { destruct Hst as [_ Hc]. by apply sub_100_not_negative. }
  match goal with |- progress_counter s (bind ?m ?k st).2 =>
    assert (Hk : preserves (progress_counter s) (bind m k))
  end.
  { apply preserves_bind; [by apply progress_counter_updateProgress|intros _].
    apply preserves_bind; [by intros ? ?|intros ?]. apply preserves_ret. }
  by apply Hk.
Qed.

(** C7: [updateProgress increment] sets the counter to
    [Math.min(previous + increment, 100)], sum and minimum of JavaScript
    numbers, and returns it; in every run of [action] that passes the
    authentication, whatever the feeds and the remote, the counter starts
    at 0 and each update since the start is that minimum, is not below
    the value before it and is at most 100 (so no update is [NaN]); a run
    stopped by the authentication updates nothing. *)
Theorem progress_monotone (fuel : nat) (shouldDeleteEpuises : bool) (feeds : Feeds)
    (s : St) :
  (forall increment st,
      let total := Js.min (Js.add (progress st) increment) (Js.num 100) in
      updateProgress increment st =
        (Ok total,
         mkSt (world st) (failedProducts st)
              (trace st ++ [Progress increment total]) total)) /\
  let s' := (action fuel shouldDeleteEpuises feeds s).2 in
  match authentication feeds with
  | AuthSession true =>
      exists evs,
        trace s' = trace s ++ evs /\
        progress_ok (Js.num 0) (progress_updates evs) /\
        progress s' = last_total (Js.num 0) (progress_updates evs)
  | _ => s' = s
  end.
Proof.
  split; [reflexivity|]. cbn zeta. unfold action.
  destruct (authentication feeds) as [thrown|[]]; [done| |done].
  assert (Hinv : progress_trace s
            ((new_progress ;;;
              try_catch (action_try fuel shouldDeleteEpuises feeds)
                (fun error =>
                   p <- get_progress ;;
                   ret (mkResult p false
                          (Js.lit "Failed to sync products: " ++ emessage error)
                          [] 500))) s).2).
  { unfold bind at 1, new_progress at 1. cbn beta iota.
    match goal with |- progress_trace s (try_catch ?m ?h ?s0).2 =>
      assert (Hk : preserves (progress_trace s) (try_catch m h));
      [|apply Hk] end.
    - apply preserves_try_catch; [apply action_try_preserves|intros e].
      apply preserves_bind; [by intros ? ?|intros ?]. apply preserves_ret.
    - exists []. cbn. rewrite app_nil_r. repeat split. by left. }
  destruct Hinv as (evs & Ht & Hok & Hlast & _). by exists evs.
Qed.

End ProgressInvariant.

(* ===================================================================== *)
(** * The terminal result and the scenarios *)
(* ===================================================================== *)

Section TerminalResult.
Context `{Env}.

Lemma action_try_result (fuel : nat) (shouldDeleteEpuises : bool) (feeds : Feeds)
    (s : St) (res : ActionResult) (s' : St) :
  action_try fuel shouldDeleteEpuises feeds s = (Ok res, s') ->
  http_status res = 200%N /\ success res = true /\ result_failedProducts res = [].
Proof.
  unfold action_try. intros Hrun.
  repeat (apply bind_Ok in Hrun as (? & ? & _ & Hrun)).
  injection Hrun as <- _. auto.
Qed.

(** Whatever the sync engine recorded, the reply of [action] lists no
    failure; it reports success as soon as the run did not throw. *)
Lemma action_result (fuel : nat) (shouldDeleteEpuises : bool) (feeds : Feeds)
    (s : St) (res : ActionResult) (s' : St) :
  action fuel shouldDeleteEpuises feeds s = (Ok res, s') ->
  result_failedProducts res = [] /\
  (http_status res = 200%N /\ success res = true \/
   http_status res = 500%N /\ success res = false).
Proof.
  unfold action. intros Hrun.
  destruct (authentication feeds) as [thrown|[]]; [discriminate| |discriminate].
  apply bind_Ok in Hrun as ([] & s0 & _ & Hrun). unfold try_catch in Hrun.
  destruct (action_try fuel shouldDeleteEpuises feeds s0) as [[res'|e|] s1] eqn:Htry.
  - injection Hrun as <- <-. apply action_try_result in Htry as (? & ? & ?). auto.
  - apply bind_Ok in Hrun as (p & s2 & _ & Hrun). injection Hrun as <- _. auto.
  - discriminate.
Qed.

(** X1: [action] throws what the authentication throws, and the redirect
    to [/auth/login] when the authentication gives no session, in both
    cases before anything is sent or recorded; past the authentication,
    whatever the feeds and the remote, it does not throw, and its reply
    lists no failure: it reports success with status 200, or failure with
    status 500. *)
Theorem action_reply (fuel : nat) (shouldDeleteEpuises : bool) (feeds : Feeds)
    (s : St) :
  let run := action fuel shouldDeleteEpuises feeds s in
  match authentication feeds with
  | AuthThrows thrown => run = (Throw thrown, s)
  | AuthSession false =>
      run = (Throw (mkExn (Js.lit "Response") (Js.lit "/auth/login")), s)
  | AuthSession true =>
      match run.1 with
      | Ok res =>
          result_failedProducts res = [] /\
          (http_status res = 200%N /\ success res = true \/
           http_status res = 500%N /\ success res = false)
      | Throw _ => False
      | Diverge => True
      end
  end.
Proof.
  cbn zeta. destruct (authentication feeds) as [thrown|[]] eqn:Hauth;
    [by unfold action; rewrite Hauth| |by unfold action; rewrite Hauth].
  destruct (action fuel shouldDeleteEpuises feeds s) as [[res|e|] s'] eqn:Hrun;
    cbn [fst]; [by eapply action_result|exfalso|done].
  unfold action in Hrun. rewrite Hauth in Hrun.
  unfold bind, new_progress, try_catch, get_progress, ret in Hrun.
  destruct (action_try _ _ _ _) as [[res|e'|] s1]; discriminate.
Qed.

Lemma allCodes_epuises (nouveautes : list ProductData) (epuises : list EpuisesData)
    (product : EpuisesData) :
  product ∈ epuises -> epuises_code product ∈ allCodes nouveautes epuises.
Proof.
  intros Hin. unfold allCodes. apply elem_of_app. right.
  apply list_elem_of_In, in_map, list_elem_of_In, Hin.
Qed.

End TerminalResult.

(** The scenario of one incoming row against an empty remote: one create,
    the delta 10 applied to the inventory item the remote returned, and no
    ledger entry. *)
Example widget_scenario :
  let run := syncProductsWithShopify (H := Scripted.env) 1 false [Scenario.widget] []
               progressCallback
               (init (H := Scripted.env)
                  [Scripted.emptyPage;
                   Scripted.reply (ProductMutationResponse [(create 0, Scenario.created)]);
                   Scripted.inventoryOk]) in
  run.1 = Ok tt /\
  creates (trace run.2) = 1 /\
  adjustments_sent (trace run.2) =
    [[mkChange (Some (Js.lit "gid://shopify/InventoryItem/7")) (Some 10%Z) locationId]] /\
  failedProducts run.2 = [].
Proof. vm_compute. repeat split. Qed.

(** A server error is not retried: one fetch, and the rest of the script
    is left unread. *)
Example server_error_not_retried :
  let run := shopifyGraphQL (H := Scripted.env) (InventoryAdjust [])
               (init (H := Scripted.env) [Scripted.serverError; Scripted.inventoryOk]) in
  (exists e, run.1 = Throw e) /\
  trace run.2 = [Fetch 0 (Graphql (InventoryAdjust []))] /\
  world run.2 = [Scripted.inventoryOk].
Proof. vm_compute. split; [eexists; reflexivity|split; reflexivity]. Qed.

(** Sustained throttling: four attempts, four waits, then the error. *)
Example sustained_throttling_gives_up :
  let run := shopifyGraphQL (H := Scripted.env) (InventoryAdjust [])
               (init (H := Scripted.env) (replicate 5 Scripted.throttledReply)) in
  run.1 = Throw rate_limit_error /\
  omap (fun e => match e with Wait ms => Some ms | _ => None end) (trace run.2) =
    [500; 1000; 1500; 2000]%N /\
  world run.2 = [Scripted.throttledReply].
Proof. vm_compute. repeat split. Qed.

(** C1: a run whose only incoming record fails validation ends without
    exception; the sync engine has recorded one failure, and the reply of
    [action] reports success with an empty failure list. *)
Lemma terminal_result_drops_ledger :
  let run := action (H := Scripted.env) 1 false
               (Scenario.feeds [Scenario.nobarcode] [])
               (init (H := Scripted.env) [Scripted.emptyPage]) in
  failedProducts run.2 = [Js.lit "Validation failed for Widget"] /\
  exists res,
    run.1 = Ok res /\ http_status res = 200%N /\
    success res = true /\ result_failedProducts res = [].
Proof. vm_compute. split; [reflexivity|]. eexists. repeat split. Qed.

(** C2: the remote rejects the creation of the only product of a batch:
    one entry is appended for it, and the inventory request of the batch
    still carries a change for it, of delta 10 and without inventory
    item; when that request is refused in turn, the product gets a second
    entry. *)
Lemma rejected_item_stays_in_inventory_request :
  let run := createOrUpdateProductBatch (H := Scripted.env) [Scenario.widget] ∅
               (init (H := Scripted.env) Scenario.rejecting) in
  let again := createOrUpdateProductBatch (H := Scripted.env) [Scenario.widget] ∅
                 (init (H := Scripted.env) Scenario.rejecting_twice) in
  run.1 = Ok tt /\
  length (failedProducts run.2) = 1 /\
  adjustments_sent (trace run.2) = [[mkChange None (Some 10%Z) locationId]] /\
  again.1 = Ok tt /\
  length (failedProducts again.2) = 2.
Proof. vm_compute. repeat split. Qed.

(** C3: for an incoming product of code [001] the keys of the index
    query are [001] alone; its barcode is not among them, and the index
    built against a catalog that holds the product under that barcode
    does not find it. *)
Lemma index_keys_miss_barcode :
  allCodes [Scenario.widget] [] = [Js.lit "001"] /\
  (barcode Scenario.widget ∉ allCodes [Scenario.widget] []) /\
  (barcode Scenario.widget ∈ List.map Shop.pbarcode (Shop.catalog Scenario.stocked)) /\
  exists index,
    (fetchExistingProducts (H := Shop.env) 1 (allCodes [Scenario.widget] [])
       (init (H := Shop.env) Scenario.stocked)).1 = Ok index /\
    index !! barcode Scenario.widget = None.
Proof.
  split; [reflexivity|]. split; [|split].
  - intros Hin. apply list_elem_of_In in Hin. vm_compute in Hin.
    destruct Hin as [Heq|[]]. discriminate.
  - apply list_elem_of_In. vm_compute. auto.
  - eexists. split; [vm_compute; reflexivity|]. reflexivity.
Qed.

(** C6: the same feed run twice against the reference catalog: the
    second run creates the product again, and the catalog ends with two
    products of the same barcode. *)
Lemma rerun_creates_duplicate :
  let run1 := syncProductsWithShopify (H := Shop.env) 1 false [Scenario.widget] []
                progressCallback (init (H := Shop.env) Shop.empty) in
  let run2 := syncProductsWithShopify (H := Shop.env) 1 false [Scenario.widget] []
                progressCallback (init (H := Shop.env) (world run1.2)) in
  run1.1 = Ok tt /\ run2.1 = Ok tt /\
  creates (trace run1.2) = 1 /\
  creates (trace run2.2) = 1 /\
  List.map Shop.pbarcode (Shop.catalog (world run2.2)) =
    [barcode Scenario.widget; barcode Scenario.widget] /\
  List.map Shop.pstock (Shop.catalog (world run2.2)) = [10%Z; 10%Z].
Proof. vm_compute. repeat split. Qed.

(** When the code of a product is its barcode, the second run updates. *)
Lemma rerun_same_key_updates :
  let run1 := syncProductsWithShopify (H := Shop.env) 1 false [Scenario.keyed] []
                progressCallback (init (H := Shop.env) Shop.empty) in
  let run2 := syncProductsWithShopify (H := Shop.env) 1 false [Scenario.keyed] []
                progressCallback (init (H := Shop.env) (world run1.2)) in
  run1.1 = Ok tt /\ run2.1 = Ok tt /\
  creates (trace run1.2) = 1 /\
  creates (trace run2.2) = 0 /\
  List.map Shop.pbarcode (Shop.catalog (world run2.2)) = [barcode Scenario.keyed] /\
  adjustments_sent (trace run1.2) = adjustments_sent (trace run2.2).
Proof. vm_compute. repeat split. Qed.

(** C8: two valid incoming products in one batch: the sync engine reports
    the increments 10, 160 and 10, as JavaScript numbers. *)
Lemma batch_increments_exceed_weight :
  let run := syncProductsWithShopify (H := Shop.env) 1 false
               [Scenario.widget; Scenario.gadget] []
               progressCallback (init (H := Shop.env) Shop.empty) in
  run.1 = Ok tt /\
  List.map fst (progress_updates (trace run.2)) =
    [Js.num 10; Js.num 160; Js.num 10] /\
  batch_increment 2 2 = Js.num 160 /\
  Js.num 160 = S754_finite false 5629499534213120 (-45).
Proof. vm_compute. repeat split. Qed.

(* ===================================================================== *)
(** * The text functions of the parser *)
(* ===================================================================== *)

Lemma split_nonempty (sep : N) (s : jsstring) : Csv.split sep s <> [].
Proof.
  destruct s as [|c s]; [done|]. cbn.
  destruct (c =? sep)%N; [done|]. by destruct (Csv.split sep s).
Qed.

Lemma join_cons (sep : N) (x : jsstring) (l : list jsstring) :
  l <> [] -> Csv.join sep (x :: l) = x ++ sep :: Csv.join sep l.
Proof. by destruct l. Qed.

Lemma join_cons_head (sep c : N) (x : jsstring) (l : list jsstring) :
  Csv.join sep ((c :: x) :: l) = c :: Csv.join sep (x :: l).
Proof. by destruct l. Qed.

(** Cutting a text at [sep], filtering each piece and joining the pieces
    with [sep] again filters the text, as long as [sep] passes the
    filter. *)
Lemma join_filter_split (keep : N -> bool) (sep : N) (s : jsstring) :
  keep sep = true ->
  Csv.join sep (List.map (List.filter keep) (Csv.split sep s)) = List.filter keep s.
Proof.
  intros Hsep. induction s as [|c s IH]; [done|]. cbn [Csv.split].
  destruct (c =? sep)%N eqn:Hc.
  - apply N.eqb_eq in Hc as ->. cbn [List.map List.filter]. rewrite Hsep.
    rewrite join_cons; [cbn; by rewrite IH|].
    pose proof (split_nonempty sep s). by destruct (Csv.split sep s).
  - pose proof (split_nonempty sep s) as Hne.
    destruct (Csv.split sep s) as [|field fields]; [done|].
    cbn [List.map List.filter] in *. destruct (keep c).
    + by rewrite join_cons_head, IH.
    + exact IH.
Qed.

(** [s.split(sep).join(sep)] gives [s] back. *)
Lemma join_split (sep : N) (s : jsstring) : Csv.join sep (Csv.split sep s) = s.
Proof.
  induction s as [|c s IH]; [done|]. cbn [Csv.split].
  pose proof (split_nonempty sep s) as Hne.
  destruct (c =? sep)%N eqn:Hc.
  - apply N.eqb_eq in Hc as ->. rewrite join_cons by done. cbn. by rewrite IH.
  - destruct (Csv.split sep s) as [|field fields]; [done|].
    by rewrite join_cons_head, IH.
Qed.

Lemma split_filter (keep : N -> bool) (sep : N) (s : jsstring) :
  keep sep = true ->
  Csv.split sep (List.filter keep s) = List.map (List.filter keep) (Csv.split sep s).
Proof.
  intros Hsep. induction s as [|c s IH]; [done|]. cbn [Csv.split List.filter].
  pose proof (split_nonempty sep s) as Hne.
  destruct (c =? sep)%N eqn:Hc.
  - apply N.eqb_eq in Hc as ->. rewrite Hsep. cbn [Csv.split].
    rewrite N.eqb_refl. cbn. by rewrite IH.
  - destruct (keep c) eqn:Hk.
    + cbn [Csv.split]. rewrite Hc, IH.
      destruct (Csv.split sep s) as [|field fields]; [done|]. cbn. by rewrite Hk.
    + rewrite IH. destruct (Csv.split sep s) as [|field fields]; [done|].
      cbn. by rewrite Hk.
Qed.

(** X4: [preprocessCSV] removes every apostrophe and double quote of the
    content and changes nothing else: the lines of the result are the
    lines of the content without their quotes, one for one, and so are the
    fields of each line. *)
Theorem preprocessCSV_removes_quotes (content : jsstring) :
  Csv.preprocessCSV content = List.filter Csv.not_quote content /\
  Csv.split 10 (Csv.preprocessCSV content) =
    List.map (List.filter Csv.not_quote) (Csv.split 10 content) /\
  (forall line,
      Csv.split 59 (List.filter Csv.not_quote line) =
        List.map (List.filter Csv.not_quote) (Csv.split 59 line)).
Proof.
  assert (Hfilter : Csv.preprocessCSV content = List.filter Csv.not_quote content).
  { unfold Csv.preprocessCSV.
    rewrite <- (join_filter_split Csv.not_quote 10 content eq_refl).
    f_equal. apply map_ext. intros line.
    apply (join_filter_split Csv.not_quote 59 line eq_refl). }
  split; [exact Hfilter|]. split.
  - rewrite Hfilter. by apply split_filter.
  - intros line. by apply split_filter.
Qed.

(** ** Trimming *)

Lemma trimStart_fixed (s : jsstring) :
  match s with [] => True | c :: _ => Js.isWhiteSpace c = false end ->
  Js.trimStart s = s.
Proof. destruct s as [|c s]; [done|]. cbn. by intros ->. Qed.

Lemma trimStart_idempotent (s : jsstring) : Js.trimStart (Js.trimStart s) = Js.trimStart s.
Proof.
  apply trimStart_fixed. destruct (Js.trimStart s) as [|c rest] eqn:Hs; [done|].
  by apply trimStart_head in Hs.
Qed.

Lemma trimStart_snoc (s : jsstring) (c : N) :
  Js.isWhiteSpace c = false -> Js.trimStart (s ++ [c]) = Js.trimStart s ++ [c].
Proof.
  intros Hc. induction s as [|d s IH]; cbn; [by rewrite Hc|].
  by destruct (Js.isWhiteSpace d).
Qed.

Lemma trimEnd_cons (c : N) (s : jsstring) :
  Js.isWhiteSpace c = false -> Js.trimEnd (c :: s) = c :: Js.trimEnd s.
Proof.
  intros Hc. unfold Js.trimEnd. cbn [rev].
  by rewrite trimStart_snoc, rev_app_distr.
Qed.

Lemma trimEnd_idempotent (s : jsstring) : Js.trimEnd (Js.trimEnd s) = Js.trimEnd s.
Proof. unfold Js.trimEnd. by rewrite rev_involutive, trimStart_idempotent. Qed.

Lemma trim_idempotent (s : jsstring) : Js.trim (Js.trim s) = Js.trim s.
Proof.
  unfold Js.trim. destruct (Js.trimStart s) as [|c rest] eqn:Hs; [done|].
  apply trimStart_head in Hs.
  rewrite (trimEnd_cons c rest Hs).
  rewrite (trimStart_fixed (c :: Js.trimEnd rest) Hs).
  by rewrite (trimEnd_cons c _ Hs), trimEnd_idempotent.
Qed.

Lemma trimStart_Forall (P : N -> Prop) (s : jsstring) :
  Forall P s -> Forall P (Js.trimStart s).
Proof.
  induction 1 as [|c s Hc Hs IH]; [done|]. cbn.
  destruct (Js.isWhiteSpace c); [done|by constructor].
Qed.

Lemma trim_Forall (P : N -> Prop) (s : jsstring) : Forall P s -> Forall P (Js.trim s).
Proof.
  intros Hs. unfold Js.trim, Js.trimEnd.
  apply Forall_rev, trimStart_Forall, Forall_rev, trimStart_Forall, Hs.
Qed.

(** What [trim] returns neither starts nor ends with white space. *)
Lemma trim_ends (s : jsstring) :
  match Js.trim s with
  | [] => True
  | c :: _ => Js.isWhiteSpace c = false
  end /\
  match rev (Js.trim s) with
  | [] => True
  | c :: _ => Js.isWhiteSpace c = false
  end.
Proof.
  split.
  - unfold Js.trim. destruct (Js.trimStart s) as [|c rest] eqn:Hs; [done|].
    apply trimStart_head in Hs. by rewrite (trimEnd_cons c rest Hs).
  - unfold Js.trim, Js.trimEnd. rewrite rev_involutive.
    destruct (Js.trimStart (rev (Js.trimStart s))) as [|c rest] eqn:Hs; [done|].
    by apply trimStart_head in Hs.
Qed.

(** ** The two [sanitizeString] *)

Lemma filter_fixed (keep : N -> bool) (s : jsstring) :
  Forall (fun c => keep c = true) s -> List.filter keep s = s.
Proof. induction 1 as [|c s Hc _ IH]; [done|]. cbn. by rewrite Hc, IH. Qed.

Lemma filter_kept (keep : N -> bool) (s : jsstring) :
  Forall (fun c => keep c = true) (List.filter keep s).
Proof.
  induction s as [|c s IH]; [done|]. cbn.
  destruct (keep c) eqn:Hc; [by constructor|done].
Qed.

Lemma remove_artifact_printable (s : jsstring) :
  Forall (fun c => Csv.printable c = true) s -> Csv.remove_artifact s = s.
Proof.
  induction 1 as [|a s Ha Hs IH]; [done|].
  cbn [Csv.remove_artifact]. destruct s as [|b [|c rest]]; try (by rewrite IH).
  destruct (a =? 239)%N eqn:Heq; [|cbn [andb]; by rewrite IH].
  apply N.eqb_eq in Heq as ->. discriminate.
Qed.

Lemma csv_sanitize_printable (s : jsstring) :
  Forall (fun c => Csv.printable c = true) (Csv.sanitizeString s).
Proof. apply trim_Forall, filter_kept. Qed.

(** X5: the parser's [sanitizeString] returns printable ASCII with no white
    space at either end, and sanitizing its result again changes nothing. *)
Theorem csv_sanitize_idempotent (s : jsstring) :
  Forall (fun c => (32 <= c <= 126)%N) (Csv.sanitizeString s) /\
  match Csv.sanitizeString s with
  | [] => True
  | c :: _ => Js.isWhiteSpace c = false
  end /\
  match rev (Csv.sanitizeString s) with
  | [] => True
  | c :: _ => Js.isWhiteSpace c = false
  end /\
  Csv.sanitizeString (Csv.sanitizeString s) = Csv.sanitizeString s.
Proof.
  split; [|split; [|split]].
  - eapply Forall_impl; [apply csv_sanitize_printable|].
    intros c Hc. unfold Csv.printable in Hc. apply andb_prop in Hc as [H1 H2].
    apply N.leb_le in H1, H2. lia.
  - apply trim_ends.
  - apply trim_ends.
  - unfold Csv.sanitizeString at 1.
    rewrite (remove_artifact_printable _ (csv_sanitize_printable s)).
    rewrite (filter_fixed _ _ (csv_sanitize_printable s)).
    apply trim_idempotent.
Qed.

Lemma printable_not_replacement (s : jsstring) :
  List.filter (fun c => (32 <=? c) && (c <=? 126))%N
    (List.filter (fun c => negb (c =? 65533)%N) s) =
  List.filter Csv.printable s.
Proof.
  induction s as [|c s IH]; [done|]. cbn.
  destruct (c =? 65533)%N eqn:Hc; cbn.
  - apply N.eqb_eq in Hc as ->. cbn. exact IH.
  - fold (Csv.printable c). destruct (Csv.printable c); by rewrite IH.
Qed.

(** X6: [sanitizeString] of [shopify.ts] returns at most 255 code units,
    all printable ASCII, with no white space in front; it is the parser's
    [sanitizeString] without its first step, cut at 255, so that on a
    field the parser has sanitized it only truncates. *)
Theorem sanitizeString_bounds (s : jsstring) :
  length (sanitizeString s) <= 255 /\
  Forall (fun c => (32 <= c <= 126)%N) (sanitizeString s) /\
  match sanitizeString s with
  | [] => True
  | c :: _ => Js.isWhiteSpace c = false
  end /\
  sanitizeString s = take 255 (Js.trim (List.filter Csv.printable s)) /\
  sanitizeString (Csv.sanitizeString s) = take 255 (Csv.sanitizeString s).
Proof.
  assert (Hshape : sanitizeString s = take 255 (Js.trim (List.filter Csv.printable s))).
  { unfold sanitizeString, Js.substring0. by rewrite printable_not_replacement. }
  split; [|split; [|split; [|split]]].
  - unfold sanitizeString, Js.substring0. rewrite length_take. lia.
  - rewrite Hshape. apply Forall_take.
    eapply Forall_impl; [apply trim_Forall, filter_kept|].
    intros c Hc. cbn in Hc. unfold Csv.printable in Hc.
    apply andb_prop in Hc as [H1 H2]. apply N.leb_le in H1, H2. lia.
  - rewrite Hshape. pose proof (trim_ends (List.filter Csv.printable s)) as [Hhead _].
    by destruct (Js.trim (List.filter Csv.printable s)).
  - exact Hshape.
  - unfold sanitizeString, Js.substring0. rewrite printable_not_replacement.
    rewrite (filter_fixed _ _ (csv_sanitize_printable s)).
    unfold Csv.sanitizeString at 1. by rewrite trim_idempotent.
Qed.

(* ===================================================================== *)
(** * [withRetry] *)
(* ===================================================================== *)

Section Retry.
Context `{Env}.

Lemma withRetry_loop_failures {A : Type} (operation : M A) (delayMs : N)
    (maxRetries k : nat) :
  forall (n attempt : nat) (s s_k : St),
    after_failures operation delayMs k s = Some s_k ->
    attempt + k <= maxRetries ->
    (k = 0 \/ attempt + k - 1 < maxRetries) ->
    (forall i, i < k -> attempt + i <> maxRetries) ->
    withRetry_loop operation (k + n) attempt maxRetries delayMs s =
    withRetry_loop operation n (attempt + k) maxRetries delayMs s_k.
Proof.
  induction k as [|k IH]; intros n attempt s s_k Hfail Hle _ Hne.
  - cbn in Hfail. injection Hfail as <-. by rewrite Nat.add_0_r.
  - cbn [after_failures] in Hfail. cbn [Nat.add withRetry_loop].
    unfold try_catch at 1.
    destruct (operation s) as [[a|e|] t]; [done| |done].
    assert (Hattempt : Nat.eqb attempt maxRetries = false).
    { apply Nat.eqb_neq. specialize (Hne 0 ltac:(lia)). by rewrite Nat.add_0_r in Hne. }
    rewrite Hattempt. unfold bind at 1, setTimeout, emit. cbn beta iota.
    rewrite (IH n (S attempt) _ s_k Hfail); [|lia|right; lia|].
    + by replace (S attempt + k) with (attempt + S k) by lia.
    + intros i Hi. specialize (Hne (S i) ltac:(lia)). lia.
Qed.

(** X7: [withRetry] runs [operation] until an attempt does not throw, at
    most [maxRetries] times, waiting [delayMs] after each failed attempt
    but the last: when the first [k < maxRetries] attempts throw, and the
    next one either does not throw or is attempt number [maxRetries], the
    call ends as that attempt does, after [k] waits. With [maxRetries = 0]
    it throws [Max retries reached] without running [operation]. *)
Theorem withRetry_outcome {A : Type} (operation : M A) (maxRetries : nat)
    (delayMs : N) (k : nat) (s s_k : St) :
  k < maxRetries ->
  after_failures operation delayMs k s = Some s_k ->
  is_throw (operation s_k).1 = false \/ S k = maxRetries ->
  withRetry operation maxRetries delayMs s = operation s_k /\
  withRetry operation 0 delayMs s = (Throw max_retries_error, s).
Proof.
  intros Hk Hfail Hlast. split; [|reflexivity].
  unfold withRetry.
  replace maxRetries with (k + S (maxRetries - S k)) at 1 by lia.
  rewrite (withRetry_loop_failures operation delayMs maxRetries k _ 1 s s_k Hfail);
    [|lia|right; lia|intros i Hi; lia].
  cbn [withRetry_loop]. unfold try_catch.
  destruct (operation s_k) as [[a|e|] t] eqn:Hop; [done| |done].
  cbn in Hlast. destruct Hlast as [Hlast| Hlast]; [discriminate|].
  replace (1 + k) with maxRetries by lia. by rewrite Nat.eqb_refl.
Qed.

End Retry.

(** The operation fails once and then succeeds: one wait of 1000 ms, and
    the second reply is returned. *)
Lemma withRetry_second_attempt :
  let operation := http_fetch (H := Scripted.env) 0 (ImageUpload [] []) in
  let s := init (H := Scripted.env)
             [Rejected (Error (Js.lit "ECONNRESET")); Scripted.inventoryOk] in
  let s_1 := mkSt (H := Scripted.env) [Scripted.inventoryOk] []
               [Fetch 0 (ImageUpload [] []); Wait 1000] (Js.num 0) in
  withRetry (H := Scripted.env) operation 2 1000 s = operation s_1 /\
  withRetry (H := Scripted.env) operation 0 1000 s = (Throw max_retries_error, s).
Proof.
  intros operation s s_1.
  apply (withRetry_outcome (H := Scripted.env) operation 2 1000 1 s s_1).
  - lia.
  - reflexivity.
  - left. reflexivity.
Defined.

(* ===================================================================== *)
(** * Session storage *)
(* ===================================================================== *)

Section SessionStore.
Variable Session : Type.
Variable session_id : Session -> jsstring.
Variable session_shop : Session -> jsstring.

Local Abbreviation Store := (list (jsstring * Session)).
Local Abbreviation map_get := (map_get Session).
Local Abbreviation map_set := (map_set Session).
Local Abbreviation map_delete := (map_delete Session).
Local Abbreviation store_ok := (store_ok Session session_id).

Lemma map_get_set (k k' : jsstring) (v : Session) (store : Store) :
  map_get k' (map_set k v store) =
    if bool_decide (k' = k) then Some v else map_get k' store.
Proof.
  induction store as [|[k0 v0] rest IH]; cbn.
  - repeat case_bool_decide; congruence.
  - repeat (case_bool_decide; cbn); congruence.
Qed.

Lemma map_set_keys (k : jsstring) (v : Session) (store : Store) :
  List.map fst (map_set k v store) =
    if bool_decide (k ∈ List.map fst store) then List.map fst store
    else List.map fst store ++ [k].
Proof.
  induction store as [|[k0 v0] rest IH]; cbn; [done|].
  destruct (decide (k0 = k)) as [->|Hk0].
  - rewrite (bool_decide_eq_true_2 (k = k)) by done.
    rewrite bool_decide_eq_true_2; [done|left].
  - rewrite (bool_decide_eq_false_2 (k0 = k)) by done. cbn. rewrite IH.
    destruct (decide (k ∈ List.map fst rest)) as [Hin|Hin].
    + rewrite !bool_decide_eq_true_2; [done|by right|done].
    + rewrite !bool_decide_eq_false_2; [done| |done].
      intros [->|Hin']%elem_of_cons; [done|]. by apply Hin.
Qed.

Lemma map_set_elem (k : jsstring) (v : Session) (store : Store) (kv : jsstring * Session) :
  kv ∈ map_set k v store -> kv = (k, v) \/ kv ∈ store.
Proof.
  induction store as [|[k0 v0] rest IH]; cbn.
  - intros ->%list_elem_of_singleton. by left.
  - case_bool_decide.
    + intros [->|Hin]%elem_of_cons; [by left|right; by right].
    + intros [->|Hin]%elem_of_cons; [right; left|].
      destruct (IH Hin) as [->|Hin']; [by left|right; by right].
Qed.

Lemma map_get_None (k : jsstring) (store : Store) :
  map_get k store = None <-> k ∉ List.map fst store.
Proof.
  induction store as [|[k0 v0] rest IH]; cbn.
  - split; [intros _; apply not_elem_of_nil|done].
  - case_bool_decide as Hk.
    + subst k0. split; [done|]. intros Hn. exfalso. apply Hn. left.
    + rewrite IH, not_elem_of_cons. split; [by intros Hn; split|by intros [_ Hn]].
Qed.

Lemma map_get_Some (k : jsstring) (v : Session) (store : Store) :
  NoDup (List.map fst store) ->
  map_get k store = Some v <-> (k, v) ∈ store.
Proof.
  induction store as [|[k0 v0] rest IH]; cbn; intros Hnd.
  - split; [done|]. by intros ?%elem_of_nil.
  - apply NoDup_cons in Hnd as [Hk0 Hnd]. case_bool_decide as Hk.
    + subst k0. split.
      * intros [= ->]. left.
      * intros [[= ->]|Hin]%elem_of_cons; [done|].
        exfalso. apply Hk0. apply (list_elem_of_fmap_2 fst) in Hin. exact Hin.
    + rewrite (IH Hnd). split; [by right|].
      intros [[= -> ->]|Hin]%elem_of_cons; [done|exact Hin].
Qed.

Lemma map_delete_keys (k : jsstring) (store : Store) :
  NoDup (List.map fst store) ->
  NoDup (List.map fst (map_delete k store)) /\
  (forall kv, kv ∈ map_delete k store <-> kv ∈ store /\ kv.1 <> k).
Proof.
  induction store as [|[k0 v0] rest IH]; cbn; intros Hnd.
  - split; [constructor|]. intros kv. split; [by intros ?%elem_of_nil|].
    by intros [?%elem_of_nil _].
  - apply NoDup_cons in Hnd as [Hk0 Hnd]. destruct (IH Hnd) as [IHn IHe].
    case_bool_decide as Hk.
    + subst k0. split; [done|]. intros kv. split.
      * intros Hin. split; [by right|]. intros <-. apply Hk0.
        apply (list_elem_of_fmap_2 fst) in Hin. exact Hin.
      * intros [[->|Hin]%elem_of_cons Hne]; [done|exact Hin].
    + split.
      * cbn. apply NoDup_cons. split; [|done]. intros Hin.
        apply list_elem_of_fmap in Hin as [kv [-> Hin]].
        apply IHe in Hin as [Hin _]. apply Hk0.
        apply (list_elem_of_fmap_2 fst) in Hin. exact Hin.
      * intros kv. rewrite !elem_of_cons, IHe. split.
        -- intros [->|[Hin Hne]]; [split; [by left|done]|split; [by right|done]].
        -- intros [[->|Hin] Hne]; [by left|by right].
Qed.

Lemma map_get_delete (k k' : jsstring) (store : Store) :
  NoDup (List.map fst store) ->
  map_get k' (map_delete k store) =
    if bool_decide (k' = k) then None else map_get k' store.
Proof.
  intros Hnd. destruct (map_delete_keys k store Hnd) as [Hnd' Hel].
  case_bool_decide as Hk.
  - subst k'. apply map_get_None. intros Hin.
    apply list_elem_of_fmap in Hin as [kv [-> Hin]]. apply Hel in Hin as [_ Hne]. done.
  - destruct (map_get k' store) as [v|] eqn:Hget.
    + apply map_get_Some; [done|]. apply Hel. split; [|done].
      by apply map_get_Some.
    + apply map_get_None. apply map_get_None in Hget. intros Hin. apply Hget.
      apply list_elem_of_fmap in Hin as [kv [-> Hin]]. apply Hel in Hin as [Hin _].
      apply (list_elem_of_fmap_2 fst) in Hin. exact Hin.
Qed.

Lemma store_ok_set (session : Session) (store : Store) :
  store_ok store -> store_ok (map_set (session_id session) session store).
Proof.
  intros [Hnd Hid]. split.
  - rewrite map_set_keys. case_bool_decide as Hin; [done|].
    apply NoDup_app. split; [done|]. split; [|apply NoDup_singleton].
    intros k Hk ->%list_elem_of_singleton. by apply Hin.
  - apply Forall_forall. intros kv Hin.
    apply map_set_elem in Hin as [->|Hin]; [done|].
    rewrite Forall_forall in Hid. by apply Hid.
Qed.

Lemma store_ok_delete (k : jsstring) (store : Store) :
  store_ok store -> store_ok (map_delete k store).
Proof.
  intros [Hnd Hid]. destruct (map_delete_keys k store Hnd) as [Hnd' Hel]. split; [done|].
  apply Forall_forall. intros kv Hin. apply Hel in Hin as [Hin _].
  rewrite Forall_forall in Hid. by apply Hid.
Qed.

Lemma deleteSessions_spec (ids : list jsstring) (store : Store) :
  store_ok store ->
  store_ok (deleteSessions Session ids store).2 /\
  (forall id, loadSession Session id (deleteSessions Session ids store).2 =
     if bool_decide (id ∈ ids) then None else loadSession Session id store).
Proof.
  unfold deleteSessions, loadSession. cbn [snd].
  revert store. induction ids as [|k ids IH]; intros store Hok.
  - cbn. split; [done|]. intros id. rewrite bool_decide_eq_false_2; [done|].
    apply not_elem_of_nil.
  - cbn [fold_left]. destruct (IH (map_delete k store) (store_ok_delete k store Hok))
      as [Hok' Hload]. split; [done|]. intros id. rewrite Hload.
    rewrite (map_get_delete k id store (proj1 Hok)).
    destruct (decide (id = k)) as [->|Hne].
    + rewrite (bool_decide_eq_true_2 (k = k)) by done.
      rewrite (bool_decide_eq_true_2 (k ∈ k :: ids)) by left.
      by destruct (bool_decide (k ∈ ids)).
    + rewrite (bool_decide_eq_false_2 (id = k)) by done.
      destruct (decide (id ∈ ids)) as [Hin|Hin].
      * rewrite !bool_decide_eq_true_2; [done|by right|done].
      * rewrite !bool_decide_eq_false_2; [done| |done].
        by intros [?|?]%elem_of_cons.
Qed.

(** X8: a session stored is the one loaded under its id, whatever the
    store held, and the sessions under every other id are left as they
    were; storing keeps the keys of the store distinct and each session
    under its own id. *)
Theorem store_then_load (session : Session) (store : Store) :
  store_ok store ->
  (storeSession Session session_id session store).1 = true /\
  store_ok (storeSession Session session_id session store).2 /\
  (forall id,
      loadSession Session id (storeSession Session session_id session store).2 =
        if bool_decide (id = session_id session) then Some session
        else loadSession Session id store).
Proof.
  intros Hok. split; [done|]. split.
  - by apply store_ok_set.
  - intros id. apply map_get_set.
Qed.

(** X9: after [deleteSessions ids] no session is loaded under an id of
    [ids] and every other id loads what it did; [deleteSession id] is
    [deleteSessions [id]]; both report [true], also for ids that were not
    stored. *)
Theorem delete_then_load (ids : list jsstring) (store : Store) :
  store_ok store ->
  (deleteSessions Session ids store).1 = true /\
  store_ok (deleteSessions Session ids store).2 /\
  (forall id,
      loadSession Session id (deleteSessions Session ids store).2 =
        if bool_decide (id ∈ ids) then None else loadSession Session id store) /\
  (forall id, deleteSession Session id store = deleteSessions Session [id] store).
Proof.
  intros Hok. split; [done|].
  destruct (deleteSessions_spec ids store Hok) as [Hok' Hload].
  split; [done|]. split; [done|]. reflexivity.
Qed.

Lemma store_ok_sessions (store : Store) :
  store_ok store -> NoDup (List.map snd store).
Proof.
  intros [Hnd Hid]. induction store as [|[k v] rest IH]; [constructor|].
  cbn in *. apply NoDup_cons in Hnd as [Hk Hnd].
  apply Forall_cons in Hid as [Hv Hid]. cbn in Hv.
  apply NoDup_cons. split; [|by apply IH].
  intros Hin. apply list_elem_of_fmap in Hin as [[k' v'] [Heq Hin]]. cbn in Heq. subst v'.
  apply Hk. rewrite Forall_forall in Hid. specialize (Hid _ Hin). cbn in Hid.
  apply (list_elem_of_fmap_2 fst) in Hin. cbn in Hin.
  assert (k = k') as -> by congruence. exact Hin.
Qed.

(** X10: [findSessionsByShop shop] returns exactly the sessions of that
    shop that [loadSession] returns under their own id, each of them
    once. *)
Theorem findSessionsByShop_loaded (shop : jsstring) (store : Store) :
  store_ok store ->
  (forall session,
      session ∈ findSessionsByShop Session session_shop shop store <->
      loadSession Session (session_id session) store = Some session /\
      session_shop session = shop) /\
  NoDup (findSessionsByShop Session session_shop shop store).
Proof.
  intros Hok. pose proof (store_ok_sessions store Hok) as Hsessions.
  destruct Hok as [Hnd Hid]. split.
  - intros session. unfold findSessionsByShop, loadSession.
    rewrite list_elem_of_In, filter_In, <- list_elem_of_In, bool_decide_eq_true.
    rewrite (map_get_Some _ _ _ Hnd). split.
    + intros [Hin Hshop]. split; [|done].
      apply list_elem_of_fmap in Hin as [[k v] [-> Hin]].
      rewrite Forall_forall in Hid. specialize (Hid _ Hin). cbn in Hid |- *.
      by rewrite Hid.
    + intros [Hin Hshop]. split; [|done].
      apply (list_elem_of_fmap_2 snd) in Hin. exact Hin.
  - unfold findSessionsByShop.
    by apply NoDup_ListNoDup, List.NoDup_filter, NoDup_ListNoDup.
Qed.

End SessionStore.

Lemma two_sessions_ok : store_ok (jsstring * jsstring) fst two_sessions.
Proof.
  split.
  - apply (bool_decide_unpack _). vm_compute. exact I.
  - repeat constructor.
Defined.

Lemma store_then_load_example :
  let session := (Js.lit "offline_a", Js.lit "other.myshopify.com") in
  let store' := (storeSession (jsstring * jsstring) fst session two_sessions).2 in
  loadSession (jsstring * jsstring) (Js.lit "offline_a") store' = Some session /\
  loadSession (jsstring * jsstring) (Js.lit "offline_b") store' =
    Some (Js.lit "offline_b", Js.lit "cgn.myshopify.com") /\
  length store' = 2.
Proof.
  intros session store'.
  destruct (store_then_load (jsstring * jsstring) fst session two_sessions two_sessions_ok)
    as (_ & _ & Hload).
  split; [exact (Hload (Js.lit "offline_a"))|].
  split; [exact (Hload (Js.lit "offline_b"))|reflexivity].
Defined.

Lemma delete_then_load_example :
  let store' := (deleteSessions (jsstring * jsstring)
                   [Js.lit "offline_a"; Js.lit "unknown"] two_sessions).2 in
  loadSession (jsstring * jsstring) (Js.lit "offline_a") store' = None /\
  loadSession (jsstring * jsstring) (Js.lit "offline_b") store' =
    Some (Js.lit "offline_b", Js.lit "cgn.myshopify.com").
Proof.
  intros store'.
  destruct (delete_then_load (jsstring * jsstring) fst
              [Js.lit "offline_a"; Js.lit "unknown"] two_sessions two_sessions_ok)
    as (_ & _ & Hload & _).
  split; [exact (Hload (Js.lit "offline_a"))|exact (Hload (Js.lit "offline_b"))].
Defined.

Lemma findSessionsByShop_example :
  findSessionsByShop (jsstring * jsstring) snd (Js.lit "cgn.myshopify.com") two_sessions =
    List.map snd two_sessions /\
  NoDup (findSessionsByShop (jsstring * jsstring) snd
           (Js.lit "cgn.myshopify.com") two_sessions).
Proof.
  split; [reflexivity|].
  exact (proj2 (findSessionsByShop_loaded (jsstring * jsstring) fst snd
                  (Js.lit "cgn.myshopify.com") two_sessions two_sessions_ok)).
Defined.

(* ===================================================================== *)
(** * Every call of the client ends *)
(* ===================================================================== *)

Section ClientBound.
Context `{Env}.

Lemma backoff_S (retry k : nat) (q : GqlRequest) :
  backoff retry (S k) q =
    [Fetch retry (Graphql q); Wait (delay (retry + 1))] ++ backoff (S retry) k q.
Proof. reflexivity. Qed.

Lemma backoff_fetches (retry k : nat) (q : GqlRequest) :
  length (List.filter is_fetch (backoff retry k q)) = k.
Proof.
  revert retry. induction k as [|k IH]; intros retry; [done|].
  rewrite backoff_S. cbn. by rewrite IH.
Qed.

Lemma loop_total (q : GqlRequest) (n : nat) :
  forall (retry : nat) (s : St),
    exists k,
      k <= n /\
      Forall (fun r => verdict r = Throttled) (replies k (Graphql q) (world s)) /\
      let reply := (fetch (Graphql q) (world_after k (Graphql q) (world s))).1 in
      ((k = n /\
        shopifyGraphQL_loop n retry q s =
          (Throw rate_limit_error,
           mkSt (world_after k (Graphql q) (world s)) (failedProducts s)
                (trace s ++ backoff retry k q) (progress s))) \/
       (k < n /\ verdict reply <> Throttled /\
        shopifyGraphQL_loop n retry q s =
          (match verdict reply with
           | Success j => Ok j
           | Failure e => Throw e
           | Throttled => Diverge
           end,
           mkSt (world_after (S k) (Graphql q) (world s)) (failedProducts s)
                (trace s ++ backoff retry k q ++ [Fetch (retry + k) (Graphql q)])
                (progress s)))).
Proof.
  induction n as [|n IH]; intros retry s.
  - exists 0. split; [done|]. split; [constructor|]. left. split; [done|].
    destruct s. cbn. by rewrite app_nil_r.
  - destruct (verdict (fetch (Graphql q) (world s)).1) eqn:Hv.
    + assert (Hone : Forall (fun r => verdict r = Throttled)
                       (replies 1 (Graphql q) (world s))) by (by repeat constructor).
      pose proof (loop_throttled q 1 n retry s Hone) as Hstep.
      cbn [Nat.add] in Hstep.
      set (s1 := mkSt (world_after 1 (Graphql q) (world s)) (failedProducts s)
                   (trace s ++ backoff retry 1 q) (progress s)) in *.
      destruct (IH (retry + 1) s1) as (k & Hk & Hall & Hcases).
      exists (S k). split; [lia|]. split; [cbn [replies]; constructor; [exact Hv|exact Hall]|].
      cbn zeta in *. cbn [world_after]. rewrite Hstep.
      replace (retry + S k) with (retry + 1 + k) by lia.
      rewrite backoff_S. replace (S retry) with (retry + 1) by lia.
      destruct Hcases as [[-> Hrun]|(Hlt & Hne & Hrun)].
      * left. split; [done|]. rewrite Hrun. unfold s1. cbn.
        by rewrite <- !app_assoc.
      * right. split; [lia|]. split; [exact Hne|]. rewrite Hrun. unfold s1. cbn.
        by rewrite <- !app_assoc.
    + exists 0. split; [lia|]. split; [constructor|]. right. split; [lia|].
      cbn [world_after]. rewrite Hv. split; [done|].
      rewrite loop_answered, Hv, Nat.add_0_r by congruence. done.
    + exists 0. split; [lia|]. split; [constructor|]. right. split; [lia|].
      cbn [world_after]. rewrite Hv. split; [done|].
      rewrite loop_answered, Hv, Nat.add_0_r by congruence. done.
Qed.

(** X11: every call of [shopifyGraphQL] ends, after at most
    [maxRetries + 1 = 4] fetches, and leaves the ledger and the progress
    counter as they were: for some [k <= 4] the first [k] replies are
    throttling ones, and either [k = 4] and the call throws the rate-limit
    error after its fourth wait, or reply [k + 1] is not a throttling one
    and the call ends on it, returning it when it is a success and
    throwing its error otherwise. *)
Theorem client_attempts_bounded (q : GqlRequest) (s : St) :
  let run := shopifyGraphQL q s in
  failedProducts run.2 = failedProducts s /\
  progress run.2 = progress s /\
  run.1 <> Diverge /\
  length (List.filter is_fetch (since s (trace run.2))) <= maxRetries + 1 /\
  exists k,
    Forall (fun r => verdict r = Throttled) (replies k (Graphql q) (world s)) /\
    let reply := (fetch (Graphql q) (world_after k (Graphql q) (world s))).1 in
    (k = maxRetries + 1 /\ run = (Throw rate_limit_error, throttled_state k q s) \/
     k <= maxRetries /\ verdict reply <> Throttled /\
     run = (match verdict reply with
            | Success j => Ok j
            | Failure e => Throw e
            | Throttled => Diverge
            end, answered_state k q s)).
Proof.
  cbn zeta. unfold shopifyGraphQL.
  destruct (loop_total q (maxRetries + 1) 0 s) as (k & Hk & Hall & Hcases).
  cbn zeta in Hcases. destruct Hcases as [[-> Hrun]|(Hlt & Hne & Hrun)]; rewrite Hrun.
  - cbn [fst snd failedProducts progress trace].
    split; [done|]. split; [done|]. split; [done|]. split.
    + unfold since. by rewrite drop_app_length, backoff_fetches.
    + exists (maxRetries + 1). split; [done|]. by left.
  - cbn [fst snd failedProducts progress trace].
    split; [done|]. split; [done|]. split; [|split].
    + destruct (verdict _); [congruence|done|done].
    + unfold since. rewrite drop_app_length, List.filter_app, length_app, backoff_fetches.
      unfold maxRetries in *. cbn. lia.
    + exists k. split; [done|]. right. split; [lia|]. by split.
Qed.

End ClientBound.

(* ===================================================================== *)
(** * The image upload *)
(* ===================================================================== *)

Section ImageUpload.
Context `{Env}.

(** X12: the image upload is best effort: whatever the remote answers,
    [upload_image] does not throw; it sends one request, for the last
    segment of the product id, and appends one ledger entry when the
    request is rejected or its reply is not [ok], none otherwise. *)
Theorem image_upload_best_effort (product : ProductData) (productId src : jsstring)
    (s : St) :
  let request := ImageUpload (Js.lastSegment 47 productId) src in
  let run := upload_image product productId src s in
  let entry (err : Exn) :=
    Js.lit "Image upload failed for " ++ title product ++ Js.lit ": " ++
    String_of_exn err in
  run.1 = Ok tt /\
  trace run.2 = trace s ++ [Fetch 0 request] /\
  progress run.2 = progress s /\
  world run.2 = (fetch request (world s)).2 /\
  failedProducts run.2 =
    failedProducts s ++
    match (fetch request (world s)).1 with
    | Rejected err => [entry err]
    | Resolved uploadResponse =>
        if ok uploadResponse then []
        else [entry (Error (Js.lit "Failed to upload image: " ++ text uploadResponse))]
    end.
Proof.
  cbn zeta. unfold upload_image, try_catch, bind, http_fetch, push_failed, throw, ret.
  destruct (fetch (ImageUpload (Js.lastSegment 47 productId) src) (world s))
    as [[err|uploadResponse] w]; cbn [fst snd]; [done|].
  destruct (ok uploadResponse); cbn; [|done]. by rewrite app_nil_r.
Qed.

End ImageUpload.

(* ===================================================================== *)
(** * The delete policy *)
(* ===================================================================== *)

Section DeletePolicy.
Context `{Env}.

Lemma delete_ops_cons (existingProducts : gmap jsstring RemoteRef) (index : nat)
    (product : EpuisesData) (rest : list EpuisesData) :
  delete_ops existingProducts index (product :: rest) =
    match delete_op existingProducts index product with
    | Some op => [op]
    | None => []
    end ++ delete_ops existingProducts (S index) rest.
Proof.
  unfold delete_ops. rewrite imap_cons, Nat.add_0_r. cbn [omap list_omap].
  rewrite (imap_ext _ (fun i => delete_op existingProducts (S index + i)))
    by (intros i x _; cbn; f_equal; lia).
  by destruct (delete_op existingProducts index product).
Qed.

Lemma prepare_delete_spec (existingProducts : gmap jsstring RemoteRef)
    (epuises : list EpuisesData) :
  forall (index : nat) (mutations : list (nat * jsstring)) (s : St),
    prepare_delete existingProducts index epuises mutations s =
      (Ok (mutations ++ delete_ops existingProducts index epuises),
       mkSt (world s)
         (failedProducts s ++
          List.map not_found_msg (List.filter (missing existingProducts) epuises))
         (trace s) (progress s)).
Proof.
  induction epuises as [|product rest IH]; intros index mutations s.
  - destruct s. cbn. by rewrite !app_nil_r.
  - cbn [prepare_delete List.filter]. rewrite delete_ops_cons.
    unfold delete_op, missing at 1.
    destruct (existingProducts !! epuises_code product) as [existingProduct|].
    + rewrite IH. by rewrite <- app_assoc.
    + unfold bind, push_failed. rewrite IH. cbn. by rewrite <- app_assoc.
Qed.

Lemma delete_failure_is_not_not_found (product' : EpuisesData) (tail : jsstring) :
  Js.lit "Failed to delete product " ++ tail <> not_found_msg product'.
Proof.
  unfold not_found_msg. intros Heq.
  apply (f_equal (fun l => match l with c :: _ => c | [] => 0%N end)) in Heq.
  vm_compute in Heq. discriminate.
Qed.

Lemma inspect_deleted_effects (result : GraphQLResponse)
    (existingProducts : gmap jsstring RemoteRef) (epuises : list EpuisesData) :
  forall (index : nat) (s : St) (r : Res unit) (s' : St),
    inspect_deleted result existingProducts index epuises s = (r, s') ->
    world s' = world s /\ trace s' = trace s /\ progress s' = progress s /\
    exists extra,
      failedProducts s' = failedProducts s ++ extra /\
      Forall (fun entry => forall product, entry <> not_found_msg product) extra /\
      length extra <= length (delete_ops existingProducts index epuises).
Proof.
  induction epuises as [|product rest IH]; intros index s r s' Hrun.
  - cbn in Hrun. injection Hrun as <- <-. repeat split; try done.
    exists []. by rewrite app_nil_r.
  - cbn [inspect_deleted] in Hrun. rewrite delete_ops_cons. unfold delete_op.
    unfold bind at 1 in Hrun.
    destruct (existingProducts !! epuises_code product) as [existingProduct|].
    + unfold bind at 1, expect_result in Hrun.
      assert (Hstop : forall e, (r, s') = (Throw e, s) ->
                world s' = world s /\ trace s' = trace s /\ progress s' = progress s /\
                exists extra,
                  failedProducts s' = failedProducts s ++ extra /\
                  Forall (fun entry => forall product, entry <> not_found_msg product)
                    extra /\
                  length extra <=
                    length ([(index, id existingProduct)] ++
                            delete_ops existingProducts (S index) rest)).
      { intros e [= -> ->]. repeat split; try done. exists [].
        rewrite app_nil_r. repeat split; [constructor|cbn; lia]. }
      destruct (data result) as [[|results|]| |];
        try (unfold throw in Hrun; symmetry in Hrun; by eapply Hstop).
      destruct (list_find _ results) as [[? [? mutationResult]]|];
        [|unfold throw in Hrun; symmetry in Hrun; by eapply Hstop].
      unfold ret at 1 in Hrun.
      destruct (userErrors mutationResult) as [|err errs].
      * unfold ret at 1 in Hrun. apply IH in Hrun as (Hw & Ht & Hp & extra & Hl & Hall & Hlen).
        repeat split; try done. exists extra. repeat split; try done. cbn. lia.
      * unfold push_failed at 1 in Hrun.
        apply IH in Hrun as (Hw & Ht & Hp & extra & Hl & Hall & Hlen).
        cbn [world trace progress failedProducts] in *.
        repeat split; try done.
        eexists (_ :: extra). rewrite Hl, <- app_assoc. split; [reflexivity|].
        split; [|cbn; lia]. constructor; [|done].
        intros product'. apply delete_failure_is_not_not_found.
    + unfold ret at 1 in Hrun. by apply IH in Hrun.
Qed.

Lemma delete_ops_elem (existingProducts : gmap jsstring RemoteRef)
    (epuises : list EpuisesData) (i : nat) (productId : jsstring) :
  (i, productId) ∈ delete_ops existingProducts 0 epuises <->
  exists product existingProduct,
    epuises !! i = Some product /\
    existingProducts !! epuises_code product = Some existingProduct /\
    productId = id existingProduct.
Proof.
  unfold delete_ops. rewrite list_elem_of_omap. split.
  - intros (x & Hin & ->). apply elem_of_lookup_imap_1 in Hin as (j & product & Hop & Hj).
    cbn in Hop. unfold delete_op in Hop.
    destruct (existingProducts !! epuises_code product) as [existingProduct|] eqn:Hlook;
      [|done].
    injection Hop as -> ->. by exists product, existingProduct.
  - intros (product & existingProduct & Hi & Hlook & ->).
    exists (Some (i, id existingProduct)). split; [|done].
    apply elem_of_lookup_imap. exists i, product. split; [|done].
    cbn. unfold delete_op. by rewrite Hlook.
Qed.

Lemma delete_ops_partition (existingProducts : gmap jsstring RemoteRef)
    (epuises : list EpuisesData) :
  forall index,
    length (delete_ops existingProducts index epuises) +
    length (List.filter (missing existingProducts) epuises) = length epuises.
Proof.
  induction epuises as [|product rest IH]; intros index; [done|].
  rewrite delete_ops_cons, length_app. cbn [List.filter]. specialize (IH (S index)).
  unfold delete_op, missing at 1.
  destruct (existingProducts !! epuises_code product); cbn [length]; lia.
Qed.

(** X13: under the delete policy ([deleteEpuisesProducts]) the delisted
    products found in the index are deleted in one request, the only
    request issued (none at all when no product is found, and never an
    inventory adjustment); each sub-operation carries the position of its
    product in the delisted feed and the product id of its index entry;
    every delisted product missing from the index adds one ledger entry
    [Epuises product not found: <code>]; the entries appended besides are
    not not-found entries, at most one per sub-operation. *)
Theorem delete_policy (epuises : list EpuisesData)
    (existingProducts : gmap jsstring RemoteRef) (s : St) :
  let s' := (deleteEpuisesProducts epuises existingProducts s).2 in
  let ops := delete_ops existingProducts 0 epuises in
  let absent := List.filter (missing existingProducts) epuises in
  (exists extra,
      failedProducts s' =
        failedProducts s ++ List.map not_found_msg absent ++ extra /\
      Forall (fun entry => forall product, entry <> not_found_msg product) extra /\
      length extra <= length ops) /\
  match ops with
  | [] => trace s' = trace s
  | _ :: _ =>
      exists evs,
        trace s' = trace s ++ Fetch 0 (Graphql (DeleteMutation ops)) :: evs /\
        Forall (retry_event (DeleteMutation ops)) evs
  end /\
  (forall i productId,
      (i, productId) ∈ ops <->
      exists product existingProduct,
        epuises !! i = Some product /\
        existingProducts !! epuises_code product = Some existingProduct /\
        productId = id existingProduct) /\
  length ops + length absent = length epuises.
Proof.
  cbn zeta. split; [|split; [|split]];
    [| |apply delete_ops_elem|apply delete_ops_partition].
  - unfold deleteEpuisesProducts, bind. rewrite prepare_delete_spec. cbn [app].
    destruct (delete_ops existingProducts 0 epuises) as [|op ops] eqn:Hops.
    { cbn. exists []. by rewrite app_nil_r. }
    match goal with |- context [shopifyGraphQL ?q ?s1] =>
      destruct (shopifyGraphQL q s1) as [r1 s2] eqn:Hcall end.
    apply shopifyGraphQL_effects in Hcall as (Hl & _ & _).
    cbn [failedProducts] in Hl.
    destruct r1 as [result|e|]; cbn [snd];
      [|exists []; rewrite Hl, app_nil_r; repeat split; [constructor|cbn; lia]
       |exists []; rewrite Hl, app_nil_r; repeat split; [constructor|cbn; lia]].
    destruct (inspect_deleted result existingProducts 0 epuises s2) as [r s'] eqn:Hrun.
    apply inspect_deleted_effects in Hrun as (_ & _ & _ & extra & Hl' & Hall & Hlen).
    cbn [snd]. exists extra. rewrite Hl', Hl, <- app_assoc. rewrite Hops in Hlen. done.
  - unfold deleteEpuisesProducts, bind. rewrite prepare_delete_spec. cbn [app].
    destruct (delete_ops existingProducts 0 epuises) as [|op ops] eqn:Hops; [done|].
    match goal with |- context [shopifyGraphQL ?q ?s1] =>
      destruct (shopifyGraphQL q s1) as [r1 s2] eqn:Hcall end.
    apply shopifyGraphQL_effects in Hcall as (_ & _ & evs & Ht & Hall).
    cbn [trace] in Ht.
    destruct r1 as [result|e|]; cbn [snd]; [|by exists evs|by exists evs].
    destruct (inspect_deleted result existingProducts 0 epuises s2) as [r s'] eqn:Hrun.
    apply inspect_deleted_effects in Hrun as (_ & Ht' & _).
    cbn [snd]. exists evs. by rewrite Ht', Ht.
Qed.

End DeletePolicy.

(* ===================================================================== *)
(** * The index of the remote catalog *)
(* ===================================================================== *)

Lemma slices_from_concat {A : Type} (b : nat) (k : nat) :
  forall l : list A, 0 < b -> length l <= k -> concat (slices_from k b l) = l.
Proof.
  induction k as [|k IH]; intros l Hb Hk.
  - destruct l; [done|cbn in Hk; lia].
  - destruct l as [|x l]; [done|]. cbn [slices_from concat].
    rewrite IH; [apply take_drop|done|].
    rewrite length_drop. cbn [length] in *. lia.
Qed.

Lemma index_edge_empty_key (products : list ProductNode) :
  forall existingProducts : gmap jsstring RemoteRef,
    existingProducts !! [] = None ->
    fold_left index_edge products existingProducts !! [] = None.
Proof.
  induction products as [|edge rest IH]; intros existingProducts Hempty; [done|].
  cbn [fold_left]. apply IH. unfold index_edge.
  destruct (node_variants edge) as [|v ?]; [done|].
  destruct (variant_barcode v) as [b|]; [|done].
  destruct b as [|c b]; [done|]. cbn. by rewrite lookup_insert_ne.
Qed.

Section Index.
Context `{Env}.

Lemma fetch_pages_effects (batch : list jsstring) (fuel : nat) :
  forall (endCursor : option jsstring) (existingProducts : gmap jsstring RemoteRef)
         (s : St) (r : Res (gmap jsstring RemoteRef)) (s' : St),
    fetch_pages fuel batch endCursor existingProducts s = (r, s') ->
    failedProducts s' = failedProducts s /\
    extends (page_event batch) s s' /\
    (existingProducts !! [] = None ->
     match r with Ok index => index !! [] = None | _ => True end).
Proof.
  induction fuel as [|fuel IH]; intros endCursor existingProducts s r s' Hrun.
  - cbn in Hrun. injection Hrun as <- <-. split; [done|]. split; [apply extends_refl|done].
  - cbn [fetch_pages] in Hrun. unfold bind at 1 in Hrun.
    destruct (shopifyGraphQL (ProductsQuery batch endCursor) s) as [r1 s1] eqn:Hcall.
    assert (Hext : extends (page_event batch) s s1).
    { eapply emits_run; [|exact Hcall]. by apply emits_shopifyGraphQL. }
    apply shopifyGraphQL_effects in Hcall as (Hl & _ & _).
    destruct r1 as [result|e|];
      [|by injection Hrun as <- <-|by injection Hrun as <- <-].
    unfold bind at 1, expect_products in Hrun.
    destruct (data result) as [[products hasNextPage endCursor'| |]| |];
      try (injection Hrun as <- <-; done).
    unfold ret at 1 in Hrun. destruct hasNextPage.
    + apply IH in Hrun as (Hl' & Hext' & Hkey).
      split; [congruence|]. split; [by eapply extends_trans|].
      intros Hempty. by apply Hkey, index_edge_empty_key.
    + injection Hrun as <- <-. split; [done|]. split; [done|].
      intros Hempty. by apply index_edge_empty_key.
Qed.

Lemma fetch_batches_effects (codes : list jsstring) (fuel : nat)
    (batches : list (list jsstring)) :
  forall (existingProducts : gmap jsstring RemoteRef)
         (s : St) (r : Res (gmap jsstring RemoteRef)) (s' : St),
    Forall (fun batch => batch ∈ slices 250 codes) batches ->
    fetch_batches fuel batches existingProducts s = (r, s') ->
    failedProducts s' = failedProducts s /\
    extends (query_event codes) s s' /\
    (existingProducts !! [] = None ->
     match r with Ok index => index !! [] = None | _ => True end).
Proof.
  induction batches as [|batch rest IH]; intros existingProducts s r s' Hall Hrun.
  - cbn in Hrun. injection Hrun as <- <-. split; [done|]. split; [apply extends_refl|done].
  - apply Forall_cons in Hall as [Hbatch Hall].
    cbn [fetch_batches] in Hrun. unfold bind at 1 in Hrun.
    destruct (fetch_pages fuel batch None existingProducts s) as [r1 s1] eqn:Hpages.
    apply fetch_pages_effects in Hpages as (Hl & Hext & Hkey).
    assert (Hext1 : extends (query_event codes) s s1).
    { eapply extends_weaken; [|exact Hext].
      intros [retry [[keys after| | |]|]|ms|increment total]; cbn; try done.
      by intros ->. }
    destruct r1 as [existingProducts'|e|];
      [|by injection Hrun as <- <-|by injection Hrun as <- <-].
    apply IH in Hrun as (Hl' & Hext' & Hkey'); [|done].
    split; [congruence|]. split; [by eapply extends_trans|].
    intros Hempty. by apply Hkey', Hkey.
Qed.

(** X14: [fetchExistingProducts] only reads: it leaves the ledger and
    the progress counter as they were, and every request it sends, at any
    attempt, is a product query for one of the consecutive slices of at
    most 250 of [codes], which together are [codes]; without codes it
    sends nothing and returns an empty index; the index it returns never
    has the empty text as a key. *)
Theorem index_queries (fuel : nat) (codes : list jsstring) (s : St) :
  let run := fetchExistingProducts fuel codes s in
  failedProducts run.2 = failedProducts s /\
  progress run.2 = progress s /\
  (exists evs, trace run.2 = trace s ++ evs /\ Forall (query_event codes) evs) /\
  Forall (fun keys => length keys <= 250) (slices 250 codes) /\
  concat (slices 250 codes) = codes /\
  fetchExistingProducts fuel [] s = (Ok ∅, s) /\
  match run.1 with
  | Ok existingProducts => existingProducts !! [] = None
  | _ => True
  end.
Proof.
  cbn zeta.
  destruct (fetchExistingProducts fuel codes s) as [r s'] eqn:Hrun. cbn [fst snd].
  unfold fetchExistingProducts in Hrun.
  apply (fetch_batches_effects codes) in Hrun as (Hl & [Hp Hext] & Hkey);
    [|by apply Forall_forall].
  split; [done|]. split; [done|]. split; [done|].
  split; [apply slices_length|]. split; [by apply slices_from_concat; lia|].
  split; [done|]. by apply Hkey.
Qed.

End Index.

(* ===================================================================== *)
(** * The zero-stock policy deletes nothing *)
(* ===================================================================== *)

Section ZeroStockRun.
Context `{Env}.

Lemma batch_event_no_delete (n : nat) (e : Event) : batch_event n e -> no_delete_event e.
Proof. destruct e as [retry [[]|]| |]; cbn; done. Qed.

Lemma emits_fetch_pages_no_delete (fuel : nat) (batch : list jsstring) :
  forall endCursor existingProducts,
    emits no_delete_event (fetch_pages fuel batch endCursor existingProducts).
Proof.
  induction fuel as [|fuel IH]; intros endCursor existingProducts;
    cbn [fetch_pages]; [apply emits_diverge|].
  emits_tac.
Qed.

Lemma emits_fetchExistingProducts_no_delete (fuel : nat) (codes : list jsstring) :
  emits no_delete_event (fetchExistingProducts fuel codes).
Proof.
  unfold fetchExistingProducts. generalize (∅ : gmap jsstring RemoteRef).
  induction (slices 250 codes) as [|batch rest IH]; intros existingProducts;
    cbn [fetch_batches]; [apply emits_ret|].
  apply emits_bind; [apply emits_fetch_pages_no_delete|]. intros ?. apply IH.
Qed.

Lemma emits_setEpuisesStock_no_delete (epuises : list EpuisesData)
    (existingProducts : gmap jsstring RemoteRef) :
  emits no_delete_event (setEpuisesStock epuises existingProducts).
Proof.
  unfold setEpuisesStock. apply emits_bind.
  { intros s0. rewrite prepare_stock_spec. apply extends_silent. }
  intros ?. emits_tac.
Qed.

Lemma no_delete_trace_closed (s : St) : closed no_delete_event (no_delete_trace s).
Proof.
  intros s1 s2 [_ (evs2 & Ht2 & Hall2)] (evs1 & Ht1 & Hall1).
  exists (evs1 ++ evs2). rewrite Ht2, Ht1, <- app_assoc. split; [done|].
  by apply Forall_app.
Qed.

Lemma no_delete_trace_updateProgress (s : St) (increment : spec_float) :
  preserves (no_delete_trace s) (updateProgress increment).
Proof.
  intros s1 (evs1 & Ht1 & Hall1). cbn.
  exists (evs1 ++ [Progress increment
                     (Js.min (Js.add (progress s1) increment) (Js.num 100))]).
  rewrite Ht1, <- app_assoc. split; [done|].
  apply Forall_app. split; [done|]. by repeat constructor.
Qed.

Lemma no_delete_trace_progressCallback (s : St) (increment : spec_float) :
  preserves (no_delete_trace s) (progressCallback increment).
Proof.
  unfold progressCallback. apply preserves_bind; [|intros ?; apply preserves_ret].
  apply no_delete_trace_updateProgress.
Qed.

Lemma sync_batches_no_delete (s : St) (total : nat)
    (existingProducts : gmap jsstring RemoteRef) (batches : list (list ProductData)) :
  preserves (no_delete_trace s)
    (sync_batches total batches existingProducts progressCallback).
Proof.
  induction batches as [|batch rest IH]; cbn [sync_batches]; [apply preserves_ret|].
  apply preserves_bind; [|intros validBatch].
  { eapply preserves_emits; [apply no_delete_trace_closed|apply emits_filter_valid]. }
  apply preserves_bind; [|intros _].
  { intros st Hst.
    destruct (createOrUpdateProductBatch validBatch existingProducts st) as [r st'] eqn:Hrun.
    apply createOrUpdateProductBatch_effects in Hrun as [Hext _].
    eapply no_delete_trace_closed; [|exact Hst].
    eapply extends_weaken; [|exact Hext]. apply batch_event_no_delete. }
  apply preserves_bind; [|intros _; exact IH].
  apply no_delete_trace_progressCallback.
Qed.

Lemma zero_stock_sync_no_delete (s : St) (fuel : nat)
    (nouveautes : list ProductData) (epuises : list EpuisesData) :
  preserves (no_delete_trace s)
    (syncProductsWithShopify fuel false nouveautes epuises progressCallback).
Proof.
  unfold syncProductsWithShopify.
  apply preserves_bind; [|intros _].
  { eapply preserves_emits; [apply no_delete_trace_closed|apply emits_new_failedProducts]. }
  apply preserves_bind; [|intros existingProducts].
  { eapply preserves_emits;
      [apply no_delete_trace_closed|apply emits_fetchExistingProducts_no_delete]. }
  apply preserves_bind; [apply no_delete_trace_progressCallback|intros _].
  apply preserves_bind; [apply sync_batches_no_delete|intros _].
  apply preserves_bind; [|intros _].
  { eapply preserves_emits;
      [apply no_delete_trace_closed|apply emits_setEpuisesStock_no_delete]. }
  apply preserves_bind; [apply no_delete_trace_progressCallback|intros _].
  apply preserves_ret.
Qed.

Lemma preserves_get_progress (I : St -> Prop) : preserves I get_progress.
Proof. by intros s Hs. Qed.

(** X15: when the environment of the process does not give the value
    [true] to the variable read at shopify.ts:487, the one whose name
    ends in [EPUIS], the letter U+00C9 and [S], a run of [action] never
    sends a product deletion, whatever the feeds and the remote answer,
    also when the run fails. *)
Theorem zero_stock_run_never_deletes (fuel : nat) (env : gmap jsstring jsstring)
    (feeds : Feeds) (s : St) :
  env !! (Js.lit "SHOPIFY_DELETE_EPUIS" ++ [201%N] ++ Js.lit "S") <>
    Some (Js.lit "true") ->
  let s' := (action fuel (shouldDeleteEpuises_of env) feeds s).2 in
  exists evs,
    trace s' = trace s ++ evs /\
    Forall (fun e => forall retry ops, e <> Fetch retry (Graphql (DeleteMutation ops))) evs.
Proof.
  intros Henv. cbn zeta.
  assert (shouldDeleteEpuises_of env = false) as ->.
  { unfold shouldDeleteEpuises_of. by apply bool_decide_eq_false_2. }
  assert (Hinv : no_delete_trace s (action fuel false feeds s).2).
  { assert (Hk : preserves (no_delete_trace s) (action fuel false feeds)).
    { unfold action.
      destruct (authentication feeds) as [thrown|[]];
        [apply preserves_throw| |apply preserves_throw].
      apply preserves_bind; [by intros ? ?|intros _].
      apply preserves_try_catch.
      - unfold action_try.
        apply preserves_bind; [|intros _].
        { destruct (discovery feeds); [apply preserves_throw|apply preserves_ret]. }
        apply preserves_bind; [apply no_delete_trace_updateProgress|intros _].
        apply preserves_bind; [apply preserves_of_sum|intros nouveautes].
        apply preserves_bind; [apply no_delete_trace_updateProgress|intros _].
        apply preserves_bind; [apply preserves_of_sum|intros epuises].
        apply preserves_bind; [apply no_delete_trace_updateProgress|intros _].
        apply preserves_bind; [apply zero_stock_sync_no_delete|intros _].
        apply preserves_bind; [apply preserves_get_progress|intros p].
        apply preserves_bind; [apply no_delete_trace_updateProgress|intros _].
        apply preserves_bind; [apply preserves_get_progress|intros p'].
        apply preserves_ret.
      - intros e. apply preserves_bind; [apply preserves_get_progress|intros p].
        apply preserves_ret. }
    apply Hk. exists []. by rewrite app_nil_r. }
  destruct Hinv as (evs & Ht & Hall). exists evs. split; [done|].
  eapply Forall_impl; [exact Hall|]. intros e He retry ops ->. exact He.
Qed.

End ZeroStockRun.

(** The variable spelt without the accent does not select the deletion:
    with [SHOPIFY_DELETE_EPUISES=true] in the environment, the run of a
    feed of one delisted product that the remote knows sends an inventory
    request and no deletion. *)
Lemma unaccented_variable_keeps_zero_stock :
  let env : gmap jsstring jsstring :=
    {[ Js.lit "SHOPIFY_DELETE_EPUISES" := Js.lit "true" ]} in
  let feeds := Scenario.feeds [] [mkEpuises (barcode Scenario.widget)] in
  let s := init (H := Shop.env) Scenario.stocked in
  let s' := (action (H := Shop.env) 1 (shouldDeleteEpuises_of env) feeds s).2 in
  env !! (Js.lit "SHOPIFY_DELETE_EPUIS" ++ [201%N] ++ Js.lit "S") <>
    Some (Js.lit "true") /\
  exists evs,
    trace s' = trace s ++ evs /\
    Forall (fun e => forall retry ops, e <> Fetch retry (Graphql (DeleteMutation ops))) evs.
Proof.
  cbn zeta.
  assert (Henv : ({[ Js.lit "SHOPIFY_DELETE_EPUISES" := Js.lit "true" ]}
                    : gmap jsstring jsstring)
                 !! (Js.lit "SHOPIFY_DELETE_EPUIS" ++ [201%N] ++ Js.lit "S") <>
                 Some (Js.lit "true")).
  { vm_compute. discriminate. }
  split; [exact Henv|].
  exact (zero_stock_run_never_deletes (H := Shop.env) 1 _
           (Scenario.feeds [] [mkEpuises (barcode Scenario.widget)])
           (init (H := Shop.env) Scenario.stocked) Henv).
Defined.

(* ===================================================================== *)
(** * The replies of [action] *)
(* ===================================================================== *)

Section Replies.
Context `{Env}.

(** X16: past the authentication, when the file lookup or a parser
    throws, [action] sends no request: it replies with status 500, the
    message of the exception after [Failed to sync products: ], and the
    progress reached: 0 when the lookup fails, 20 when the parser of the
    incoming feed fails, 40 when the parser of the delisted feed fails. *)
Theorem action_feed_error (fuel : nat) (shouldDeleteEpuises : bool) (feeds : Feeds)
    (s : St) :
  let reply (p : spec_float) (e : Exn) :=
    mkResult p false (Js.lit "Failed to sync products: " ++ emessage e) [] 500 in
  let state (evs : list Event) (p : spec_float) :=
    mkSt (world s) (failedProducts s) (trace s ++ evs) p in
  match authentication feeds with
  | AuthSession true =>
      match discovery feeds, nouveautesCSV feeds, epuisesCSV feeds with
      | Some e, _, _ =>
          action fuel shouldDeleteEpuises feeds s =
            (Ok (reply (Js.num 0) e), state [] (Js.num 0))
      | None, inl e, _ =>
          action fuel shouldDeleteEpuises feeds s =
            (Ok (reply (Js.num 20) e),
             state [Progress (Js.num 20) (Js.num 20)] (Js.num 20))
      | None, inr _, inl e =>
          action fuel shouldDeleteEpuises feeds s =
            (Ok (reply (Js.num 40) e),
             state [Progress (Js.num 20) (Js.num 20);
                    Progress (Js.num 20) (Js.num 40)] (Js.num 40))
      | None, inr _, inr _ => True
      end
  | _ => True
  end.
Proof.
  cbn zeta. unfold action.
  destruct (authentication feeds) as [thrown|[]]; [done| |done].
  unfold action_try, bind, try_catch, new_progress, updateProgress,
    of_sum, get_progress, throw, ret.
  destruct (discovery feeds) as [e|].
  { cbn [world failedProducts trace progress]. by rewrite app_nil_r. }
  cbn [world failedProducts trace progress].
  change (Js.min (Js.add (Js.num 0) (Js.num 20)) (Js.num 100)) with (Js.num 20).
  destruct (nouveautesCSV feeds) as [e|nouveautes]; [reflexivity|].
  cbn [world failedProducts trace progress].
  change (Js.min (Js.add (Js.num 20) (Js.num 20)) (Js.num 100)) with (Js.num 40).
  destruct (epuisesCSV feeds) as [e|epuises]; [|done].
  by rewrite <- app_assoc.
Qed.

Lemma second_half_update (p increment : spec_float) :
  second_half p -> not_negative increment ->
  second_half (Js.min (Js.add p increment) (Js.num 100)).
Proof.
  intros [Hc H50] Hi.
  destruct (clamp_bounds p increment (or_intror (conj Hc Hi))) as [Hc' Hle].
  split; [done|].
  apply (le_trans_positive (Js.num 50) p); try done; [by destruct Hc|by destruct Hc'].
Qed.

Lemma second_half_closed : closed sync_event (fun st => second_half (progress st)).
Proof. intros s1 s2 [Hp _] Hs. by rewrite Hp. Qed.

Lemma second_half_progressCallback (increment : spec_float) :
  not_negative increment ->
  preserves (fun st => second_half (progress st)) (progressCallback increment).
Proof. intros Hi st Hst. cbn. by apply second_half_update. Qed.

Lemma action_try_progress (fuel : nat) (shouldDeleteEpuises : bool) (feeds : Feeds)
    (s : St) (res : ActionResult) (s' : St) :
  progress s = Js.num 0 ->
  action_try fuel shouldDeleteEpuises feeds s = (Ok res, s') ->
  result_progress res = Js.num 100.
Proof.
  unfold action_try. intros Hzero Hrun.
  apply bind_Ok in Hrun as ([] & s1 & Hdisc & Hrun).
  assert (s1 = s) as ->.
  { destruct (discovery feeds); [discriminate|]. by injection Hdisc. }
  apply bind_Ok in Hrun as (p1 & s2 & Hup1 & Hrun). injection Hup1 as _ <-.
  apply bind_Ok in Hrun as (nouveautes & s3 & Hn & Hrun).
  destruct (nouveautesCSV feeds) as [?|n0]; [discriminate|]. injection Hn as <- <-.
  apply bind_Ok in Hrun as (p2 & s4 & Hup2 & Hrun). injection Hup2 as _ <-.
  apply bind_Ok in Hrun as (epuises & s5 & He & Hrun).
  destruct (epuisesCSV feeds) as [?|e0]; [discriminate|]. injection He as <- <-.
  apply bind_Ok in Hrun as (p3 & s6 & Hup3 & Hrun). injection Hup3 as _ <-.
  apply bind_Ok in Hrun as ([] & s7 & Hsync & Hrun).
  cbn [progress] in Hsync. rewrite Hzero in Hsync.
  change (Js.min
            (Js.add
               (Js.min (Js.add (Js.min (Js.add (Js.num 0) (Js.num 20)) (Js.num 100))
                          (Js.num 20)) (Js.num 100)) (Js.num 10)) (Js.num 100))
    with (Js.num 50) in Hsync.
  assert (Hhalf : second_half (progress s7)).
  { eapply (preserves_run (fun st => second_half (progress st))); [|exact Hsync|].
    - apply syncProductsWithShopify_preserves.
      + apply second_half_closed.
      + apply second_half_progressCallback.
    - cbn. by vm_compute. }
  apply bind_Ok in Hrun as (p & s8 & Hp & Hrun). injection Hp as <- <-.
  apply bind_Ok in Hrun as (p4 & s9 & Hup & Hrun). injection Hup as _ <-.
  apply bind_Ok in Hrun as (p' & s10 & Hp' & Hrun). injection Hp' as <- <-.
  injection Hrun as <- _. cbn [result_progress progress].
  destruct Hhalf as [[Hpos Hle] H50]. by apply clamp_full.
Qed.

Lemma action_try_reply (fuel : nat) (shouldDeleteEpuises : bool) (feeds : Feeds)
    (s : St) (res : ActionResult) (s' : St) :
  action_try fuel shouldDeleteEpuises feeds s = (Ok res, s') ->
  progress s' = result_progress res /\
  exists nouveautes epuises,
    discovery feeds = None /\
    nouveautesCSV feeds = inr nouveautes /\ epuisesCSV feeds = inr epuises /\
    result_message res =
      Js.lit "Successfully synced " ++
      Js.ofNat (length (List.filter
                          (fun p => negb (Js.isEmpty (code p)) &&
                                    negb (Js.isEmpty (title p))) nouveautes)) ++
      Js.lit " Nouveautes and " ++
      Js.ofNat (length (List.filter (fun p => negb (Js.isEmpty (epuises_code p)))
                          epuises)) ++
      Js.lit " Epuises products".
Proof.
  unfold action_try. intros Hrun.
  apply bind_Ok in Hrun as ([] & s1 & Hdisc & Hrun).
  apply bind_Ok in Hrun as (p1 & s2 & _ & Hrun).
  apply bind_Ok in Hrun as (nouveautes & s3 & Hn & Hrun).
  apply bind_Ok in Hrun as (p2 & s4 & _ & Hrun).
  apply bind_Ok in Hrun as (epuises & s5 & He & Hrun).
  apply bind_Ok in Hrun as (p3 & s6 & _ & Hrun).
  apply bind_Ok in Hrun as ([] & s7 & _ & Hrun).
  apply bind_Ok in Hrun as (p & s8 & Hp & Hrun).
  apply bind_Ok in Hrun as (p4 & s9 & Hup & Hrun).
  apply bind_Ok in Hrun as (p' & s10 & Hp' & Hrun).
  injection Hrun as <- <-. cbn [result_progress result_message].
  injection Hp as <- <-. injection Hup as <- <-. injection Hp' as <- <-.
  cbn [progress]. split; [done|].
  exists nouveautes, epuises.
  destruct (discovery feeds); [discriminate|].
  destruct (nouveautesCSV feeds) as [?|n0]; [discriminate|]. injection Hn as -> _.
  destruct (epuisesCSV feeds) as [?|e0]; [discriminate|]. injection He as -> _.
  repeat split.
Qed.

(** X17: past the authentication, a reply of [action] with status 200
    reports the progress 100, the JavaScript number: the counter is at
    least 50 when the sync engine returns, so that [100 - progress] is
    exact; it carries the message
    [Successfully synced N Nouveautes and M Epuises products], [N] and
    [M] counting the parsed records kept by the filters of [action]
    (a code and a title, respectively a code), not the products the
    remote accepted; every other reply has status 500, and its message
    starts with [Failed to sync products: ]. *)
Theorem action_completed_reply (fuel : nat) (shouldDeleteEpuises : bool)
    (feeds : Feeds) (s : St) :
  match authentication feeds with
  | AuthSession true =>
      match (action fuel shouldDeleteEpuises feeds s).1 with
      | Ok res =>
          (http_status res = 200%N /\
           result_progress res = Js.num 100 /\
           exists nouveautes epuises,
             nouveautesCSV feeds = inr nouveautes /\
             epuisesCSV feeds = inr epuises /\
             result_message res =
               Js.lit "Successfully synced " ++
               Js.ofNat (length (List.filter
                                   (fun p => negb (Js.isEmpty (code p)) &&
                                             negb (Js.isEmpty (title p)))
                                   nouveautes)) ++
               Js.lit " Nouveautes and " ++
               Js.ofNat (length (List.filter
                                   (fun p => negb (Js.isEmpty (epuises_code p)))
                                   epuises)) ++
               Js.lit " Epuises products") \/
          (http_status res = 500%N /\
           exists e,
             result_message res = Js.lit "Failed to sync products: " ++ emessage e)
      | Throw _ => False
      | Diverge => True
      end
  | _ => True
  end.
Proof.
  unfold action.
  destruct (authentication feeds) as [thrown|[]]; [done| |done].
  unfold bind at 1, new_progress at 1, try_catch. cbn beta iota.
  match goal with |- context [action_try ?f ?d ?fd ?s0] =>
    destruct (action_try f d fd s0) as [[res|e|] s1] eqn:Htry end; cbn [fst].
  - left. pose proof (action_try_result _ _ _ _ _ _ Htry) as (Hstatus & _ & _).
    assert (Hp : result_progress res = Js.num 100)
      by (eapply action_try_progress; [|exact Htry]; reflexivity).
    apply action_try_reply in Htry as (_ & nouveautes & epuises & _ & Hn & He & Hm).
    split; [done|]. split; [done|]. by exists nouveautes, epuises.
  - right. cbn. split; [done|]. by exists e.
  - done.
Qed.

End Replies.

(* ===================================================================== *)
(** * The image uploads of a batch *)
(* ===================================================================== *)

Section ImageUploads.
Context `{Env}.

Lemma emits_inspect_results_images (result : GraphQLResponse)
    (existingProducts : gmap jsstring RemoteRef) (products batch : list ProductData) :
  forall index variables,
    Forall (fun product => product ∈ products) batch ->
    emits (image_event products existingProducts)
      (inspect_results result existingProducts index batch variables).
Proof.
  induction batch as [|product rest IH]; intros index variables Hall;
    cbn [inspect_results]; [apply emits_ret|].
  apply Forall_cons in Hall as [Hin Hall].
  apply emits_bind; [|intros ?; by apply IH].
  unfold inspect_result. apply emits_bind; [apply emits_expect_result|intros mutationResult].
  destruct (userErrors mutationResult); [|emits_tac].
  destruct (result_product mutationResult) as [[productId [|inventoryItem ?]]|];
    try apply emits_throw.
  apply emits_bind; [|intros ?; apply emits_ret].
  destruct (Js.isEmpty (Js.trim (image_url product))) eqn:Hurl; [apply emits_ret|].
  unfold update_or_create.
  destruct (existingProducts !! barcode product) eqn:Hlook; [apply emits_ret|].
  cbn [negb andb]. unfold upload_image.
  apply emits_try_catch; [|intros ?; apply emits_push_failed].
  apply emits_bind; [|intros ?; emits_tac].
  apply emits_http_fetch. split; [done|]. exists product.
  split; [done|]. split; [done|]. split; [done|].
  intros Hnil. by rewrite Hnil in Hurl.
Qed.

(** X18: a batch uploads images only for products it creates: every
    image upload of [createOrUpdateProductBatch] is a single attempt for
    a product of the batch whose barcode is not in the index, with the
    trimmed image URL of that product, which is not empty; a product
    found in the index, or without image URL, gets no upload. *)
Theorem image_uploads_for_created (products : list ProductData)
    (existingProducts : gmap jsstring RemoteRef) (s : St) :
  let s' := (createOrUpdateProductBatch products existingProducts s).2 in
  exists evs,
    trace s' = trace s ++ evs /\
    Forall (image_event products existingProducts) evs.
Proof.
  cbn zeta.
  assert (Hemits : emits (image_event products existingProducts)
                     (createOrUpdateProductBatch products existingProducts)).
  { unfold createOrUpdateProductBatch.
    destruct (imap (build_op existingProducts) products); [apply emits_ret|].
    apply emits_bind; [by apply emits_shopifyGraphQL|intros result].
    apply emits_bind.
    { apply emits_inspect_results_images. by apply Forall_forall. }
    intros variables'. apply emits_bind; [by apply emits_shopifyGraphQL|intros ?].
    emits_tac. }
  destruct (Hemits s) as [_ Hext]. exact Hext.
Qed.

End ImageUploads.

(* ===================================================================== *)
(** * Reconciliation by barcode *)
(* ===================================================================== *)

Lemma sanitizeString_clean (s : jsstring) : clean_text (sanitizeString s).
Proof.
  unfold clean_text, sanitizeString, Js.substring0. rewrite printable_not_replacement.
  split; [rewrite length_take; lia|]. apply Forall_take.
  eapply Forall_impl; [apply trim_Forall, filter_kept|].
  intros c Hc. cbn in Hc. unfold Csv.printable in Hc.
  apply andb_prop in Hc as [H1 H2]. apply N.leb_le in H1, H2. lia.
Qed.

Lemma build_ops_for (existingProducts : gmap jsstring RemoteRef)
    (products : list ProductData) :
  Forall (op_for existingProducts products) (imap (build_op existingProducts) products).
Proof.
  apply Forall_forall. intros op Hin.
  apply elem_of_lookup_imap_1 in Hin as (index & product & -> & Hlook).
  unfold build_op.
  destruct (existingProducts !! barcode product) as [existingProduct|] eqn:Hkey; cbn.
  - exists product, existingProduct. repeat split; done.
  - exists product. repeat split; done.
Qed.

Section Reconciliation.
Context `{Env}.

Lemma upload_event_reconcile (existingProducts : gmap jsstring RemoteRef)
    (products : list ProductData) (e : Event) :
  upload_event e -> reconcile_event existingProducts products e.
Proof. destruct e as [retry [[]|]| |]; cbn; done. Qed.

(** X19: a batch reconciles by barcode: in every combined mutation
    request of [createOrUpdateProductBatch], at any attempt, the
    sub-operation numbered [i] is built for the product at position [i]
    of the batch, an update of the product id the index holds under the
    barcode of that product when the index has that key, a creation
    otherwise; the values interpolated into its text are the title and
    the description as [sanitizeString] returns them, the brand and the
    category or [Unknown], the subcategory unless empty, and the barcode
    and the price as they are: a title and a description of at most 255
    printable ASCII code units, a vendor and a product type that are
    never empty, no empty tag. The double quote and the backslash are
    printable: [sanitizeString] keeps them, as in the text of code units
    65, 34, 92, 66. *)
Theorem reconciliation_by_barcode (products : list ProductData)
    (existingProducts : gmap jsstring RemoteRef) (s : St) :
  let s' := (createOrUpdateProductBatch products existingProducts s).2 in
  (exists evs,
      trace s' = trace s ++ evs /\
      Forall (reconcile_event existingProducts products) evs) /\
  (forall product input,
      input_for product input ->
      clean_text (input_title input) /\
      clean_text (input_descriptionHtml input) /\
      input_vendor input <> [] /\
      input_productType input <> [] /\
      Forall (fun tag => tag <> []) (input_tags input)) /\
  sanitizeString [65; 34; 92; 66]%N = [65; 34; 92; 66]%N.
Proof.
  cbn zeta. split; [|split; [|reflexivity]].
  - assert (Hemits : emits (reconcile_event existingProducts products)
                       (createOrUpdateProductBatch products existingProducts)).
    { unfold createOrUpdateProductBatch.
      pose proof (build_ops_for existingProducts products) as Hops.
      destruct (imap (build_op existingProducts) products) as [|op ops];
        [apply emits_ret|].
      apply emits_bind; [by apply emits_shopifyGraphQL|intros result].
      apply emits_bind.
      { eapply emits_weaken; [apply upload_event_reconcile|apply emits_inspect_results]. }
      intros variables'. apply emits_bind; [by apply emits_shopifyGraphQL|intros ?].
      emits_tac. }
    destruct (Hemits s) as [_ Hext]. exact Hext.
  - intros product input (Ht & Hd & Hv & Hp & Htags & _ & _).
    rewrite Ht, Hd, Hv, Hp, Htags.
    split; [apply sanitizeString_clean|]. split; [apply sanitizeString_clean|].
    split; [by destruct (brand product)|]. split; [by destruct (category product)|].
    destruct (subcategory product) as [|c tag]; cbn; [constructor|].
    by repeat constructor.
Qed.

End Reconciliation.
